(** * Tiny Ray Caster (Tiny_RR_005.ino): a shallow embedding and its properties

    The sketch runs on an Arduino Pro Micro (8-bit AVR).  On that target
    [float] and [double] are both IEEE-754 binary32 and [int] has 16 bits.
    Floating-point values are modelled bit-exactly with the Standard
    Library's [spec_float] at precision 24 and maximal exponent 128; the
    globals of the sketch become the fields of one [world] record that every
    function threads explicitly.  What the sketch takes from outside (the
    math library's [cos] and [sin], the bytes that lie around [my_map] in
    memory, the value of a float-to-int cast that C leaves undefined) is
    gathered in a [platform] record over which the model is parametric.

    The arithmetic is that of IEEE 754 with rounding to nearest, ties to
    even.  Of the two variants of the sketch the one modelled is the
    RetroRocket port, in which the projection constant [k] is 1. *)

From Stdlib Require Import ZArith List Bool Lia String QArith.
From Stdlib Require Import Floats.SpecFloat.
Import ListNotations.
Open Scope Z_scope.

(** ** binary32 arithmetic *)

Module F32.

Definition f32 := spec_float.

Definition prec : Z := 24.
Definition emax : Z := 128.

Definition fadd : f32 -> f32 -> f32 := SFadd prec emax.
Definition fsub : f32 -> f32 -> f32 := SFsub prec emax.
Definition fmul : f32 -> f32 -> f32 := SFmul prec emax.
Definition fdiv : f32 -> f32 -> f32 := SFdiv prec emax.
Definition fneg : f32 -> f32 := SFopp.
Definition fabs : f32 -> f32 := SFabs.

(** C's [<], [>], [<=], [>=] on floats: every comparison with a NaN is
    false. *)
Definition flt (x y : f32) : bool := SFltb x y.
Definition fgt (x y : f32) : bool := SFltb y x.
Definition fle (x y : f32) : bool := SFleb x y.
Definition fge (x y : f32) : bool := SFleb y x.

(** Conversion of an [int] to [float]. *)
Definition of_int (z : Z) : f32 := binary_normalize prec emax z 0 false.

(** A valid binary32 datum: canonical mantissa, exponent in range. *)
Definition valid (x : f32) : bool := valid_binary prec emax x.

Definition is_finite (x : f32) : bool :=
  match x with
  | S754_zero _ | S754_finite _ _ _ => true
  | _ => false
  end.

Definition is_nan (x : f32) : bool :=
  match x with
  | S754_nan => true
  | _ => false
  end.

(** Truncation toward zero of a finite value; 0 on the others. *)
Definition trunc (x : f32) : Z :=
  match x with
  | S754_finite s m e =>
      let a := Z.shiftl (Zpos m) e in if s then - a else a
  | _ => 0
  end.

Definition INT_MIN : Z := -32768.
Definition INT_MAX : Z := 32767.

(** The cast [(int)x] is defined by C when [x] is finite and its
    truncation fits in an [int]. *)
Definition int_defined (x : f32) : bool :=
  is_finite x && (INT_MIN <=? trunc x) && (trunc x <=? INT_MAX).

(** The exact value of a finite float, as a rational. *)
Definition to_Q (x : f32) : Q :=
  match x with
  | S754_finite s m e =>
      let v := if 0 <=? e then inject_Z (Zpos m * 2 ^ e)
               else Qmake (Zpos m) (Z.to_pos (2 ^ (- e))) in
      if s then Qopp v else v
  | _ => 0%Q
  end.

(** Literals of the sketch.  [PI] is Arduino.h's
    3.1415926535897932384626433832795 rounded to binary32. *)
Definition PI : f32 := S754_finite false 13176795 (-22).

End F32.
Import F32.

Arguments of_int _ : simpl never.
Arguments fadd _ _ : simpl never.
Arguments fsub _ _ : simpl never.
Arguments fmul _ _ : simpl never.
Arguments fdiv _ _ : simpl never.

(** ** Constants of the sketch *)

Definition SCREEN_WIDTH : Z := 128.
Definition SCREEN_HEIGHT : Z := 64.
Definition MAP_X_DIM : Z := 10.
Definition MAP_Y_DIM : Z := 10.

Definition screen_width : Z := SCREEN_WIDTH.
Definition screen_height : Z := SCREEN_HEIGHT.
Definition NUM_SLIVERS : Z := screen_width.
Definition FOV : f32 := of_int 90.
Definition theta_inc : f32 := fdiv FOV (of_int NUM_SLIVERS).

Definition WALL_TEXTURE_X_DIM : Z := 3.
Definition WALL_TEXTURE_Y_DIM : Z := 3.
Definition NUM_WALL_TEXTURES : Z := 20.

Definition RR_PIN_SOUND : Z := 10.

Definition player_turn_speed : f32 := fmul (of_int 16) theta_inc.
Definition player_walk_speed : f32 := fdiv (of_int 1) (of_int 10).

(** ** The platform and the globals *)

Record platform := {
  cos : f32 -> f32;
  sin : f32 -> f32;
  (** the byte an index pair outside [my_map] happens to read *)
  stray : Z -> Z -> Z;
  (** the value of a cast [(int)x] that C leaves undefined *)
  cast_undef : f32 -> Z
}.

(** [char my_map[MAP_X_DIM][MAP_Y_DIM]]: a list of columns, [my_map[x][y]]
    being entry [y] of column [x]. *)
Definition grid := list (list Z).

Record world := {
  my_map : grid;
  player_x : f32;
  player_y : f32;
  player_bearing : f32;
  wall_textures : Z -> Z -> Z -> Z;
  (** [display.drawPixel] calls, newest first: x, y, white? *)
  display : list (Z * Z * bool);
  (** [randomSeed] calls, newest first *)
  seeds : list Z;
  (** [Serial.println] lines, newest first *)
  serial : list string;
  (** [tone] calls, newest first: pin, frequency, duration *)
  tones : list (Z * Z * Z);
  (** index pairs with which [my_map] was subscripted, newest first *)
  map_reads : list (Z * Z)
}.

Definition set_position (x y : f32) (w : world) : world :=
  {| my_map := my_map w; player_x := x; player_y := y;
     player_bearing := player_bearing w; wall_textures := wall_textures w;
     display := display w; seeds := seeds w; serial := serial w;
     tones := tones w; map_reads := map_reads w |}.

Definition set_bearing (b : f32) (w : world) : world :=
  {| my_map := my_map w; player_x := player_x w; player_y := player_y w;
     player_bearing := b; wall_textures := wall_textures w;
     display := display w; seeds := seeds w; serial := serial w;
     tones := tones w; map_reads := map_reads w |}.

Definition drawPixel (x y : Z) (white : bool) (w : world) : world :=
  {| my_map := my_map w; player_x := player_x w; player_y := player_y w;
     player_bearing := player_bearing w; wall_textures := wall_textures w;
     display := (x, y, white) :: display w; seeds := seeds w;
     serial := serial w; tones := tones w; map_reads := map_reads w |}.

Definition randomSeed (s : Z) (w : world) : world :=
  {| my_map := my_map w; player_x := player_x w; player_y := player_y w;
     player_bearing := player_bearing w; wall_textures := wall_textures w;
     display := display w; seeds := s :: seeds w; serial := serial w;
     tones := tones w; map_reads := map_reads w |}.

Definition Serial_println (s : string) (w : world) : world :=
  {| my_map := my_map w; player_x := player_x w; player_y := player_y w;
     player_bearing := player_bearing w; wall_textures := wall_textures w;
     display := display w; seeds := seeds w; serial := s :: serial w;
     tones := tones w; map_reads := map_reads w |}.

Definition tone (pin freq dur : Z) (w : world) : world :=
  {| my_map := my_map w; player_x := player_x w; player_y := player_y w;
     player_bearing := player_bearing w; wall_textures := wall_textures w;
     display := display w; seeds := seeds w; serial := serial w;
     tones := (pin, freq, dur) :: tones w; map_reads := map_reads w |}.

Definition log_read (i j : Z) (w : world) : world :=
  {| my_map := my_map w; player_x := player_x w; player_y := player_y w;
     player_bearing := player_bearing w; wall_textures := wall_textures w;
     display := display w; seeds := seeds w; serial := serial w;
     tones := tones w; map_reads := (i, j) :: map_reads w |}.

(** The index pair lies inside the array. *)
Definition in_map (i j : Z) : bool :=
  (0 <=? i) && (i <? MAP_X_DIM) && (0 <=? j) && (j <? MAP_Y_DIM).

(** The cell of the grid at an index pair inside the array. *)
Definition cell (m : grid) (i j : Z) : Z :=
  nth (Z.to_nat j) (nth (Z.to_nat i) m []) 0.

Section Sketch.

Variable P : platform.

(** The cast [(int)x]. *)
Definition to_int (x : f32) : Z :=
  if int_defined x then trunc x else cast_undef P x.

(** The value of the expression [my_map[i][j]]. *)
Definition map_value (m : grid) (i j : Z) : Z :=
  if in_map i j then cell m i j else stray P i j.

(** Evaluating [my_map[i][j]]: the value, and the subscript recorded. *)
Definition read_map (i j : Z) (w : world) : Z * world :=
  (map_value (my_map w) i j, log_read i j w).

(** ** Movement *)

Definition step_forward (distance : f32) (w : world) : world :=
  let theta_radians := fdiv (fmul (player_bearing w) PI) (of_int 180) in
  let delta_x := fmul distance (cos P theta_radians) in
  let delta_y := fmul distance (sin P theta_radians) in
  let player_x_new := fadd (player_x w) delta_x in
  let player_y_new := fadd (player_y w) delta_y in
  (* the first operand of the && chain subscripts the map *)
  let '(c, w1) := read_map (to_int player_x_new) (to_int player_y_new) w in
  if (c =? 0) &&
     fgt player_x_new (of_int 0) &&
     fgt player_y_new (of_int 0) &&
     flt player_x_new (of_int MAP_X_DIM) &&
     flt player_y_new (of_int MAP_Y_DIM)
  then
    set_position (fadd (player_x w1) delta_x) (fadd (player_y w1) delta_y) w1
  else
    tone RR_PIN_SOUND 2000 500
      (Serial_println "Attempting to walk through wall... I can't do it!" w1).

Definition step_backward (distance : f32) (w : world) : world :=
  step_forward (fneg distance) w.

Definition turn_left (speed : f32) (w : world) : world :=
  set_bearing (fsub (player_bearing w) speed) w.

Definition turn_right (speed : f32) (w : world) : world :=
  set_bearing (fadd (player_bearing w) speed) w.

Definition strafe_left (distance : f32) (w : world) : world :=
  turn_right (of_int 90) (step_forward distance (turn_left (of_int 90) w)).

Definition strafe_right (distance : f32) (w : world) : world :=
  turn_left (of_int 90) (step_forward distance (turn_right (of_int 90) w)).

(** ** Drawing *)

Definition put_pixel (x y c : Z) (w : world) : world :=
  if c >? 0 then drawPixel x y true w else drawPixel x y false w.

(** Fuel of the row loop of [render_sliver]: the screen has
    [screen_height] rows. *)
Definition RENDER_FUEL : nat := S (Z.to_nat screen_height).

(** The [for (int y = ...; y <= ...; y++)] loop of [render_sliver]. *)
Fixpoint render_rows (fuel : nat) (x : Z)
    (wall_height screen_middle_y half_wall_height : f32)
    (y : Z) (w : world) : option world :=
  match fuel with
  | O => None
  | S fuel' =>
      if fle (of_int y)
             (fsub (fadd screen_middle_y half_wall_height) (of_int 1))
      then
        let wi := to_int (fmul (fdiv wall_height (of_int screen_height))
                               (of_int NUM_WALL_TEXTURES)) in
        let wi := if wi >? NUM_WALL_TEXTURES - 1
                  then NUM_WALL_TEXTURES - 1 else wi in
        let wx := Z.rem x WALL_TEXTURE_X_DIM in
        let wy := Z.rem y WALL_TEXTURE_Y_DIM in
        let c := wall_textures w wi wx wy in
        render_rows fuel' x wall_height screen_middle_y half_wall_height
                    (y + 1) (put_pixel x y c w)
      else Some w
  end.

Definition render_sliver (x : Z) (wall_height wall_color : f32)
    (w : world) : option world :=
  let screen_middle_y := fdiv (of_int screen_height) (of_int 2) in
  let half_wall_height := fdiv wall_height (of_int 2) in
  let w1 := put_pixel x (to_int (fsub screen_middle_y half_wall_height)) 1 w in
  let w2 := put_pixel x (to_int (fadd screen_middle_y half_wall_height)) 1 w1 in
  render_rows RENDER_FUEL x wall_height screen_middle_y half_wall_height
    (to_int (fadd (fsub screen_middle_y half_wall_height) (of_int 1))) w2.

(** ** Ray casting *)

(** What the scan of one column did: whether it left the loop through
    [break], the value of the loop variable [wall_height] when it left,
    the value assigned to [d[sliver]] if any, and the pairs
    ([wall_height], [r]) of the iterations it ran, in scan order. *)
Record column := {
  col_hit : bool;
  col_wall_height : f32;
  col_d : option f32;
  col_samples : list (f32 * f32)
}.

Definition add_sample (s : f32 * f32) (c : column) : column :=
  {| col_hit := col_hit c; col_wall_height := col_wall_height c;
     col_d := col_d c; col_samples := s :: col_samples c |}.

(** The radius sampled at a wall height: [r = (k * screen_height) /
    wall_height] with [k = 1]. *)
Definition radius (wall_height : f32) : f32 :=
  let k := of_int 1 in
  fdiv (fmul k (of_int screen_height)) wall_height.

Definition to_radians (theta : f32) : f32 :=
  fdiv (fmul theta PI) (of_int 180).

(** The four bounds tests that guard the subscript in [ray_cast]. *)
Definition out_of_bounds (x y : f32) : bool :=
  flt x (of_int 0) || flt y (of_int 0) ||
  fge x (of_int MAP_X_DIM) || fge y (of_int MAP_Y_DIM).

(** The condition of the [if] in the scan loop; [||] evaluates the
    subscript only when the four tests before it are false. *)
Definition probe (x y : f32) (w : world) : bool * world :=
  if out_of_bounds x y then (true, w)
  else
    let '(c, w1) := read_map (to_int x) (to_int y) w in
    (negb (c =? 0), w1).

Definition shade (r x y : f32) : f32 :=
  let wall_color := of_int 1 in
  let wall_color :=
    if fgt r (of_int 1) then fdiv (of_int 1) r else wall_color in
  if (Z.rem (to_int (fmul x (of_int 5))) MAP_X_DIM =? 0) &&
     (Z.rem (to_int (fmul y (of_int 5))) MAP_Y_DIM =? 0)
  then of_int 1 else wall_color.

(** Fuel of the scan loop: [wall_height] takes the even values from
    [screen_height] down to 0. *)
Definition SCAN_FUEL : nat := S (Z.to_nat (screen_height / 2)).

(** The loop [for (float wall_height = screen_height; wall_height > 0;
    wall_height -= 2)], entered at [wall_height]. *)
Fixpoint scan (fuel : nat) (sliver : Z) (theta wall_height : f32)
    (w : world) : option (world * column) :=
  match fuel with
  | O => None
  | S fuel' =>
      if fgt wall_height (of_int 0) then
        let r := radius wall_height in
        let theta_radians := to_radians theta in
        let x := fadd (player_x w) (fmul r (cos P theta_radians)) in
        let y := fadd (player_y w) (fmul r (sin P theta_radians)) in
        let '(hit, w1) := probe x y w in
        if hit then
          let wall_color := shade r x y in
          let w2 :=
            randomSeed
              (to_int (fmul (fadd (fmul y (of_int MAP_X_DIM)) x)
                            (of_int 100))) w1 in
          match render_sliver sliver wall_height wall_color w2 with
          | Some w3 =>
              Some (w3, {| col_hit := true; col_wall_height := wall_height;
                           col_d := Some r;
                           col_samples := [(wall_height, r)] |})
          | None => None
          end
        else
          match scan fuel' sliver theta (fsub wall_height (of_int 2)) w1 with
          | Some (w', c) => Some (w', add_sample (wall_height, r) c)
          | None => None
          end
      else
        Some (w, {| col_hit := false; col_wall_height := wall_height;
                    col_d := None; col_samples := [] |})
  end.

Definition CAST_FUEL : nat := S (Z.to_nat NUM_SLIVERS).

(** The loop [for (int sliver = 0; sliver < NUM_SLIVERS; sliver++)],
    entered at [sliver] with the running angle [theta]. *)
Fixpoint cast_columns (fuel : nat) (sliver : Z) (theta : f32)
    (w : world) : option (world * list (Z * column)) :=
  match fuel with
  | O => None
  | S fuel' =>
      if sliver <? NUM_SLIVERS then
        match scan SCAN_FUEL sliver theta (of_int screen_height) w with
        | Some (w1, c) =>
            match cast_columns fuel' (sliver + 1) (fadd theta theta_inc) w1 with
            | Some (w2, cs) => Some (w2, (sliver, c) :: cs)
            | None => None
            end
        | None => None
        end
      else Some (w, [])
  end.

(** [ray_cast]: the world it leaves and, for every column it scanned,
    the column index with what the scan did. *)
Definition ray_cast (w : world) : option (world * list (Z * column)) :=
  let theta := fsub (player_bearing w) (fdiv FOV (of_int 2)) in
  cast_columns CAST_FUEL 0 theta w.

End Sketch.

(** ** A reference platform for concrete runs

    A small binary32 math library (quadrant reduction and Taylor
    polynomials, exact at 0), zero bytes around the map and 0 for undefined
    casts.  It is used to run the model on concrete worlds only; no general
    theorem depends on it. *)

Module Ref.

Definition ratio (a b : Z) : f32 := fdiv (of_int a) (of_int b).

Definition HALF_PI : f32 := fdiv PI (of_int 2).

(** The multiple of pi/2 nearest to [t]. *)
Definition quadrant (t : f32) : Z :=
  let q := fdiv t HALF_PI in
  trunc (if flt q (of_int 0) then fsub q (ratio 1 2) else fadd q (ratio 1 2)).

Definition reduce (t : f32) : f32 :=
  fsub t (fmul (of_int (quadrant t)) HALF_PI).

Definition sin_poly (r : f32) : f32 :=
  let r2 := fmul r r in
  fmul r (fadd (of_int 1)
    (fmul r2 (fadd (ratio (-1) 6)
    (fmul r2 (fadd (ratio 1 120)
    (fmul r2 (ratio (-1) 5040))))))).

Definition cos_poly (r : f32) : f32 :=
  let r2 := fmul r r in
  fadd (of_int 1)
    (fmul r2 (fadd (ratio (-1) 2)
    (fmul r2 (fadd (ratio 1 24)
    (fmul r2 (fadd (ratio (-1) 720)
    (fmul r2 (ratio 1 40320)))))))).

Definition ref_sin (t : f32) : f32 :=
  if is_finite t then
    let r := reduce t in
    match quadrant t mod 4 with
    | 0 => sin_poly r
    | 1 => cos_poly r
    | 2 => fneg (sin_poly r)
    | _ => fneg (cos_poly r)
    end
  else S754_nan.

Definition ref_cos (t : f32) : f32 :=
  if is_finite t then
    let r := reduce t in
    match quadrant t mod 4 with
    | 0 => cos_poly r
    | 1 => fneg (sin_poly r)
    | 2 => fneg (cos_poly r)
    | _ => sin_poly r
    end
  else S754_nan.

Definition ref_platform : platform :=
  {| cos := ref_cos; sin := ref_sin;
     stray := fun _ _ => 0; cast_undef := fun _ => 0 |}.

(** The map after [clear_map]: every cell empty. *)
Definition empty_map : grid :=
  repeat (repeat 0 (Z.to_nat MAP_Y_DIM)) (Z.to_nat MAP_X_DIM).

(** A map with one wall block, at cell (5, 3). *)
Definition one_block_map : grid :=
  map (fun i => map (fun j => if (i =? 5) && (j =? 3) then 1 else 0)
                    [0; 1; 2; 3; 4; 5; 6; 7; 8; 9])
      [0; 1; 2; 3; 4; 5; 6; 7; 8; 9].

Definition make_world (m : grid) (x y b : f32) : world :=
  {| my_map := m; player_x := x; player_y := y; player_bearing := b;
     wall_textures := fun i _ _ => if i <? 10 then 0 else 1;
     display := []; seeds := []; serial := []; tones := [];
     map_reads := [] |}.

(** The world of the sketch at power-up, before the map is filled:
    player at (5.5, 5.5), bearing 270. *)
Definition start_world : world :=
  make_world empty_map
    (fadd (fdiv (of_int MAP_X_DIM) (of_int 2)) (ratio 1 2))
    (fadd (fdiv (of_int MAP_Y_DIM) (of_int 2)) (ratio 1 2))
    (of_int 270).

End Ref.

(** ** Vocabulary of the statements *)

(** Structural equality of two floats (not C's [==]: it tells the two zeros
    apart and equates NaN with itself). *)
Definition same_float (a b : f32) : bool :=
  match a, b with
  | S754_zero s, S754_zero t => Bool.eqb s t
  | S754_infinity s, S754_infinity t => Bool.eqb s t
  | S754_nan, S754_nan => true
  | S754_finite s m e, S754_finite t n f =>
      Bool.eqb s t && Pos.eqb m n && Z.eqb e f
  | _, _ => false
  end.

Fixpoint distinct_floats (l : list f32) : bool :=
  match l with
  | [] => true
  | a :: l' => negb (existsb (same_float a) l') && distinct_floats l'
  end.

(** Integers from [lo] to [lo + n - 1]. *)
Definition zrange (lo : Z) (n : nat) : list Z :=
  map (fun i => lo + Z.of_nat i) (seq 0 n).

(** *** The scan *)

(** The wall height of the scan iteration that is [k] iterations away from
    the end of the scan: 2k. *)
Definition hgt (k : nat) : f32 := of_int (2 * Z.of_nat k).

(** The wall heights the scan visits from [hgt k] on, in scan order. *)
Fixpoint descent (k : nat) : list f32 :=
  match k with
  | O => []
  | S k' => hgt k :: descent k'
  end.

(** Number of scan iterations that start at [screen_height]. *)
Definition FULL_SCAN : nat := Z.to_nat (screen_height / 2).

(** The fields [ray_cast] only reads. *)
Definition same_scene (w w' : world) : Prop :=
  my_map w' = my_map w /\ player_x w' = player_x w /\
  player_y w' = player_y w /\ player_bearing w' = player_bearing w /\
  wall_textures w' = wall_textures w.

(** [w'] is [w] with more subscripts recorded and nothing else changed. *)
Definition more_reads (w w' : world) : Prop :=
  same_scene w w' /\ display w' = display w /\ seeds w' = seeds w /\
  serial w' = serial w /\ tones w' = tones w /\
  exists l, map_reads w' = l ++ map_reads w.

(** [w'] is [w] with pixels drawn or the seed set, and nothing read. *)
Definition drawn (w w' : world) : Prop :=
  same_scene w w' /\ map_reads w' = map_reads w.

(** Does the loop header of [render_sliver] stop within the fuel? *)
Fixpoint rows_end (fuel : nat) (bound : f32) (y : Z) : bool :=
  match fuel with
  | O => false
  | S fuel' =>
      if fle (of_int y) bound then rows_end fuel' bound (y + 1) else true
  end.

(** [render_sliver] at this wall height starts from a defined row and
    leaves its loop within [RENDER_FUEL]. *)
Definition render_ok (wall_height : f32) : bool :=
  let screen_middle_y := fdiv (of_int screen_height) (of_int 2) in
  let half_wall_height := fdiv wall_height (of_int 2) in
  let y0 := fadd (fsub screen_middle_y half_wall_height) (of_int 1) in
  int_defined y0 &&
  rows_end RENDER_FUEL
    (fsub (fadd screen_middle_y half_wall_height) (of_int 1)) (trunc y0).

(** What holds of every scan iteration [k] in 1..[FULL_SCAN]. *)
Definition height_ok (k : nat) : bool :=
  fgt (hgt k) (of_int 0) &&
  same_float (fsub (hgt k) (of_int 2)) (hgt (pred k)) &&
  render_ok (hgt k) &&
  fle (of_int 0) (hgt k) && fle (hgt k) (of_int screen_height) &&
  fle (of_int 2) (hgt k) &&
  valid (radius (hgt k)) && is_finite (radius (hgt k)) &&
  fle (radius (hgt k)) (radius (hgt (pred k))).

(** A scan that looks at the heights [hs] in order and stops at the first
    one that [hit] accepts: the heights looked at, and the accepted one. *)
Fixpoint sweep (hit : f32 -> bool) (hs : list f32) : list f32 * option f32 :=
  match hs with
  | [] => ([], None)
  | h :: hs' =>
      if hit h then ([h], Some h)
      else let '(seen, found) := sweep hit hs' in (h :: seen, found)
  end.

(** The angle of the column [j] columns after one of angle [theta]. *)
Definition advance (theta : f32) (j : nat) : f32 :=
  Nat.iter j (fun t => fadd t theta_inc) theta.

(** The view angle of column [i]: [theta] after [i] increments. *)
Fixpoint ray_angle (bearing : f32) (i : nat) : f32 :=
  match i with
  | O => fsub bearing (fdiv FOV (of_int 2))
  | S i' => fadd (ray_angle bearing i') theta_inc
  end.

(** *** Floats *)

(** The canonical exponent of a mantissa-exponent pair whose digits and
    exponent add up to [v]. *)
Definition fx (v : Z) : Z := fexp prec emax v.

Definition half : f32 := fdiv (of_int 1) (of_int 2).

(** A valid float of magnitude at least 1/2, or an infinity. *)
Definition steep (c : f32) : bool := valid c && fle half (fabs c).

(** A valid float of magnitude at least 16, or an infinity. *)
Definition far (t : f32) : bool := valid t && fle (of_int 16) (fabs t).

(** A valid float that is neither a NaN nor an infinity. *)
Definition sound (c : f32) : bool := valid c && is_finite c.

(** *** Movement *)

(** The move was committed: no error cue was sounded. *)
Definition accepted (w w' : world) : Prop := tones w' = tones w.

(** The move was refused: the error cue was sounded once. *)
Definition rejected (w w' : world) : Prop :=
  tones w' = (RR_PIN_SOUND, 2000, 500) :: tones w.

(** [a] and [b] are finite and differ by an integer multiple of 360. *)
Definition congruent_mod_360 (a b : f32) : Prop :=
  is_finite a = true /\ is_finite b = true /\
  exists k : Z, (to_Q a - to_Q b == inject_Z (360 * k))%Q.

(** The bearing [n] turn steps away from 0: n * 11.25 degrees. *)
Definition grid_bearing (n : Z) : f32 := fmul (of_int n) player_turn_speed.

(** The largest turn-step count of the bearings checked exhaustively. *)
Definition GRID_SPAN : Z := 4096.

(** On the bearing [n] turn steps from 0, subtracting 90 and adding it
    back, and adding 90 and subtracting it back, are exact. *)
Definition quarter_turn_exact (n : Z) : bool :=
  let b := grid_bearing n in
  is_finite b &&
  same_float (fadd (fsub b (of_int 90)) (of_int 90)) b &&
  same_float (fsub (fadd b (of_int 90)) (of_int 90)) b.

(** The largest step counts of the bearing and of the turn angle checked
    exhaustively for a turn and its inverse. *)
Definition BEARING_SPAN : Z := 1024.
Definition ANGLE_SPAN : Z := 32.

Definition turn_back_exact (n m : Z) : bool :=
  let b := grid_bearing n in
  let t := grid_bearing m in
  is_finite b && same_float (fsub (fadd b t) t) b.

(** The player stands strictly inside the map, at valid coordinates. *)
Definition inside_map (w : world) : Prop :=
  valid (player_x w) = true /\
  fgt (player_x w) (of_int 0) = true /\
  flt (player_x w) (of_int MAP_X_DIM) = true /\
  valid (player_y w) = true /\
  fgt (player_y w) (of_int 0) = true /\
  flt (player_y w) (of_int MAP_Y_DIM) = true.

(** The player at (9.9375, 5.5) in the empty map, facing east (bearing 0):
    one sixteenth of a cell from the east edge. *)
Definition east_edge_world : world :=
  Ref.make_world Ref.empty_map (fsub (of_int 10) (Ref.ratio 1 16))
    (Ref.ratio 11 2) (of_int 0).

(** A world whose bearing is 2^-20 degrees. *)
Definition small_bearing_world : world :=
  Ref.make_world Ref.empty_map (Ref.ratio 11 2) (Ref.ratio 11 2)
    (S754_finite false 8388608 (-43)).

(** A world whose bearing is 2^127 degrees, a finite binary32 number; the
    player stands at (5.5, 5.5) in the empty map. *)
Definition huge_bearing_world : world :=
  Ref.make_world Ref.empty_map (Ref.ratio 11 2) (Ref.ratio 11 2)
    (S754_finite false 8388608 104).

(** *** What depends on the platform *)

Section Vocabulary.

Variable P : platform.

(** The point a ray of angle [theta] (degrees) reaches at the radius of
    wall height [h]. *)
Definition ray_x (w : world) (theta h : f32) : f32 :=
  fadd (player_x w) (fmul (radius h) (cos P (to_radians theta))).

Definition ray_y (w : world) (theta h : f32) : f32 :=
  fadd (player_y w) (fmul (radius h) (sin P (to_radians theta))).

(** The hit test of the scan loop at wall height [h]: the point fails one
    of the four bounds tests, or the map entry at its truncation is
    nonzero. *)
Definition hits (w : world) (theta h : f32) : bool :=
  let x := ray_x w theta h in
  let y := ray_y w theta h in
  out_of_bounds x y ||
  negb (map_value P (my_map w) (to_int P x) (to_int P y) =? 0).

(** [ij] is the subscript pair of a point of the ray [theta], sampled at
    one of the heights [hs], that passed the four bounds tests. *)
Definition passed (w : world) (theta : f32) (hs : list f32)
    (ij : Z * Z) : Prop :=
  exists h, In h hs /\
    out_of_bounds (ray_x w theta h) (ray_y w theta h) = false /\
    ij = (to_int P (ray_x w theta h), to_int P (ray_y w theta h)).

(** From [w] to [w'] the map was subscripted only at points of the ray
    [theta] that had passed the bounds tests. *)
Definition guarded_reads (w w' : world) (theta : f32) (hs : list f32)
    : Prop :=
  exists l, map_reads w' = l ++ map_reads w /\
            Forall (passed w theta hs) l.

(** The same for the [n] columns that start at angle [theta]. *)
Definition all_guarded_reads (w w' : world) (theta : f32) (n : nat)
    : Prop :=
  exists l, map_reads w' = l ++ map_reads w /\
            Forall (fun ij => exists j, (j < n)%nat /\
                        passed w (advance theta j) (descent FULL_SCAN) ij) l.

(** [w'] is what the hit branch of the scan leaves when it breaks at
    wall height [h] in column [sliver], started from [w]. *)
Definition rendered (sliver : Z) (theta h : f32) (w w' : world) : Prop :=
  exists w1, more_reads w w1 /\
    let x := ray_x w theta h in
    let y := ray_y w theta h in
    render_sliver P sliver h (shade P (radius h) x y)
      (randomSeed
         (to_int P (fmul (fadd (fmul y (of_int MAP_X_DIM)) x) (of_int 100)))
         w1) = Some w'.

(** What a scan entered at [hgt k] leaves, in terms of the sweep of the
    heights still to visit. *)
Definition scan_post (sliver : Z) (theta : f32) (k : nat)
    (w w' : world) (c : column) : Prop :=
  same_scene w w' /\
  guarded_reads w w' theta (descent k) /\
  col_samples c =
    map (fun h => (h, radius h)) (fst (sweep (hits w theta) (descent k))) /\
  match snd (sweep (hits w theta) (descent k)) with
  | Some h =>
      col_hit c = true /\ col_wall_height c = h /\
      col_d c = Some (radius h) /\ rendered sliver theta h w w'
  | None =>
      col_hit c = false /\ col_wall_height c = hgt 0 /\
      col_d c = None /\ more_reads w w'
  end.

(** What the scan of a column of angle [theta] reports, in a world whose
    scene is that of [w]. *)
Definition column_post (w : world) (theta : f32) (c : column) : Prop :=
  col_samples c =
    map (fun h => (h, radius h))
        (fst (sweep (hits w theta) (descent FULL_SCAN))) /\
  match snd (sweep (hits w theta) (descent FULL_SCAN)) with
  | Some h =>
      col_hit c = true /\ col_wall_height c = h /\ col_d c = Some (radius h)
  | None =>
      col_hit c = false /\ col_wall_height c = hgt 0 /\ col_d c = None
  end.

(** The composition of the three calls, written out by hand. *)
Definition turn_step_turn_back (d : f32) (w : world) : world :=
  let w1 := turn_left (of_int 90) w in
  let w2 := step_forward P d w1 in
  turn_right (of_int 90) w2.

(** At the angle [theta] (degrees) the math library returns a direction
    whose cosine or sine has magnitude at least 1/2, as every unit vector
    has. *)
Definition trig_usable (theta : f32) : Prop :=
  steep (cos P (to_radians theta)) = true \/
  steep (sin P (to_radians theta)) = true.

Definition trig_usableb (theta : f32) : bool :=
  steep (cos P (to_radians theta)) || steep (sin P (to_radians theta)).

(** At the angle [theta] (degrees) the math library returns numbers. *)
Definition trig_sound (theta : f32) : bool :=
  sound (cos P (to_radians theta)) && sound (sin P (to_radians theta)).

End Vocabulary.

(** ** The rest of the sketch: map generation, overlay, frame loop

    The functions below use globals that [world] does not hold (the two
    drawing colours, the frame counter) and more of the Arduino core: the
    random generator, the formatting of numbers by [print], the text calls
    of the display driver, the buttons and the clock.  The globals are
    gathered in a [sketch] record around the [world]; what the core returns
    is gathered in a [core] record, as [platform] does for the math
    library. *)

Record core := {
  (** the value the [n]-th call of the random generator returns when it is
      made as [random(lo, hi)]; [random(hi)] is [random(0, hi)] *)
  random : nat -> Z -> Z -> Z;
  (** the characters [Serial.print(v, 1)] writes for an [int] *)
  print_int : Z -> string;
  (** the characters [print(x)] writes for a [float] *)
  print_float : f32 -> string
}.

Inductive pin_mode := INPUT_PULLUP | OUTPUT.

(** The calls of the display driver that set up and write text. *)
Inductive text_call :=
| setTextSize (n : Z)
| setTextColor (c : Z)
| setCursor (x y : Z)
| cp437 (b : bool)
| display_print (s : string).

(** What [display.display()] sends to the panel: the pixels drawn and the
    text calls made since [display.clearDisplay()], newest first. *)
Record frame := {
  pixels : list (Z * Z * bool);
  captions : list text_call
}.

Record sketch := {
  globals : world;
  stroke_color : Z;
  fill_color : Z;
  (** [unsigned long]: 32 bits *)
  frame_number : Z;
  (** calls of the random generator so far *)
  random_calls : nat;
  (** characters written to [Serial] since the last end of line *)
  line : string;
  (** text calls since the last [display.clearDisplay()], newest first *)
  text_calls : list text_call;
  (** frames sent to the panel, newest first *)
  shown : list frame;
  (** [pinMode] calls, newest first *)
  pin_modes : list (Z * pin_mode);
  (** [Serial.begin] calls, newest first *)
  bauds : list Z
}.

Definition set_globals (w : world) (s : sketch) : sketch :=
  {| globals := w; stroke_color := stroke_color s;
     fill_color := fill_color s; frame_number := frame_number s;
     random_calls := random_calls s; line := line s;
     text_calls := text_calls s; shown := shown s;
     pin_modes := pin_modes s; bauds := bauds s |}.

Definition set_stroke_color (c : Z) (s : sketch) : sketch :=
  {| globals := globals s; stroke_color := c;
     fill_color := fill_color s; frame_number := frame_number s;
     random_calls := random_calls s; line := line s;
     text_calls := text_calls s; shown := shown s;
     pin_modes := pin_modes s; bauds := bauds s |}.

Definition set_fill_color (c : Z) (s : sketch) : sketch :=
  {| globals := globals s; stroke_color := stroke_color s;
     fill_color := c; frame_number := frame_number s;
     random_calls := random_calls s; line := line s;
     text_calls := text_calls s; shown := shown s;
     pin_modes := pin_modes s; bauds := bauds s |}.

Definition set_frame_number (n : Z) (s : sketch) : sketch :=
  {| globals := globals s; stroke_color := stroke_color s;
     fill_color := fill_color s; frame_number := n;
     random_calls := random_calls s; line := line s;
     text_calls := text_calls s; shown := shown s;
     pin_modes := pin_modes s; bauds := bauds s |}.

Definition set_random_calls (n : nat) (s : sketch) : sketch :=
  {| globals := globals s; stroke_color := stroke_color s;
     fill_color := fill_color s; frame_number := frame_number s;
     random_calls := n; line := line s;
     text_calls := text_calls s; shown := shown s;
     pin_modes := pin_modes s; bauds := bauds s |}.

Definition set_line (l : string) (s : sketch) : sketch :=
  {| globals := globals s; stroke_color := stroke_color s;
     fill_color := fill_color s; frame_number := frame_number s;
     random_calls := random_calls s; line := l;
     text_calls := text_calls s; shown := shown s;
     pin_modes := pin_modes s; bauds := bauds s |}.

Definition set_text_calls (l : list text_call) (s : sketch) : sketch :=
  {| globals := globals s; stroke_color := stroke_color s;
     fill_color := fill_color s; frame_number := frame_number s;
     random_calls := random_calls s; line := line s;
     text_calls := l; shown := shown s;
     pin_modes := pin_modes s; bauds := bauds s |}.

Definition set_shown (l : list frame) (s : sketch) : sketch :=
  {| globals := globals s; stroke_color := stroke_color s;
     fill_color := fill_color s; frame_number := frame_number s;
     random_calls := random_calls s; line := line s;
     text_calls := text_calls s; shown := l;
     pin_modes := pin_modes s; bauds := bauds s |}.

Definition pinMode (pin : Z) (m : pin_mode) (s : sketch) : sketch :=
  {| globals := globals s; stroke_color := stroke_color s;
     fill_color := fill_color s; frame_number := frame_number s;
     random_calls := random_calls s; line := line s;
     text_calls := text_calls s; shown := shown s;
     pin_modes := (pin, m) :: pin_modes s; bauds := bauds s |}.

Definition Serial_begin (baud : Z) (s : sketch) : sketch :=
  {| globals := globals s; stroke_color := stroke_color s;
     fill_color := fill_color s; frame_number := frame_number s;
     random_calls := random_calls s; line := line s;
     text_calls := text_calls s; shown := shown s;
     pin_modes := pin_modes s; bauds := baud :: bauds s |}.

(** A function of the first part, run on the globals it knows. *)
Definition on_globals (f : world -> world) (s : sketch) : sketch :=
  set_globals (f (globals s)) s.

Definition try_globals (f : world -> option world) (s : sketch)
    : option sketch :=
  match f (globals s) with
  | Some w => Some (set_globals w s)
  | None => None
  end.

(** [Serial.print(s)]: the characters join the current line. *)
Definition Serial_print (t : string) (s : sketch) : sketch :=
  set_line (line s ++ t) s.

(** [Serial.println(s)]: the line is complete. *)
Definition Serial_println_line (t : string) (s : sketch) : sketch :=
  set_line EmptyString (on_globals (Serial_println (line s ++ t)) s).

Definition text (c : text_call) (s : sketch) : sketch :=
  set_text_calls (c :: text_calls s) s.

(** [display.clearDisplay()]: no pixel and no text is left. *)
Definition set_display (d : list (Z * Z * bool)) (w : world) : world :=
  {| my_map := my_map w; player_x := player_x w; player_y := player_y w;
     player_bearing := player_bearing w; wall_textures := wall_textures w;
     display := d; seeds := seeds w; serial := serial w;
     tones := tones w; map_reads := map_reads w |}.

Definition clearDisplay (s : sketch) : sketch :=
  set_text_calls [] (on_globals (set_display []) s).

(** [display.display()]. *)
Definition display_display (s : sketch) : sketch :=
  set_shown ({| pixels := display (globals s); captions := text_calls s |}
               :: shown s) s.

(** *** Stores *)

Fixpoint list_set {A : Type} (n : nat) (v : A) (l : list A) : list A :=
  match l, n with
  | [], _ => []
  | _ :: l', O => v :: l'
  | a :: l', S n' => a :: list_set n' v l'
  end.

Definition set_cell (m : grid) (i j v : Z) : grid :=
  list_set (Z.to_nat i) (list_set (Z.to_nat j) v (nth (Z.to_nat i) m [])) m.

Definition set_map (m : grid) (w : world) : world :=
  {| my_map := m; player_x := player_x w; player_y := player_y w;
     player_bearing := player_bearing w; wall_textures := wall_textures w;
     display := display w; seeds := seeds w; serial := serial w;
     tones := tones w; map_reads := map_reads w |}.

(** The assignment [my_map[i][j] = v].  A store outside the array
    overwrites whatever lies there and C gives the program no meaning from
    then on: the model stops with [None]. *)
Definition store_map (i j v : Z) (w : world) : option world :=
  if in_map i j then Some (set_map (set_cell (my_map w) i j v) w) else None.

Definition in_textures (i x y : Z) : bool :=
  (0 <=? i) && (i <? NUM_WALL_TEXTURES) &&
  (0 <=? x) && (x <? WALL_TEXTURE_X_DIM) &&
  (0 <=? y) && (y <? WALL_TEXTURE_Y_DIM).

Definition set_wall_textures (t : Z -> Z -> Z -> Z) (w : world) : world :=
  {| my_map := my_map w; player_x := player_x w; player_y := player_y w;
     player_bearing := player_bearing w; wall_textures := t;
     display := display w; seeds := seeds w; serial := serial w;
     tones := tones w; map_reads := map_reads w |}.

(** The assignment [wall_textures[i][x][y] = c]. *)
Definition store_texture (i x y c : Z) (w : world) : option world :=
  if in_textures i x y then
    Some (set_wall_textures
            (fun i' x' y' =>
               if (i' =? i) && (x' =? x) && (y' =? y) then c
               else wall_textures w i' x' y') w)
  else None.

(** *** Counted loops *)

(** [n] rounds of a loop body from the counter value [i]; a round that
    does not return ends the loop. *)
Fixpoint rounds {St : Type} (n : nat) (i : Z)
    (body : Z -> St -> option St) (s : St) : option St :=
  match n with
  | O => Some s
  | S n' =>
      match body i s with
      | Some s1 => rounds n' (i + 1) body s1
      | None => None
      end
  end.

(** [for (int i = lo; i < hi; i++) body], for a body that does not assign
    [i]: the counter takes the values [lo], ..., [hi - 1], none if
    [hi <= lo], and [i++] stays below [hi], hence in the range of [int]. *)
Definition for_int {St : Type} (lo hi : Z)
    (body : Z -> St -> option St) (s : St) : option St :=
  rounds (Z.to_nat (hi - lo)) lo body s.

(** *** Buttons and pins *)

Definition RR_PIN_A : Z := 4.
Definition RR_PIN_B : Z := 5.
Definition RR_PIN_UP : Z := 6.
Definition RR_PIN_DOWN : Z := 7.
Definition RR_PIN_LEFT : Z := 8.
Definition RR_PIN_RIGHT : Z := 9.

Definition pin_left : Z := RR_PIN_A.
Definition pin_right : Z := RR_PIN_B.
Definition pin_forward : Z := RR_PIN_UP.
Definition pin_backward : Z := RR_PIN_DOWN.
Definition pin_strafe_left : Z := RR_PIN_LEFT.
Definition pin_strafe_right : Z := RR_PIN_RIGHT.

Definition map_block_dim : Z := 2.

Definition SSD1306_WHITE : Z := 1.

(** What one pass of [loop] reads from outside: the level of each pin
    ([digitalRead], 0 for LOW) and the clock ([millis], an
    [unsigned long]). *)
Record inputs := {
  digitalRead : Z -> Z;
  millis : Z
}.

Definition ULONG_SPAN : Z := 2 ^ 32.

(** The conversion of a [long] to [int]: the low 16 bits, signed. *)
Definition to_int16 (z : Z) : Z := (z - INT_MIN) mod 2 ^ 16 + INT_MIN.

(** Fuel of the row loop of a vertical [pete_line]: the rows of a line
    between two [int]s. *)
Definition LINE_FUEL : nat := Z.to_nat (INT_MAX - INT_MIN + 1).

Section More.

Variable P : platform.
Variable A : core.

(** *** Map generation *)

Definition clear_map (w : world) : option world :=
  for_int 0 MAP_Y_DIM
    (fun y => for_int 0 MAP_X_DIM (fun x => store_map x y 0)) w.

(** A call [random(lo, hi)]. *)
Definition call_random (lo hi : Z) (s : sketch) : Z * sketch :=
  (random A (random_calls s) lo hi,
   set_random_calls (S (random_calls s)) s).

Definition randomize_map (density : Z) (s : sketch) : option sketch :=
  match
    for_int 0 MAP_Y_DIM
      (fun y =>
         for_int 0 MAP_X_DIM
           (fun x s =>
              let '(r, s1) := call_random 0 100 s in
              if r <? density then try_globals (store_map x y 1) s1
              else try_globals (store_map x y 0) s1)) s
  with
  | Some s1 =>
      (* clear spot for player *)
      try_globals
        (store_map (to_int P (player_x (globals s1)))
                   (to_int P (player_y (globals s1))) 0) s1
  | None => None
  end.

Definition print_map (s : sketch) : option sketch :=
  for_int 0 MAP_Y_DIM
    (fun y s =>
       match
         for_int 0 MAP_X_DIM
           (fun x s =>
              let '(c, w1) := read_map P x y (globals s) in
              if negb (c =? 0) then
                let '(c', w2) := read_map P x y w1 in
                Some (Serial_print (print_int A c') (set_globals w2 s))
              else Some (Serial_print "." (set_globals w1 s))) s
       with
       | Some s1 => Some (Serial_println_line EmptyString s1)
       | None => None
       end) s.

Definition generate_wall_textures (s : sketch) : option sketch :=
  for_int 0 NUM_WALL_TEXTURES
    (fun i =>
       for_int 0 WALL_TEXTURE_Y_DIM
         (fun y =>
            for_int 0 WALL_TEXTURE_X_DIM
              (fun x s =>
                 let '(r, s1) := call_random 0 100 s in
                 let c := if r <? i * 5 then 1 else 0 in
                 try_globals (store_texture i x y c) s1))) s.

(** *** The overlay *)

Definition pete_rect (x1 y1 x2 y2 : Z) (s : sketch) : option sketch :=
  let c := fill_color s in
  for_int y1 y2
    (fun y =>
       for_int x1 x2 (fun x s => Some (on_globals (put_pixel x y c) s))) s.

(** The loop [for (float y = y_start; y < y_end; y++)] of a vertical
    [pete_line], entered at [y]. *)
Fixpoint line_rows (fuel : nat) (x y_end : f32) (c : Z) (y : f32)
    (s : sketch) : option sketch :=
  match fuel with
  | O => None
  | S fuel' =>
      if flt y y_end then
        line_rows fuel' x y_end c (fadd y (of_int 1))
          (on_globals (put_pixel (to_int P x) (to_int P y) c) s)
      else Some s
  end.

Definition pete_line (x1 y1 x2 y2 : Z) (s : sketch) : option sketch :=
  (* x2 must >= x1 *)
  let '(x1, y1, x2, y2) :=
    if x2 <? x1 then (x2, y2, x1, y1) else (x1, y1, x2, y2) in
  let c := stroke_color s in
  let x_dist := fsub (of_int x2) (of_int x1) in
  let y_dist := fsub (of_int y2) (of_int y1) in
  if negb (x1 =? x2) then
    let m := fdiv y_dist x_dist in
    let b := fsub (of_int y1) (fmul m (of_int x1)) in
    for_int x1 x2
      (fun x s =>
         let y := fadd (fmul m (of_int x)) b in
         Some (on_globals (put_pixel x (to_int P y) c) s)) s
  else
    let x := of_int x1 in
    let '(y_start, y_end) :=
      if y1 <? y2 then (of_int y1, of_int y2) else (of_int y2, of_int y1) in
    line_rows LINE_FUEL x y_end c y_start s.

Definition draw_map (s : sketch) : option sketch :=
  match
    for_int 0 MAP_Y_DIM
      (fun y =>
         for_int 0 MAP_X_DIM
           (fun x s =>
              let '(c, w1) := read_map P x y (globals s) in
              let x1 := x * map_block_dim in
              let y1 := y * map_block_dim in
              let x2 := (x + 1) * map_block_dim in
              let y2 := (y + 1) * map_block_dim in
              pete_rect x1 y1 x2 y2 (set_fill_color c (set_globals w1 s)))) s
  with
  | Some s1 =>
      (* show player pos on map *)
      let w := globals s1 in
      let display_player_x :=
        to_int P (fmul (player_x w) (of_int map_block_dim)) in
      let display_player_y :=
        to_int P (fmul (player_y w) (of_int map_block_dim)) in
      let c := 1 in
      let s2 := set_stroke_color c s1 in
      let look_dist := of_int 2 in
      let player_look_x :=
        fadd (of_int display_player_x)
          (fmul look_dist
                (cos P (fdiv (fmul (player_bearing w) PI) (of_int 180)))) in
      let player_look_y :=
        fadd (of_int display_player_y)
          (fmul look_dist
                (sin P (fdiv (fmul (player_bearing w) PI) (of_int 180)))) in
      match
        pete_line display_player_x display_player_y
          (to_int P player_look_x) (to_int P player_look_y) s2
      with
      | Some s3 =>
          Some (on_globals
                  (put_pixel display_player_x display_player_y c) s3)
      | None => None
      end
  | None => None
  end.

Definition draw_map_small (w : world) : option world :=
  for_int 0 MAP_Y_DIM
    (fun y =>
       for_int 0 MAP_X_DIM
         (fun x w =>
            let '(c, w1) := read_map P x y w in
            Some (put_pixel x y c w1))) w.

(** *** The frame loop *)

Definition display_frame_number (i : inputs) (s : sketch) : sketch :=
  let s := text (setTextSize 1) s in
  let s := text (setTextColor SSD1306_WHITE) s in
  let s := text (setCursor 30 0) s in
  let s := text (cp437 true) s in
  let fps :=
    fdiv (fadd (of_int (frame_number s)) (of_int 1))
         (fdiv (of_int (millis i)) (of_int 1000)) in
  let s := text (display_print "fps:") s in
  let s := text (display_print (print_float A fps)) s in
  let s := Serial_print "fps:" s in
  Serial_println_line (print_float A fps) s.

Definition move_randomly (s : sketch) : sketch :=
  let '(r, s1) := call_random 0 4 s in
  let r := to_int16 r in
  if r =? 0 then
    on_globals (turn_left player_turn_speed)
      (Serial_println_line "TURNING LEFT" s1)
  else if r =? 1 then
    on_globals (turn_right player_turn_speed)
      (Serial_println_line "TURNING RIGHT" s1)
  else if r =? 2 then
    on_globals (step_forward P player_walk_speed)
      (Serial_println_line "STEPPING FORWARD" s1)
  else if r =? 3 then
    on_globals (step_backward P player_walk_speed)
      (Serial_println_line "STEPPING BACKWARD" s1)
  else s1.

(** [setup]; [display_begin] is what [display.begin] returns.  When it is
    false [setup] never returns. *)
Definition setup (display_begin : bool) (s : sketch) : option sketch :=
  let s := Serial_begin 9600 s in
  if negb display_begin then None
  else
    let s := on_globals (randomSeed 1) s in
    let s := set_frame_number 0 s in
    match try_globals clear_map s with
    | Some s =>
        match randomize_map 17 s with
        | Some s =>
            match print_map s with
            | Some s =>
                let s := pinMode RR_PIN_A INPUT_PULLUP s in
                let s := pinMode RR_PIN_B INPUT_PULLUP s in
                let s := pinMode RR_PIN_UP INPUT_PULLUP s in
                let s := pinMode RR_PIN_DOWN INPUT_PULLUP s in
                let s := pinMode RR_PIN_LEFT INPUT_PULLUP s in
                let s := pinMode RR_PIN_RIGHT INPUT_PULLUP s in
                let s := pinMode RR_PIN_SOUND OUTPUT s in
                generate_wall_textures s
            | None => None
            end
        | None => None
        end
    | None => None
    end.

(** The statement [if (!digitalRead(pin)) move;]. *)
Definition when_pressed (i : inputs) (pin : Z) (move : world -> world)
    (s : sketch) : sketch :=
  if digitalRead i pin =? 0 then on_globals move s else s.

Definition loop (i : inputs) (s : sketch) : option sketch :=
  let s := clearDisplay s in
  match ray_cast P (globals s) with
  | Some (w, _) =>
      match draw_map (set_globals w s) with
      | Some s =>
          let s := display_frame_number i s in
          let s := display_display s in
          (* button control *)
          let s := when_pressed i pin_forward
                     (step_forward P player_walk_speed) s in
          let s := when_pressed i pin_backward
                     (step_backward P player_walk_speed) s in
          let s := when_pressed i pin_left (turn_left player_turn_speed) s in
          let s := when_pressed i pin_right
                     (turn_right player_turn_speed) s in
          let s := when_pressed i pin_strafe_left
                     (strafe_left P player_walk_speed) s in
          let s := when_pressed i pin_strafe_right
                     (strafe_right P player_walk_speed) s in
          Some (set_frame_number ((frame_number s + 1) mod ULONG_SPAN) s)
      | None => None
      end
  | None => None
  end.

(** [setup] once, then [loop] for each element of [frames]. *)
Fixpoint loops (frames : list inputs) (s : sketch) : option sketch :=
  match frames with
  | [] => Some s
  | i :: frames' =>
      match loop i s with
      | Some s1 => loops frames' s1
      | None => None
      end
  end.

Definition run (display_begin : bool) (frames : list inputs) (s : sketch)
    : option sketch :=
  match setup display_begin s with
  | Some s1 => loops frames s1
  | None => None
  end.

End More.

(** The sketch at power-up: the initialisers of the globals, the arrays
    zeroed. *)
Definition power_up : sketch :=
  {| globals :=
       {| my_map := Ref.empty_map;
          player_x := fadd (fdiv (of_int MAP_X_DIM) (of_int 2))
                           (fdiv (of_int 1) (of_int 2));
          player_y := fadd (fdiv (of_int MAP_Y_DIM) (of_int 2))
                           (fdiv (of_int 1) (of_int 2));
          player_bearing := of_int 270;
          wall_textures := fun _ _ _ => 0;
          display := []; seeds := []; serial := []; tones := [];
          map_reads := [] |};
     stroke_color := 1; fill_color := 1; frame_number := 0;
     random_calls := O; line := EmptyString; text_calls := [];
     shown := []; pin_modes := []; bauds := [] |}.

(** *** Vocabulary of the statements about the rest of the sketch *)

(** The player stands strictly inside the map, in an empty cell. *)
Definition well_placed (w : world) : Prop :=
  inside_map w /\
  cell (my_map w) (trunc (player_x w)) (trunc (player_y w)) = 0.

(** The grid has the dimensions of [my_map]. *)
Definition shaped (m : grid) : Prop :=
  List.length m = Z.to_nat MAP_X_DIM /\
  Forall (fun col => List.length col = Z.to_nat MAP_Y_DIM) m.

(** Position of cell (x, y) in the order in which the generation loops
    visit the cells: row by row. *)
Definition cell_rank (x y : Z) : nat := Z.to_nat (MAP_X_DIM * y + x).

(** What [randomize_map] leaves in cell (x, y) when the generator has been
    called [k] times before: the player's cell is empty, another cell is a
    wall when its random number is below the density. *)
Definition generated_cell (A : core) (k : nat) (density px py x y : Z) : Z :=
  if (x =? px) && (y =? py) then 0
  else if random A (k + cell_rank x y) 0 100 <? density then 1 else 0.

(** The contract of the generator: [random(lo, hi)] lies in [lo, hi). *)
Definition random_in_range (A : core) : Prop :=
  forall n lo hi, lo < hi -> lo <= random A n lo hi < hi.

(** The sketch [s] with another map and another count of random calls. *)
Definition remapped (m : grid) (k : nat) (s : sketch) : sketch :=
  set_random_calls k (set_globals (set_map m (globals s)) s).

(** The value the cell loop of [randomize_map] stores in cell (x, y). *)
Definition drawn_cell (A : core) (k : nat) (density x y : Z) : Z :=
  if random A (k + cell_rank x y) 0 100 <? density then 1 else 0.

(** Position of the entry (i, x, y) in the order in which
    [generate_wall_textures] visits the entries. *)
Definition texture_rank (i x y : Z) : nat :=
  Z.to_nat (WALL_TEXTURE_X_DIM * WALL_TEXTURE_Y_DIM * i +
            WALL_TEXTURE_X_DIM * y + x).

(** What [generate_wall_textures] stores in the entry (i, x, y) when the
    generator has been called [k] times before. *)
Definition generated_texel (A : core) (k : nat) (i x y : Z) : Z :=
  if random A (k + texture_rank i x y) 0 100 <? i * 5 then 1 else 0.

(** The sketch [s] with other textures and another count of random
    calls. *)
Definition retextured (t : Z -> Z -> Z -> Z) (k : nat) (s : sketch)
    : sketch :=
  set_random_calls k (set_globals (set_wall_textures t (globals s)) s).

(** The textures of [s'] after [n] entries have been generated. *)
Definition textures_upto (A : core) (s : sketch) (n : nat) (s' : sketch)
    : Prop :=
  s' = retextured (wall_textures (globals s')) (random_calls s + n) s /\
  forall i x y,
    wall_textures (globals s') i x y =
      if in_textures i x y && (texture_rank i x y <? n)%nat
      then generated_texel A (random_calls s) i x y
      else wall_textures (globals s) i x y.

(** The texture [render_sliver] uses at the wall height 2k:
    floor(2k / 64 * 20), at most 19. *)
Definition texture_index (k : nat) : Z :=
  Z.min (NUM_WALL_TEXTURES - 1) (5 * Z.of_nat k / 8).

(** The pixels of a sliver of wall height 2k in column [x], newest first:
    the two ends of the wall, white, then the rows between them from the
    top down, each with the colour of its texture entry. *)
Definition sliver_pixels (t : Z -> Z -> Z -> Z) (x : Z) (k : nat)
    : list (Z * Z * bool) :=
  rev (map (fun y =>
              (x, y,
               t (texture_index k) (Z.rem x WALL_TEXTURE_X_DIM)
                 (Z.rem y WALL_TEXTURE_Y_DIM) >? 0))
           (zrange (screen_height / 2 - Z.of_nat k + 1)
                   (2 * k - 1))) ++
  [(x, screen_height / 2 + Z.of_nat k, true);
   (x, screen_height / 2 - Z.of_nat k, true)].

(** Number of rounds of the row loop of [render_sliver] entered at [y]. *)
Fixpoint rows_count (fuel : nat) (bound : f32) (y : Z) : option nat :=
  match fuel with
  | O => None
  | S fuel' =>
      if fle (of_int y) bound then
        match rows_count fuel' bound (y + 1) with
        | Some n => Some (S n)
        | None => None
        end
      else Some O
  end.

(** The casts and the loop of [render_sliver] at the wall height 2k give
    the rows and the texture of [sliver_pixels]. *)
Definition sliver_ok (k : nat) : bool :=
  let h := hgt k in
  let screen_middle_y := fdiv (of_int screen_height) (of_int 2) in
  let half_wall_height := fdiv h (of_int 2) in
  let top := fsub screen_middle_y half_wall_height in
  let bottom := fadd screen_middle_y half_wall_height in
  let first := fadd top (of_int 1) in
  let wi := fmul (fdiv h (of_int screen_height)) (of_int NUM_WALL_TEXTURES) in
  int_defined top && (trunc top =? screen_height / 2 - Z.of_nat k) &&
  int_defined bottom && (trunc bottom =? screen_height / 2 + Z.of_nat k) &&
  int_defined first && (trunc first =? screen_height / 2 - Z.of_nat k + 1) &&
  match rows_count RENDER_FUEL (fsub bottom (of_int 1)) (trunc first) with
  | Some n => Nat.eqb n (2 * k - 1)
  | None => false
  end &&
  int_defined wi &&
  ((if trunc wi >? NUM_WALL_TEXTURES - 1 then NUM_WALL_TEXTURES - 1
    else trunc wi) =? texture_index k).

(** The [k] of a wall height 2k. *)
Definition height_index (h : f32) : nat := Z.to_nat (trunc h / 2).

(** The pixels [ray_cast] draws for a column, from what its scan
    reported. *)
Definition column_pixels (t : Z -> Z -> Z -> Z) (ic : Z * column)
    : list (Z * Z * bool) :=
  if col_hit (snd ic)
  then sliver_pixels t (fst ic) (height_index (col_wall_height (snd ic)))
  else [].

(** The pixel lies in a column of the screen, on a row of the screen or
    on the row just below the last one. *)
Definition near_screen (p : Z * Z * bool) : Prop :=
  0 <= fst (fst p) < SCREEN_WIDTH /\ 0 <= snd (fst p) <= SCREEN_HEIGHT.

(** [s] with the pixels [l] drawn, newest first. *)
Definition paint (l : list (Z * Z * bool)) (s : sketch) : sketch :=
  on_globals (fun w => set_display (l ++ display w) w) s.

(** The pixels of [pete_rect], newest first: the rows [y1 <= y < y2] in
    order, each from [x1] to [x2 - 1], in the colour [c]. *)
Definition rect_pixels (c x1 y1 x2 y2 : Z) : list (Z * Z * bool) :=
  flat_map (fun y =>
              flat_map (fun x => [(x, y, c >? 0)])
                       (rev (zrange x1 (Z.to_nat (x2 - x1)))))
           (rev (zrange y1 (Z.to_nat (y2 - y1)))).

(** The pixels of [pete_line], newest first. *)
Definition line_pixels (P : platform) (c x1 y1 x2 y2 : Z)
    : list (Z * Z * bool) :=
  let '(xa, ya, xb, yb) :=
    if x2 <? x1 then (x2, y2, x1, y1) else (x1, y1, x2, y2) in
  if xa =? xb then
    flat_map (fun y => [(xa, y, c >? 0)])
             (rev (zrange (Z.min ya yb) (Z.to_nat (Z.abs (yb - ya)))))
  else
    let m := fdiv (fsub (of_int yb) (of_int ya))
                  (fsub (of_int xb) (of_int xa)) in
    let b := fsub (of_int ya) (fmul m (of_int xa)) in
    flat_map (fun x => [(x, to_int P (fadd (fmul m (of_int x)) b), c >? 0)])
             (rev (zrange xa (Z.to_nat (xb - xa)))).

(** The value is in the range of [int]. *)
Definition is_int (z : Z) : Prop := INT_MIN <= z <= INT_MAX.

(** An order-preserving integer code of the finite floats: exponent, then
    mantissa, with the sign. *)
Definition rank (x : f32) : Z :=
  match x with
  | S754_finite s m e =>
      let r := (e + 150) * 2 ^ 24 + Zpos m in if s then - r else r
  | _ => 0
  end.

(** [f] holds of the [n] integers from [a] on. *)
Fixpoint all_from (n : nat) (a : Z) (f : Z -> bool) : bool :=
  match n with
  | O => true
  | S n' => f a && all_from n' (a + 1) f
  end.

(** What the vertical [pete_line] needs of the float of an [int]: the
    conversion is exact, one more is the float of the next integer, and
    the floats of the integers are in order. *)
Definition int_float_ok (a : Z) : bool :=
  let x := of_int a in
  let x' := of_int (a + 1) in
  valid x && is_finite x && valid x' && is_finite x' &&
  (rank x <? rank x') &&
  int_defined x && (trunc x =? a) &&
  same_float (fadd x (of_int 1)) x'.

(** [w] with other recorded subscripts. *)
Definition set_map_reads (r : list (Z * Z)) (w : world) : world :=
  {| my_map := my_map w; player_x := player_x w; player_y := player_y w;
     player_bearing := player_bearing w; wall_textures := wall_textures w;
     display := display w; seeds := seeds w; serial := serial w;
     tones := tones w; map_reads := r |}.

(** [w] with the pixels [px] drawn and the subscripts [rd] recorded,
    newest first. *)
Definition visited (px : list (Z * Z * bool)) (rd : list (Z * Z))
    (w : world) : world :=
  set_map_reads (rd ++ map_reads w) (set_display (px ++ display w) w).

(** [s] after [fill_color] was assigned the values [fs], the pixels [px]
    were drawn and the subscripts [rd] recorded, all newest first. *)
Definition traced (fs : list Z) (px : list (Z * Z * bool))
    (rd : list (Z * Z)) (s : sketch) : sketch :=
  set_fill_color (hd (fill_color s) fs) (on_globals (visited px rd) s).

(** The cells of the map in the order the loops visit them, last first. *)
Definition cells_backward : list (Z * Z) :=
  flat_map (fun y => map (fun x => (x, y))
                         (rev (zrange 0 (Z.to_nat MAP_X_DIM))))
           (rev (zrange 0 (Z.to_nat MAP_Y_DIM))).

(** The pixels of the map overlay of [draw_map], newest first: a block of
    [map_block_dim] by [map_block_dim] pixels for each cell. *)
Definition overlay_pixels (m : grid) : list (Z * Z * bool) :=
  flat_map (fun xy =>
              rect_pixels (cell m (fst xy) (snd xy))
                (fst xy * map_block_dim) (snd xy * map_block_dim)
                ((fst xy + 1) * map_block_dim)
                ((snd xy + 1) * map_block_dim))
           cells_backward.

(** The pixels of [draw_map_small], newest first: one per cell. *)
Definition small_pixels (m : grid) : list (Z * Z * bool) :=
  map (fun xy => (fst xy, snd xy, cell m (fst xy) (snd xy) >? 0))
      cells_backward.

(** Every value a cast leaves undefined is still an [int]. *)
Definition int_casts (P : platform) : Prop :=
  forall x, is_int (cast_undef P x).

(** Where [draw_map] puts the player on the overlay. *)
Definition marker_x (P : platform) (w : world) : Z :=
  to_int P (fmul (player_x w) (of_int map_block_dim)).

Definition marker_y (P : platform) (w : world) : Z :=
  to_int P (fmul (player_y w) (of_int map_block_dim)).

(** The far end of the line of sight [draw_map] draws from the marker. *)
Definition look_x (P : platform) (w : world) : Z :=
  to_int P (fadd (of_int (marker_x P w))
              (fmul (of_int 2) (cos P (to_radians (player_bearing w))))).

Definition look_y (P : platform) (w : world) : Z :=
  to_int P (fadd (of_int (marker_y P w))
              (fmul (of_int 2) (sin P (to_radians (player_bearing w))))).

(** The pixels [draw_map] draws, newest first: the player's marker, the
    line of sight, the overlay. *)
Definition map_pixels (P : platform) (w : world) : list (Z * Z * bool) :=
  ((marker_x P w, marker_y P w, true) ::
   line_pixels P 1 (marker_x P w) (marker_y P w) (look_x P w) (look_y P w))
  ++ overlay_pixels (my_map w).

(** No two elements of the list are equal. *)
Fixpoint distinct_pairs (l : list (Z * Z)) : bool :=
  match l with
  | [] => true
  | a :: l' =>
      negb (existsb (fun b => (fst a =? fst b) && (snd a =? snd b)) l') &&
      distinct_pairs l'
  end.

(** [w] with other lines on [Serial]. *)
Definition set_serial (l : list string) (w : world) : world :=
  {| my_map := my_map w; player_x := player_x w; player_y := player_y w;
     player_bearing := player_bearing w; wall_textures := wall_textures w;
     display := display w; seeds := seeds w; serial := l;
     tones := tones w; map_reads := map_reads w |}.

(** [s] with another current line, other lines on [Serial] and other
    recorded subscripts. *)
Definition written (l : string) (ser : list string) (rd : list (Z * Z))
    (s : sketch) : sketch :=
  set_line l (set_globals (set_serial ser (set_map_reads rd (globals s))) s).

(** What [print_map] writes for a cell. *)
Definition cell_text (A : core) (c : Z) : string :=
  if c =? 0 then "."%string else print_int A c.

(** The line [print_map] completes for row [y], begun with [start]. *)
Definition row_text (A : core) (m : grid) (start : string) (y : Z)
    : string :=
  fold_left (fun acc x => (acc ++ cell_text A (cell m x y))%string)
            (zrange 0 (Z.to_nat MAP_X_DIM)) start.

(** The lines of [print_map], newest first, when the current line held
    [start]. *)
Definition map_text (A : core) (m : grid) (start : string) : list string :=
  rev (map (fun y => row_text A m (if y =? 0 then start else EmptyString) y)
           (zrange 0 (Z.to_nat MAP_Y_DIM))).

(** The statement [if (!digitalRead(pin)) move;] on the globals. *)
Definition press (i : inputs) (pin : Z) (move : world -> world)
    (w : world) : world :=
  if digitalRead i pin =? 0 then move w else w.

(** The six button statements of [loop], in their order. *)
Definition button_control (P : platform) (i : inputs) (w : world) : world :=
  let w := press i pin_forward (step_forward P player_walk_speed) w in
  let w := press i pin_backward (step_backward P player_walk_speed) w in
  let w := press i pin_left (turn_left player_turn_speed) w in
  let w := press i pin_right (turn_right player_turn_speed) w in
  let w := press i pin_strafe_left (strafe_left P player_walk_speed) w in
  press i pin_strafe_right (strafe_right P player_walk_speed) w.

(** The text calls of [display_frame_number], newest first. *)
Definition fps_caption (A : core) (i : inputs) (n : Z) : list text_call :=
  let fps := fdiv (fadd (of_int n) (of_int 1))
                  (fdiv (of_int (millis i)) (of_int 1000)) in
  [display_print (print_float A fps); display_print "fps:"; cp437 true;
   setCursor 30 0; setTextColor SSD1306_WHITE; setTextSize 1].

(** The [pinMode] calls of [setup], newest first. *)
Definition setup_pins : list (Z * pin_mode) :=
  [(RR_PIN_SOUND, OUTPUT); (RR_PIN_RIGHT, INPUT_PULLUP);
   (RR_PIN_LEFT, INPUT_PULLUP); (RR_PIN_DOWN, INPUT_PULLUP);
   (RR_PIN_UP, INPUT_PULLUP); (RR_PIN_B, INPUT_PULLUP);
   (RR_PIN_A, INPUT_PULLUP)].

(** A core for concrete runs: a generator that walks through the range in
    steps of 7919, and a [print] that writes a question mark for every
    number but 1. *)
Definition ref_core : core :=
  {| random := fun n lo hi =>
       if lo <? hi then lo + (Z.of_nat n * 7919 + 13) mod (hi - lo) else lo;
     print_int := fun z => if z =? 1 then "1"%string else "?"%string;
     print_float := fun _ => "?"%string |}.

(** One pass of [loop] with the forward button held down, 40 ms after
    power-up. *)
Definition forward_held : inputs :=
  {| digitalRead := fun pin => if pin =? pin_forward then 0 else 1;
     millis := 40 |}.

(** The composition of the three calls of [strafe_right], by hand. *)
Definition turn_step_turn_back_right (P : platform) (d : f32) (w : world)
    : world :=
  let w1 := turn_right (of_int 90) w in
  let w2 := step_forward P d w1 in
  turn_left (of_int 90) w2.

(** The colour of the newest [drawPixel] call at (x, y) in a list of
    calls, newest first, if there is one. *)
Fixpoint pixel_at (d : list (Z * Z * bool)) (x y : Z) : option bool :=
  match d with
  | [] => None
  | (x', y', c) :: d' =>
      if (x' =? x) && (y' =? y) then Some c else pixel_at d' x y
  end.

(** What a sliver of wall height 2k in column [x] shows on row [y]: white
    at its two ends, the texture between them, nothing elsewhere. *)
Definition sliver_at (t : Z -> Z -> Z -> Z) (x : Z) (k : nat) (y : Z)
    : option bool :=
  let top := screen_height / 2 - Z.of_nat k in
  let bottom := screen_height / 2 + Z.of_nat k in
  if (top <=? y) && (y <=? bottom) then
    Some ((y =? top) || (y =? bottom) ||
          (t (texture_index k) (Z.rem x WALL_TEXTURE_X_DIM)
             (Z.rem y WALL_TEXTURE_Y_DIM) >? 0))
  else None.

(** What the scan result [c] of column [x] shows on row [y]. *)
Definition column_at (t : Z -> Z -> Z -> Z) (x : Z) (c : column) (y : Z)
    : option bool :=
  if col_hit c then sliver_at t x (height_index (col_wall_height c)) y
  else None.

(** ** Facts about binary32 rounding

    What the proofs below need of [spec_float]'s rounding: the mantissa and
    exponent [shr_fexp] returns, that rounding a positive mantissa gives a
    float of the same sign whose exponent is at least the canonical one,
    and that sums and products of valid floats are valid. *)

Lemma fx_eq (v : Z) : fx v = Z.max (v - 24) (-149).
Proof. reflexivity. Qed.

Lemma digits2_size (p : positive) : digits2_pos p = Pos.size p.
Proof. induction p; simpl; congruence. Qed.

Lemma digits_log2 (p : positive) :
  Zpos (digits2_pos p) = Z.log2 (Zpos p) + 1.
Proof. rewrite digits2_size. destruct p; simpl; lia. Qed.

Lemma Zdigits2_log2 (m : Z) : 0 < m -> Zdigits2 m = Z.log2 m + 1.
Proof. destruct m; try lia. intros _. apply digits_log2. Qed.

Lemma Zdigits2_nonneg (m : Z) : 0 <= Zdigits2 m.
Proof. destruct m; simpl; lia. Qed.

Lemma Zdigits2_mono (a b : Z) : 0 <= a <= b -> Zdigits2 a <= Zdigits2 b.
Proof.
  intros H. destruct (Z.eq_dec a 0) as [->|Ha]; [apply Zdigits2_nonneg|].
  rewrite !Zdigits2_log2 by lia.
  pose proof (Z.log2_le_mono a b). lia.
Qed.

Lemma Zdigits2_shiftr (m k : Z) :
  0 <= m -> 0 <= k -> Zdigits2 (m / 2 ^ k) = Z.max 0 (Zdigits2 m - k).
Proof.
  intros Hm Hk.
  destruct (Z.eq_dec m 0) as [->|Hm0].
  { rewrite Z.div_0_l by (apply Z.pow_nonzero; lia). simpl. lia. }
  assert (H2 : 0 < 2 ^ k) by (apply Z.pow_pos_nonneg; lia).
  destruct (Z.eq_dec (m / 2 ^ k) 0) as [Hq|Hq].
  - rewrite Hq. simpl. rewrite Zdigits2_log2 by lia.
    apply Z.div_small_iff in Hq; [|lia].
    destruct Hq as [Hq|Hq]; [|lia].
    assert (Z.log2 m < k) by (apply Z.log2_lt_pow2; lia). lia.
  - assert (Hq1 : 0 < m / 2 ^ k).
    { pose proof (Z.div_pos m (2 ^ k)). lia. }
    rewrite !Zdigits2_log2 by lia.
    rewrite <- Z.shiftr_div_pow2 by lia.
    rewrite Z.log2_shiftr by lia.
    assert (2 ^ k <= m).
    { destruct (Z.lt_ge_cases m (2 ^ k)) as [Hlt|]; [|assumption].
      rewrite Z.div_small in Hq by lia. lia. }
    assert (k <= Z.log2 m) by (apply Z.log2_le_pow2; lia). lia.
Qed.

Lemma shr_1_m (mrs : shr_record) :
  0 <= shr_m mrs -> shr_m (shr_1 mrs) = shr_m mrs / 2.
Proof.
  destruct mrs as [m r s]. cbn [shr_m]. intros Hm.
  destruct m as [|p|p]; [reflexivity| |lia].
  destruct p; cbn [shr_1 shr_m].
  - rewrite Pos2Z.inj_xI. apply Z.div_unique with (r := 1); lia.
  - rewrite Pos2Z.inj_xO. apply Z.div_unique with (r := 0); lia.
  - reflexivity.
Qed.

Lemma iter_shr_m (p : positive) :
  forall mrs, 0 <= shr_m mrs ->
  shr_m (iter_pos shr_1 p mrs) = shr_m mrs / 2 ^ Zpos p.
Proof.
  induction p as [p IH|p IH|]; intros mrs Hm; cbn [iter_pos].
  - assert (H1 : 0 <= shr_m (shr_1 mrs)).
    { rewrite shr_1_m by assumption. apply Z.div_pos; lia. }
    assert (H2 : 0 <= shr_m (iter_pos shr_1 p (shr_1 mrs))).
    { rewrite IH by assumption. apply Z.div_pos; [lia|].
      apply Z.pow_pos_nonneg; lia. }
    rewrite IH, IH, shr_1_m by assumption.
    assert (0 < 2 ^ Zpos p) by (apply Z.pow_pos_nonneg; lia).
    rewrite !Z.div_div by lia. f_equal.
    replace (Z.pos p~1) with (1 + Z.pos p + Z.pos p) by lia.
    rewrite !Z.pow_add_r by lia. change (2 ^ 1) with 2. lia.
  - assert (H2 : 0 <= shr_m (iter_pos shr_1 p mrs)).
    { rewrite IH by assumption. apply Z.div_pos; [lia|].
      apply Z.pow_pos_nonneg; lia. }
    rewrite IH, IH by assumption.
    assert (0 < 2 ^ Zpos p) by (apply Z.pow_pos_nonneg; lia).
    rewrite !Z.div_div by lia. f_equal.
    replace (Z.pos p~0) with (Z.pos p + Z.pos p) by lia.
    rewrite Z.pow_add_r by lia. reflexivity.
  - rewrite shr_1_m by assumption. reflexivity.
Qed.

Lemma shr_record_of_loc_m (m : Z) (l : location) :
  shr_m (shr_record_of_loc m l) = m.
Proof. destruct l as [|[ | | ]]; reflexivity. Qed.

(** The mantissa and exponent [shr_fexp] returns. *)
Lemma shr_fexp_spec (m e : Z) (l : location) :
  0 <= m ->
  let k := Z.max 0 (fx (Zdigits2 m + e) - e) in
  shr_m (fst (shr_fexp prec emax m e l)) = m / 2 ^ k /\
  snd (shr_fexp prec emax m e l) = e + k.
Proof.
  intros Hm k. unfold shr_fexp, shr. fold (fx (Zdigits2 m + e)).
  subst k. destruct (fx (Zdigits2 m + e) - e) as [|p|p] eqn:E; cbn [fst snd].
  - rewrite shr_record_of_loc_m. cbn. rewrite Z.div_1_r. lia.
  - rewrite iter_shr_m by (rewrite shr_record_of_loc_m; assumption).
    rewrite shr_record_of_loc_m.
    replace (Z.max 0 (Zpos p)) with (Zpos p) by lia. split; reflexivity.
  - rewrite shr_record_of_loc_m.
    replace (Z.max 0 (Zneg p)) with 0 by lia. cbn. rewrite Z.div_1_r. lia.
Qed.

Lemma round_nearest_even_bounds (m : Z) (l : location) :
  m <= round_nearest_even m l <= m + 1.
Proof.
  destruct l as [|[ | | ]]; cbn [round_nearest_even]; try lia.
  destruct (Z.even m); lia.
Qed.

(** After [shr_fexp], from an exponent that is not above the canonical
    one, mantissa and exponent are canonical. *)
Lemma shr_fexp_canonical (m e : Z) (l : location) :
  0 <= m -> e <= fx (Zdigits2 m + e) ->
  let m' := shr_m (fst (shr_fexp prec emax m e l)) in
  let e' := snd (shr_fexp prec emax m e l) in
  0 <= m' /\ e' = fx (Zdigits2 m + e) /\ fx (Zdigits2 m' + e') = e'.
Proof.
  intros Hm He. destruct (shr_fexp_spec m e l Hm) as [E1 E2].
  cbv zeta in *. rewrite E1, E2.
  set (k := Z.max 0 (fx (Zdigits2 m + e) - e)) in *.
  assert (Hk : k = fx (Zdigits2 m + e) - e) by lia.
  assert (0 < 2 ^ k) by (apply Z.pow_pos_nonneg; lia).
  split; [apply Z.div_pos; lia|]. split; [lia|].
  rewrite Zdigits2_shiftr by lia.
  pose proof (Zdigits2_nonneg m). rewrite !fx_eq in *. lia.
Qed.

(** Any mantissa at least 1 keeps a mantissa at least 1, and the exponent
    does not go down. *)
Lemma shr_fexp_positive (m e : Z) (l : location) :
  1 <= m -> -149 <= e ->
  1 <= shr_m (fst (shr_fexp prec emax m e l)) /\
  e <= snd (shr_fexp prec emax m e l) /\
  fx (Zdigits2 m + e) <= snd (shr_fexp prec emax m e l).
Proof.
  intros Hm He. destruct (shr_fexp_spec m e l ltac:(lia)) as [E1 E2].
  cbv zeta in *. rewrite E1, E2.
  set (k := Z.max 0 (fx (Zdigits2 m + e) - e)) in *.
  split; [|lia].
  assert (Hd : k < Zdigits2 m).
  { rewrite Zdigits2_log2 by lia. pose proof (Z.log2_nonneg m).
    subst k. rewrite fx_eq, Zdigits2_log2 by lia. lia. }
  rewrite Zdigits2_log2 in Hd by lia.
  assert (2 ^ k <= m).
  { apply Z.le_trans with (2 ^ Z.log2 m).
    - apply Z.pow_le_mono_r; lia.
    - apply Z.log2_spec. lia. }
  assert (0 < 2 ^ k) by (apply Z.pow_pos_nonneg; lia).
  apply Z.div_le_lower_bound; lia.
Qed.

Lemma bra_valid (s : bool) (m e : Z) (l : location) :
  0 <= m -> e <= fx (Zdigits2 m + e) ->
  valid (binary_round_aux prec emax s m e l) = true.
Proof.
  intros Hm He. unfold binary_round_aux.
  pose proof (shr_fexp_canonical m e l Hm He) as H1. cbv zeta in H1.
  destruct (shr_fexp prec emax m e l) as [mrs1 e1]. cbn [fst snd] in H1.
  destruct H1 as (Hm1 & _ & Hc1).
  pose proof (round_nearest_even_bounds (shr_m mrs1) (loc_of_shr_record mrs1))
    as Hr.
  set (mr := round_nearest_even (shr_m mrs1) (loc_of_shr_record mrs1)) in *.
  assert (Hmr : 0 <= mr) by lia.
  assert (He1 : e1 <= fx (Zdigits2 mr + e1)).
  { pose proof (Zdigits2_mono (shr_m mrs1) mr ltac:(lia)).
    rewrite !fx_eq in *. lia. }
  pose proof (shr_fexp_canonical mr e1 loc_Exact Hmr He1) as H2.
  cbv zeta in H2.
  destruct (shr_fexp prec emax mr e1 loc_Exact) as [mrs2 e2].
  cbn [fst snd] in H2. destruct H2 as (Hm2 & _ & Hc2).
  destruct (shr_m mrs2) as [|p|p]; [reflexivity| |reflexivity].
  destruct (e2 <=? emax - prec) eqn:Eb; [|reflexivity].
  unfold valid, valid_binary, bounded, canonical_mantissa.
  rewrite Eb, andb_true_r. apply Z.eqb_eq. exact Hc2.
Qed.

Lemma bra_positive (s : bool) (m e : Z) (l : location) :
  1 <= m -> -149 <= e ->
  binary_round_aux prec emax s m e l = S754_infinity s \/
  exists m' e', binary_round_aux prec emax s m e l = S754_finite s m' e' /\
                fx (Zdigits2 m + e) <= e' /\ e <= e'.
Proof.
  intros Hm He. unfold binary_round_aux.
  pose proof (shr_fexp_positive m e l Hm He) as H1.
  destruct (shr_fexp prec emax m e l) as [mrs1 e1]. cbn [fst snd] in H1.
  destruct H1 as (Hm1 & He1 & Hf1).
  pose proof (round_nearest_even_bounds (shr_m mrs1) (loc_of_shr_record mrs1))
    as Hr.
  set (mr := round_nearest_even (shr_m mrs1) (loc_of_shr_record mrs1)) in *.
  pose proof (shr_fexp_positive mr e1 loc_Exact ltac:(lia) ltac:(lia)) as H2.
  destruct (shr_fexp prec emax mr e1 loc_Exact) as [mrs2 e2].
  cbn [fst snd] in H2. destruct H2 as (Hm2 & He2 & _).
  destruct (shr_m mrs2) as [|p|p]; [lia| |lia].
  destruct (e2 <=? emax - prec); [right|left; reflexivity].
  exists p, e2. split; [reflexivity|]. lia.
Qed.

(** The aligned mantissa of [shl_align]. *)
Lemma iter_xO_pow (m d : positive) :
  Zpos (Pos.iter xO m d) = Zpos m * 2 ^ Zpos d.
Proof.
  induction d as [|d IH] using Pos.peano_ind.
  - cbn [Pos.iter]. change (2 ^ 1) with 2. lia.
  - rewrite Pos.iter_succ, Pos2Z.inj_xO, IH, Pos2Z.inj_succ, Z.pow_succ_r by lia.
    lia.
Qed.

Lemma shl_align_spec (m : positive) (e e' : Z) :
  let k := Z.max 0 (e - e') in
  Zpos (fst (shl_align m e e')) = Zpos m * 2 ^ k /\
  snd (shl_align m e e') = e - k.
Proof.
  unfold shl_align. destruct (e' - e) as [|p|p] eqn:E; cbn [fst snd].
  - replace (Z.max 0 (e - e')) with 0 by lia. cbn. lia.
  - replace (Z.max 0 (e - e')) with 0 by lia. cbn. lia.
  - replace (Z.max 0 (e - e')) with (Zpos p) by lia.
    rewrite iter_xO_pow. lia.
Qed.

Lemma Zdigits2_shiftl (m k : Z) :
  0 < m -> 0 <= k -> Zdigits2 (m * 2 ^ k) = Zdigits2 m + k.
Proof.
  intros Hm Hk. assert (0 < 2 ^ k) by (apply Z.pow_pos_nonneg; lia).
  rewrite !Zdigits2_log2 by lia.
  rewrite <- Z.shiftl_mul_pow2, Z.log2_shiftl by lia. lia.
Qed.

Lemma binary_round_valid (s : bool) (m : positive) (e : Z) :
  valid (binary_round prec emax s m e) = true.
Proof.
  unfold binary_round.
  destruct (shl_align_spec m e (fexp prec emax (Zpos (digits2_pos m) + e)))
    as [E1 E2]. cbv zeta in *.
  destruct (shl_align m e (fexp prec emax (Z.pos (digits2_pos m) + e)))
    as [mz ez]. cbn [fst snd] in *.
  apply bra_valid; [lia|].
  change (Zdigits2 (Zpos mz)) with (Zdigits2 (Zpos mz)).
  rewrite E1, Zdigits2_shiftl by lia. subst ez.
  change (Zdigits2 (Zpos m)) with (Zpos (digits2_pos m)).
  fold (fx (Zpos (digits2_pos m) + e)).
  rewrite !fx_eq. lia.
Qed.

Lemma binary_round_positive (s : bool) (m : positive) (e : Z) :
  -149 <= e ->
  binary_round prec emax s m e = S754_infinity s \/
  exists m' e', binary_round prec emax s m e = S754_finite s m' e' /\
                fx (Zdigits2 (Zpos m) + e) <= e'.
Proof.
  intros He. unfold binary_round.
  destruct (shl_align_spec m e (fexp prec emax (Zpos (digits2_pos m) + e)))
    as [E1 E2]. cbv zeta in *.
  destruct (shl_align m e (fexp prec emax (Z.pos (digits2_pos m) + e)))
    as [mz ez]. cbn [fst snd] in *.
  fold (fx (Zpos (digits2_pos m) + e)) in *.
  assert (Hez : -149 <= ez) by (rewrite fx_eq in *; lia).
  destruct (bra_positive s (Zpos mz) ez loc_Exact ltac:(lia) Hez)
    as [Hi|(m' & e' & Hf & Hx & _)]; [now left|right].
  exists m', e'. split; [exact Hf|].
  rewrite E1, Zdigits2_shiftl in Hx by lia. subst ez.
  change (Zdigits2 (Zpos m)) with (Zpos (digits2_pos m)) in *.
  replace (Z.pos (digits2_pos m) + Z.max 0 (e - fx (Z.pos (digits2_pos m) + e)) +
      (e - Z.max 0 (e - fx (Z.pos (digits2_pos m) + e))))
    with (Z.pos (digits2_pos m) + e) in Hx by lia.
  exact Hx.
Qed.

Lemma canonical_digits (m : positive) (e : Z) :
  canonical_mantissa prec emax m e = true ->
  Zpos (digits2_pos m) <= 24 /\ -149 <= e /\
  (Zpos (digits2_pos m) = 24 \/ e = -149).
Proof.
  unfold canonical_mantissa, fexp, SpecFloat.emin, prec, emax.
  intros H. apply Z.eqb_eq in H. lia.
Qed.

Lemma valid_finite (s : bool) (m : positive) (e : Z) :
  valid (S754_finite s m e) = true ->
  Zdigits2 (Zpos m) <= 24 /\ -149 <= e /\ e <= 104 /\
  (Zdigits2 (Zpos m) = 24 \/ e = -149).
Proof.
  unfold valid, valid_binary, bounded. intros H.
  apply andb_prop in H as [Hc Hb]. apply canonical_digits in Hc.
  apply Z.leb_le in Hb. change (emax - prec) with 104 in Hb.
  cbn [Zdigits2]. lia.
Qed.

Lemma binary_normalize_valid (m e : Z) (sz : bool) :
  valid (binary_normalize prec emax m e sz) = true.
Proof.
  destruct m; cbn [binary_normalize]; [reflexivity| |];
    apply binary_round_valid.
Qed.

Lemma fadd_valid (x y : f32) :
  valid x = true -> valid y = true -> valid (fadd x y) = true.
Proof.
  intros Hx Hy. unfold fadd.
  destruct x as [sx|sx| |sx mx ex], y as [sy|sy| |sy my ey];
    cbn [SFadd]; try assumption; try reflexivity;
    try (destruct sx, sy; reflexivity).
  apply binary_normalize_valid.
Qed.

Lemma fmul_valid (x y : f32) :
  valid x = true -> valid y = true -> valid (fmul x y) = true.
Proof.
  intros Hx Hy. unfold fmul.
  destruct x as [sx|sx| |sx mx ex], y as [sy|sy| |sy my ey];
    cbn [SFmul]; try reflexivity.
  apply valid_finite in Hx as (Hdx & Hex & _ & Hcx).
  apply valid_finite in Hy as (Hdy & Hey & _ & Hcy).
  apply bra_valid; [lia|].
  rewrite Pos2Z.inj_mul.
  assert (Hd : Zdigits2 (Zpos mx) + Zdigits2 (Zpos my) - 1
               <= Zdigits2 (Zpos mx * Zpos my)).
  { rewrite !Zdigits2_log2 by lia.
    pose proof (Z.log2_mul_below (Zpos mx) (Zpos my)). lia. }
  pose proof (Zdigits2_log2 (Zpos mx) ltac:(lia)).
  pose proof (Zdigits2_log2 (Zpos my) ltac:(lia)).
  pose proof (Z.log2_nonneg (Zpos mx)). pose proof (Z.log2_nonneg (Zpos my)).
  rewrite fx_eq. lia.
Qed.

Lemma flt_pos_finite (m n : positive) (e f : Z) :
  flt (S754_finite false m e) (S754_finite false n f) = true ->
  e < f \/ (e = f /\ Zpos m < Zpos n).
Proof.
  unfold flt, SFltb, SFcompare.
  change (Pos.compare_cont Eq m n) with (Pos.compare m n).
  destruct (Z.compare_spec e f) as [E|E|E]; [|auto|discriminate].
  destruct (Pos.compare_spec m n) as [H|H|H]; try discriminate.
  intros _. right. split; [exact E|]. apply Pos2Z.pos_lt_pos. exact H.
Qed.

Lemma fle_pos_finite (m n : positive) (e f : Z) :
  fle (S754_finite false m e) (S754_finite false n f) = true <->
  e < f \/ (e = f /\ Zpos m <= Zpos n).
Proof.
  unfold fle, SFleb, SFcompare.
  change (Pos.compare_cont Eq m n) with (Pos.compare m n).
  destruct (Z.compare_spec e f) as [E|E|E].
  - destruct (Pos.compare_spec m n) as [H|H|H].
    + subst. split; [intros _; right; split; [reflexivity|apply Z.le_refl]|
                     reflexivity].
    + apply Pos2Z.pos_lt_pos in H. split; [intros _|reflexivity].
      right. split; [exact E|]. apply Z.lt_le_incl. exact H.
    + apply Pos2Z.pos_lt_pos in H. split; [discriminate|].
      intros [H'|[_ H']]; [subst; exfalso; revert H'; apply Z.lt_irrefl|].
      exfalso. apply (Z.lt_irrefl (Zpos n)).
      eapply Z.lt_le_trans; eassumption.
  - split; auto.
  - split; [discriminate|].
    intros [H'|[H' _]]; exfalso.
    + apply (Z.lt_irrefl e). eapply Z.lt_trans; eassumption.
    + subst. revert E. apply Z.lt_irrefl.
Qed.

Lemma far_finite (s : bool) (m : positive) (e : Z) :
  far (S754_finite s m e) = true ->
  -19 <= e /\ Zdigits2 (Zpos m) = 24 /\ -149 <= e.
Proof.
  unfold far. intros H. apply andb_prop in H as [Hv Hl].
  apply valid_finite in Hv as (Hd & He & _ & Hc).
  cbn [fabs SFabs] in Hl.
  change (of_int 16) with (S754_finite false 8388608 (-19)) in Hl.
  apply fle_pos_finite in Hl. lia.
Qed.

Lemma steep_scaled (c : f32) :
  steep c = true -> far (fmul (of_int 32) c) = true.
Proof.
  unfold steep. intros H. apply andb_prop in H as [Hv Hl].
  assert (Hvr : valid (fmul (of_int 32) c) = true)
    by (apply fmul_valid; [reflexivity|assumption]).
  unfold far. rewrite Hvr. cbn [andb].
  destruct c as [s|s| |s m e]; try discriminate.
  - reflexivity.
  - apply valid_finite in Hv as (Hd & He & _ & Hc).
    cbn [fabs SFabs] in Hl.
    change half with (S754_finite false 8388608 (-24)) in Hl.
    apply fle_pos_finite in Hl.
    assert (He24 : -24 <= e) by lia.
    assert (Hd24 : Zdigits2 (Zpos m) = 24) by lia.
    revert Hvr. unfold fmul.
    change (of_int 32) with (S754_finite false 8388608 (-18)).
    cbn [SFmul xorb]. intros Hvr.
    destruct (bra_positive s (Zpos (8388608 * m)) (-18 + e) loc_Exact
                ltac:(lia) ltac:(lia)) as [->|(m' & e' & E & Hx & _)];
      [reflexivity|].
    rewrite E in Hvr |- *. cbn [fabs SFabs].
    change (of_int 16) with (S754_finite false 8388608 (-19)).
    apply fle_pos_finite.
    rewrite Pos2Z.inj_mul, Z.mul_comm in Hx.
    change (Zpos 8388608) with (2 ^ 23) in Hx.
    rewrite Zdigits2_shiftl, fx_eq in Hx by lia.
    apply valid_finite in Hvr as (Hd' & He' & _ & Hc').
    destruct (Z.eq_dec e' (-19)) as [->|Hne]; [right|left; lia].
    split; [reflexivity|].
    assert (Hd'' : Zdigits2 (Zpos m') = 24) by lia.
    rewrite Zdigits2_log2 in Hd'' by lia.
    assert (2 ^ 23 <= Zpos m').
    { replace 23 with (Z.log2 (Zpos m')) by lia. apply Z.log2_spec. lia. }
    change (2 ^ 23) with 8388608 in *. lia.
Qed.

Lemma far_point_outside (px t : f32) :
  valid px = true -> fgt px (of_int 0) = true ->
  flt px (of_int MAP_X_DIM) = true -> far t = true ->
  flt (fadd px t) (of_int 0) = true \/
  fge (fadd px t) (of_int MAP_X_DIM) = true.
Proof.
  intros Hv Hp Hl Hf.
  destruct px as [sx|sx| |sx mx ex]; try discriminate.
  { destruct sx; discriminate. }
  destruct sx; [discriminate|].
  change (of_int MAP_X_DIM) with (S754_finite false 10485760 (-20)) in *.
  apply flt_pos_finite in Hl.
  apply valid_finite in Hv as (Hdx & Hex & _ & _).
  destruct t as [st|st| |st mt et]; try discriminate.
  - destruct st; [left|right]; reflexivity.
  - apply far_finite in Hf as (Het & Hdt & _).
    unfold fadd. cbn [SFadd].
    replace (Z.min ex et) with ex by lia.
    destruct (shl_align_spec mx ex ex) as [EA _].
    destruct (shl_align_spec mt et ex) as [EB _].
    cbv zeta in EA, EB. rewrite EA, EB.
    replace (Z.max 0 (ex - ex)) with 0 by lia.
    replace (Z.max 0 (et - ex)) with (et - ex) by lia.
    change (2 ^ 0) with 1. rewrite Z.mul_1_r.
    assert (Hpow : 2 ^ 1 <= 2 ^ (et - ex)) by (apply Z.pow_le_mono_r; lia).
    change (2 ^ 1) with 2 in Hpow.
    assert (HA : Zpos mx < 2 ^ 24).
    { rewrite Zdigits2_log2 in Hdx by lia.
      apply Z.log2_lt_pow2; lia. }
    assert (HB : 2 ^ 23 <= Zpos mt).
    { rewrite Zdigits2_log2 in Hdt by lia.
      replace 23 with (Z.log2 (Zpos mt)) by lia. apply Z.log2_spec. lia. }
    change (2 ^ 24) with 16777216 in HA. change (2 ^ 23) with 8388608 in HB.
    assert (HAB : Zpos mx < Zpos mt * 2 ^ (et - ex)) by nia.
    destruct st; cbn [cond_Zopp].
    + left.
      destruct (Z.pos mx + - (Z.pos mt * 2 ^ (et - ex))) as [|q|q] eqn:Eq;
        try lia.
      cbn [binary_normalize].
      destruct (binary_round_positive true q ex Hex)
        as [->|(m' & e' & -> & _)]; reflexivity.
    + right.
      destruct (Z.pos mx + Z.pos mt * 2 ^ (et - ex)) as [|q|q] eqn:Eq;
        try lia.
      cbn [binary_normalize].
      destruct (binary_round_positive false q ex Hex)
        as [->|(m' & e' & -> & Hx)]; [reflexivity|].
      unfold fge. apply fle_pos_finite. left.
      assert (Hdq : Zdigits2 (Zpos mt * 2 ^ (et - ex)) <= Zdigits2 (Zpos q)).
      { apply Zdigits2_mono. lia. }
      rewrite Zdigits2_shiftl in Hdq by lia.
      rewrite fx_eq in Hx. lia.
Qed.

(** A valid float strictly between 0 and [MAP_X_DIM] casts to an index
    of the map. *)
Lemma valid_in_bounds_index (x : f32) :
  valid x = true -> fgt x (of_int 0) = true ->
  flt x (of_int MAP_X_DIM) = true ->
  int_defined x = true /\ 0 <= trunc x < MAP_X_DIM.
Proof.
  destruct x as [s|s| |s m e]; try discriminate.
  - destruct s; discriminate.
  - intros Hv Hp Hl. destruct s; [discriminate|].
    apply valid_finite in Hv as (Hd & He & _ & _).
    change (of_int MAP_X_DIM) with (S754_finite false 10485760 (-20)) in Hl.
    apply flt_pos_finite in Hl.
    assert (H24 : Zpos m < 2 ^ 24).
    { rewrite Zdigits2_log2 in Hd by lia. apply Z.log2_lt_pow2; lia. }
    change (2 ^ 24) with 16777216 in H24.
    assert (Hm : Zpos m < 10 * 2 ^ (- e) /\ e <= -20).
    { destruct Hl as [Hl|[-> Hl]].
      - split; [|lia].
        assert (2 ^ 21 <= 2 ^ (- e)) by (apply Z.pow_le_mono_r; lia).
        change (2 ^ 21) with 2097152 in *. lia.
      - split; [|lia]. change (10 * 2 ^ (- (-20))) with 10485760. lia. }
    destruct Hm as [Hm He'].
    assert (Ht : 0 <= trunc (S754_finite false m e) < 10).
    { unfold trunc. rewrite <- Z.shiftr_opp_r, Z.shiftr_div_pow2 by lia.
      split.
      - apply Z.div_pos; [lia|]. apply Z.pow_pos_nonneg; lia.
      - apply Z.div_lt_upper_bound; [apply Z.pow_pos_nonneg; lia|]. lia. }
    split; [|exact Ht].
    unfold int_defined, INT_MIN, INT_MAX. cbn [is_finite andb].
    apply andb_true_intro; split; apply Z.leb_le; lia.
Qed.

Lemma bra_not_nan (s : bool) (m e : Z) (l : location) :
  0 <= m -> is_nan (binary_round_aux prec emax s m e l) = false.
Proof.
  intros Hm. unfold binary_round_aux.
  destruct (shr_fexp_spec m e l Hm) as [E1 _]. cbv zeta in E1.
  destruct (shr_fexp prec emax m e l) as [mrs1 e1]. cbn [fst snd] in E1.
  pose proof (round_nearest_even_bounds (shr_m mrs1) (loc_of_shr_record mrs1))
    as Hr.
  set (mr := round_nearest_even (shr_m mrs1) (loc_of_shr_record mrs1)) in *.
  assert (Hm1 : 0 <= shr_m mrs1).
  { rewrite E1. apply Z.div_pos; [lia|]. apply Z.pow_pos_nonneg; lia. }
  assert (Hmr : 0 <= mr) by lia.
  destruct (shr_fexp_spec mr e1 loc_Exact Hmr) as [E2 _]. cbv zeta in E2.
  destruct (shr_fexp prec emax mr e1 loc_Exact) as [mrs2 e2].
  cbn [fst snd] in E2.
  assert (Hm2 : 0 <= shr_m mrs2).
  { rewrite E2. apply Z.div_pos; [lia|]. apply Z.pow_pos_nonneg; lia. }
  destruct (shr_m mrs2) as [|p|p]; [reflexivity| |lia].
  destruct (e2 <=? emax - prec); reflexivity.
Qed.

Lemma binary_normalize_not_nan (m e : Z) (sz : bool) :
  is_nan (binary_normalize prec emax m e sz) = false.
Proof.
  destruct m as [|p|p]; cbn [binary_normalize]; [reflexivity| |];
    unfold binary_round;
    destruct (shl_align p e (fexp prec emax (Z.pos (digits2_pos p) + e)))
      as [mz ez]; apply bra_not_nan; lia.
Qed.

Lemma fmul_not_nan (x y : f32) :
  is_finite x = true -> is_finite y = true -> is_nan (fmul x y) = false.
Proof.
  unfold fmul.
  destruct x as [sx|sx| |sx mx ex], y as [sy|sy| |sy my ey];
    cbn [SFmul is_finite]; try discriminate; try reflexivity.
  intros _ _. apply bra_not_nan. lia.
Qed.

Lemma fadd_not_nan (x y : f32) :
  is_finite x = true -> is_nan y = false -> is_nan (fadd x y) = false.
Proof.
  unfold fadd.
  destruct x as [sx|sx| |sx mx ex], y as [sy|sy| |sy my ey];
    cbn [SFadd is_finite is_nan]; try discriminate; try reflexivity;
    try (destruct sx, sy; reflexivity).
  intros _ _. apply binary_normalize_not_nan.
Qed.

Lemma flt_pos_finite_intro (m n : positive) (e f : Z) :
  e < f \/ (e = f /\ Zpos m < Zpos n) ->
  flt (S754_finite false m e) (S754_finite false n f) = true.
Proof.
  unfold flt, SFltb, SFcompare.
  change (Pos.compare_cont Eq m n) with (Pos.compare m n).
  intros H. destruct (Z.compare_spec e f) as [E|E|E].
  - destruct (Pos.compare_spec m n) as [H'|H'|H']; [|reflexivity|].
    + exfalso. subst. destruct H as [H|[_ H]]; revert H; apply Z.lt_irrefl.
    + exfalso. apply Pos2Z.pos_lt_pos in H'.
      destruct H as [H|[_ H]]; [subst; revert H; apply Z.lt_irrefl|].
      apply (Z.lt_irrefl (Zpos m)). eapply Z.lt_trans; eassumption.
  - reflexivity.
  - exfalso. destruct H as [H|[H _]].
    + apply (Z.lt_irrefl e). eapply Z.lt_trans; eassumption.
    + subst. revert E. apply Z.lt_irrefl.
Qed.

(** A valid float that is not a NaN and passes the two bounds tests of
    [ray_cast] for one coordinate casts to an index of the map. *)
Lemma guarded_index (x : f32) :
  valid x = true -> is_nan x = false ->
  flt x (of_int 0) = false -> fge x (of_int MAP_X_DIM) = false ->
  int_defined x = true /\ 0 <= trunc x < MAP_X_DIM.
Proof.
  intros Hv Hn H0 H1.
  destruct x as [s|s| |s m e]; try discriminate.
  - split; [reflexivity|]. cbn. unfold MAP_X_DIM. lia.
  - destruct s; [cbv in H0|cbv in H1]; discriminate.
  - destruct s; [cbv in H0; discriminate|].
    apply valid_in_bounds_index; [exact Hv|reflexivity|].
    change (of_int MAP_X_DIM) with (S754_finite false 10485760 (-20)) in *.
    unfold fge in H1. apply flt_pos_finite_intro.
    destruct (Z.lt_ge_cases e (-20)) as [He|He]; [now left|right].
    assert (Hnot : ~ (-20 < e \/ (-20 = e /\ 10485760 <= Zpos m))).
    { intros H. apply (proj2 (fle_pos_finite _ _ _ _)) in H.
      unfold fle in H. rewrite H in H1. discriminate. }
    lia.
Qed.

(** ** Facts about the closed parts of the scan *)

(** Split a boolean conjunction in a hypothesis into its conjuncts. *)
Ltac andb_split H := repeat (apply andb_prop in H as [H ?]).

Lemma same_float_eq (a b : f32) : same_float a b = true -> a = b.
Proof.
  destruct a as [s|s| |s m e], b as [t|t| |t n f]; simpl; try discriminate;
    try reflexivity.
  - intros H. apply Bool.eqb_prop in H. now subst.
  - intros H. apply Bool.eqb_prop in H. now subst.
  - intros H. apply andb_prop in H as [H He]. apply andb_prop in H as [Hs Hm].
    apply Bool.eqb_prop in Hs. apply Pos.eqb_eq in Hm. apply Z.eqb_eq in He.
    now subst.
Qed.

Lemma heights_checked :
  forallb height_ok (seq 1 FULL_SCAN) = true.
Proof. vm_compute. reflexivity. Qed.

Lemma height_ok_in_scan (k : nat) :
  (1 <= k <= FULL_SCAN)%nat -> height_ok k = true.
Proof.
  intros Hk. pose proof heights_checked as H.
  rewrite forallb_forall in H. apply H. apply in_seq. lia.
Qed.

Lemma hgt_zero_not_positive : fgt (hgt 0) (of_int 0) = false.
Proof. vm_compute. reflexivity. Qed.

Lemma hgt_full_scan : hgt FULL_SCAN = of_int screen_height.
Proof. vm_compute. reflexivity. Qed.

Lemma hgt_positive (k : nat) :
  (1 <= k <= FULL_SCAN)%nat -> fgt (hgt k) (of_int 0) = true.
Proof.
  intros Hk. apply height_ok_in_scan in Hk. unfold height_ok in Hk.
  andb_split Hk. assumption.
Qed.

Lemma hgt_step (k : nat) :
  (1 <= k <= FULL_SCAN)%nat -> fsub (hgt k) (of_int 2) = hgt (pred k).
Proof.
  intros Hk. apply height_ok_in_scan in Hk. unfold height_ok in Hk.
  andb_split Hk. now apply same_float_eq.
Qed.

Lemma hgt_render_ok (k : nat) :
  (1 <= k <= FULL_SCAN)%nat -> render_ok (hgt k) = true.
Proof.
  intros Hk. apply height_ok_in_scan in Hk. unfold height_ok in Hk.
  andb_split Hk. assumption.
Qed.

Lemma hgt_bounds (k : nat) :
  (1 <= k <= FULL_SCAN)%nat ->
  fle (of_int 0) (hgt k) = true /\ fle (hgt k) (of_int screen_height) = true /\
  fle (of_int 2) (hgt k) = true.
Proof.
  intros Hk. apply height_ok_in_scan in Hk. unfold height_ok in Hk.
  andb_split Hk. auto.
Qed.

Lemma hgt_radius_sound (k : nat) :
  (1 <= k <= FULL_SCAN)%nat ->
  valid (radius (hgt k)) = true /\ is_finite (radius (hgt k)) = true.
Proof.
  intros Hk. apply height_ok_in_scan in Hk. unfold height_ok in Hk.
  andb_split Hk. auto.
Qed.

Lemma descent_length (k : nat) : List.length (descent k) = k.
Proof. induction k; simpl; congruence. Qed.

Lemma descent_in (k : nat) (h : f32) :
  In h (descent k) -> exists j, (1 <= j <= k)%nat /\ h = hgt j.
Proof.
  induction k as [|k IH]; simpl; [contradiction|].
  intros [<-|Hin].
  - exists (S k). split; [lia|reflexivity].
  - destruct (IH Hin) as (j & Hj & ->). exists j. split; [lia|reflexivity].
Qed.

(** ** The sweep *)

Lemma sweep_prefix (hit : f32 -> bool) (hs : list f32) :
  exists rest, hs = fst (sweep hit hs) ++ rest.
Proof.
  induction hs as [|h hs IH]; simpl.
  - now exists [].
  - destruct (hit h).
    + now exists hs.
    + destruct (sweep hit hs) as [seen found]. simpl in *.
      destruct IH as [rest ->]. now exists rest.
Qed.

Lemma sweep_found (hit : f32 -> bool) (hs : list f32) (h : f32) :
  snd (sweep hit hs) = Some h ->
  exists before, fst (sweep hit hs) = before ++ [h] /\ hit h = true /\
                 Forall (fun h' => hit h' = false) before.
Proof.
  induction hs as [|a hs IH]; simpl; [discriminate|].
  destruct (hit a) eqn:Ha.
  - simpl. intros [= <-]. now exists [].
  - destruct (sweep hit hs) as [seen found]. simpl in *. intros Hf.
    destruct (IH Hf) as (before & -> & Hh & Hb).
    exists (a :: before). repeat split; auto.
Qed.

Lemma sweep_missed (hit : f32 -> bool) (hs : list f32) :
  snd (sweep hit hs) = None ->
  fst (sweep hit hs) = hs /\ Forall (fun h' => hit h' = false) hs.
Proof.
  induction hs as [|a hs IH]; simpl; [auto|].
  destruct (hit a) eqn:Ha; [discriminate|].
  destruct (sweep hit hs) as [seen found]. simpl in *. intros Hf.
  destruct (IH Hf) as [-> Hb]. split; auto.
Qed.

Lemma sweep_ext (hit hit' : f32 -> bool) (hs : list f32) :
  (forall h, hit h = hit' h) -> sweep hit hs = sweep hit' hs.
Proof.
  intros E. induction hs as [|a hs IH]; simpl; [reflexivity|].
  now rewrite E, IH.
Qed.

(** ** Frames *)

Lemma same_scene_refl (w : world) : same_scene w w.
Proof. repeat split. Qed.

Lemma same_scene_trans (a b c : world) :
  same_scene a b -> same_scene b c -> same_scene a c.
Proof.
  unfold same_scene. intros (?&?&?&?&?) (?&?&?&?&?).
  repeat split; congruence.
Qed.

Lemma more_reads_refl (w : world) : more_reads w w.
Proof. repeat split. now exists []. Qed.

Lemma more_reads_trans (a b c : world) :
  more_reads a b -> more_reads b c -> more_reads a c.
Proof.
  intros (S1 & D1 & E1 & L1 & T1 & l1 & R1) (S2 & D2 & E2 & L2 & T2 & l2 & R2).
  split; [eapply same_scene_trans; eassumption|].
  repeat split; try congruence.
  exists (l2 ++ l1). rewrite R2, R1. now rewrite app_assoc.
Qed.

Lemma more_reads_scene (w w' : world) : more_reads w w' -> same_scene w w'.
Proof. now intros [H _]. Qed.

Lemma drawn_refl (w : world) : drawn w w.
Proof. split; [apply same_scene_refl|reflexivity]. Qed.

Lemma drawn_trans (a b c : world) : drawn a b -> drawn b c -> drawn a c.
Proof.
  intros [S1 R1] [S2 R2]. split; [eapply same_scene_trans; eassumption|].
  congruence.
Qed.

Lemma put_pixel_drawn (x y c : Z) (w : world) : drawn w (put_pixel x y c w).
Proof. unfold put_pixel. destruct (c >? 0); repeat split. Qed.

Section Frames.

Variable P : platform.

Lemma to_int_defined (x : f32) :
  int_defined x = true -> to_int P x = trunc x.
Proof. unfold to_int. now intros ->. Qed.

Lemma render_rows_returns (fuel : nat) (x : Z) (h smy half : f32) :
  forall (y : Z) (w : world),
  rows_end fuel (fsub (fadd smy half) (of_int 1)) y = true ->
  exists w', render_rows P fuel x h smy half y w = Some w' /\ drawn w w'.
Proof.
  induction fuel as [|fuel IH]; cbn [render_rows rows_end]; intros y w H;
    [discriminate|].
  destruct (fle (of_int y) (fsub (fadd smy half) (of_int 1))).
  - match goal with
    | |- exists w', render_rows P fuel x h smy half (y + 1) ?w1 = _ /\ _ =>
        destruct (IH (y + 1) w1 H) as (w' & E & Hd)
    end.
    exists w'. split; [exact E|].
    eapply drawn_trans; [apply put_pixel_drawn|exact Hd].
  - exists w. split; [reflexivity|apply drawn_refl].
Qed.

Lemma render_sliver_returns (x : Z) (h c : f32) (w : world) :
  render_ok h = true ->
  exists w', render_sliver P x h c w = Some w' /\ drawn w w'.
Proof.
  unfold render_ok, render_sliver. intros H.
  apply andb_prop in H as [Hd Hr]. cbv zeta.
  rewrite (to_int_defined _ Hd).
  match goal with
  | |- exists w', render_rows P ?f ?x ?h ?s ?hf ?y ?w2 = _ /\ _ =>
      destruct (render_rows_returns f x h s hf y w2 Hr) as (w' & E & Hw)
  end.
  exists w'. split; [exact E|].
  eapply drawn_trans; [|exact Hw].
  eapply drawn_trans; apply put_pixel_drawn.
Qed.

Lemma probe_spec (x y : f32) (w : world) :
  fst (probe P x y w) =
    (out_of_bounds x y ||
     negb (map_value P (my_map w) (to_int P x) (to_int P y) =? 0)) /\
  more_reads w (snd (probe P x y w)) /\
  map_reads (snd (probe P x y w)) =
    (if out_of_bounds x y then [] else [(to_int P x, to_int P y)])
      ++ map_reads w.
Proof.
  unfold probe. destruct (out_of_bounds x y); simpl.
  - split; [reflexivity|]. split; [apply more_reads_refl|reflexivity].
  - split; [reflexivity|]. split; [|reflexivity].
    repeat split. now exists [(to_int P x, to_int P y)].
Qed.

Lemma hits_scene (w w' : world) (theta h : f32) :
  same_scene w w' -> hits P w' theta h = hits P w theta h.
Proof.
  intros (Hm & Hx & Hy & _). unfold hits, ray_x, ray_y.
  now rewrite Hm, Hx, Hy.
Qed.

Lemma ray_scene (w w' : world) (theta h : f32) :
  same_scene w w' ->
  ray_x P w' theta h = ray_x P w theta h /\
  ray_y P w' theta h = ray_y P w theta h.
Proof.
  intros (Hm & Hx & Hy & _). unfold ray_x, ray_y. now rewrite Hx, Hy.
Qed.

Lemma passed_scene (w w' : world) (theta : f32) (hs hs' : list f32)
    (ij : Z * Z) :
  same_scene w w' -> incl hs' hs ->
  passed P w' theta hs' ij -> passed P w theta hs ij.
Proof.
  intros Hs Hi (h & Hin & Ho & ->).
  destruct (ray_scene w w' theta h Hs) as [Ex Ey].
  exists h. rewrite <- Ex, <- Ey. auto.
Qed.

End Frames.

(** ** One column *)

Section Column.

Variable P : platform.

Lemma rendered_drawn (sliver : Z) (theta h : f32) (w w' : world) :
  render_ok h = true ->
  rendered P sliver theta h w w' ->
  exists w1, more_reads w w1 /\ same_scene w1 w' /\
             map_reads w' = map_reads w1.
Proof.
  intros Hok (w1 & Hm & Hr). cbv zeta in Hr.
  match type of Hr with
  | render_sliver P ?x ?h ?c ?w2 = _ =>
      destruct (render_sliver_returns P x h c w2 Hok) as (w3 & E & Hs & Hd)
  end.
  rewrite E in Hr. injection Hr as <-.
  exists w1. split; [exact Hm|]. split; [|exact Hd].
  eapply same_scene_trans; [|exact Hs]. repeat split.
Qed.

Lemma rendered_scene (sliver : Z) (theta h : f32) (w w' : world) :
  render_ok h = true ->
  rendered P sliver theta h w w' -> same_scene w w'.
Proof.
  intros Hok Hr.
  destruct (rendered_drawn sliver theta h w w' Hok Hr) as (w1 & Hm & Hs & _).
  eapply same_scene_trans; [apply more_reads_scene; exact Hm|exact Hs].
Qed.

Lemma rendered_from (sliver : Z) (theta h : f32) (w w1 w' : world) :
  more_reads w w1 ->
  rendered P sliver theta h w1 w' -> rendered P sliver theta h w w'.
Proof.
  intros Hm (w2 & Hm2 & Hr). exists w2.
  split; [eapply more_reads_trans; eassumption|].
  cbv zeta in *.
  destruct (ray_scene P w w1 theta h (more_reads_scene _ _ Hm)) as [Ex Ey].
  now rewrite <- Ex, <- Ey.
Qed.

(** The subscript the probe of one sample records, if any, is that of a
    point that passed the bounds tests. *)
Lemma probe_guarded (w : world) (theta h : f32) (hs : list f32) :
  In h hs ->
  guarded_reads P w
    (snd (probe P (ray_x P w theta h) (ray_y P w theta h) w)) theta hs.
Proof.
  intros Hin.
  destruct (probe_spec P (ray_x P w theta h) (ray_y P w theta h) w)
    as (_ & _ & Hr).
  destruct (out_of_bounds (ray_x P w theta h) (ray_y P w theta h)) eqn:Ho.
  - exists []. split; [exact Hr|constructor].
  - eexists. split; [exact Hr|]. constructor; [|constructor].
    exists h. auto.
Qed.

Lemma guarded_reads_then (w w1 w' : world) (theta : f32)
    (hs hs' : list f32) :
  incl hs' hs -> same_scene w w1 ->
  guarded_reads P w w1 theta hs -> guarded_reads P w1 w' theta hs' ->
  guarded_reads P w w' theta hs.
Proof.
  intros Hi Hs (l1 & R1 & F1) (l2 & R2 & F2).
  exists (l2 ++ l1). split; [rewrite R2, R1; apply app_assoc|].
  apply Forall_app. split; [|exact F1].
  eapply Forall_impl; [|exact F2]. intros ij. now apply passed_scene.
Qed.

Lemma guarded_reads_drawn (w w1 w' : world) (theta : f32) (hs : list f32) :
  guarded_reads P w w1 theta hs -> map_reads w' = map_reads w1 ->
  guarded_reads P w w' theta hs.
Proof. intros (l & R & F) E. exists l. split; [congruence|exact F]. Qed.

Lemma scan_descent (k : nat) :
  (k <= FULL_SCAN)%nat ->
  forall (fuel : nat) (sliver : Z) (theta : f32) (w : world),
  (k < fuel)%nat ->
  exists w' c, scan P fuel sliver theta (hgt k) w = Some (w', c) /\
               scan_post P sliver theta k w w' c.
Proof.
  induction k as [|k IH]; intros Hk fuel sliver theta w Hf;
    (destruct fuel as [|fuel]; [lia|]); cbn [scan].
  - rewrite hgt_zero_not_positive. eexists _, _. split; [reflexivity|].
    split; [apply same_scene_refl|].
    split; [exists []; split; [reflexivity|constructor]|]. simpl.
    repeat split. now exists [].
  - rewrite hgt_positive by lia.
    pose proof (probe_spec P (ray_x P w theta (hgt (S k)))
                  (ray_y P w theta (hgt (S k))) w) as (Hfst & Hmore & _).
    pose proof (probe_guarded w theta (hgt (S k)) (descent (S k))
                  (or_introl eq_refl)) as Hguard.
    fold (hits P w theta (hgt (S k))) in Hfst.
    unfold ray_x, ray_y in Hfst, Hmore, Hguard.
    destruct (probe P _ _ w) as [hit w1] eqn:Epr.
    cbn [fst snd] in Hfst, Hmore, Hguard.
    unfold scan_post. cbn [descent sweep].
    rewrite <- Hfst. destruct hit.
    + match goal with
      | |- exists w' c, match render_sliver P ?x ?h ?col ?w2 with _ => _ end
                        = _ /\ _ =>
          destruct (render_sliver_returns P x h col w2) as (w3 & E & Hsc & Hrd);
            [apply hgt_render_ok; lia|]
      end.
      rewrite E. eexists _, _. split; [reflexivity|]. cbn [fst snd].
      assert (R : rendered P sliver theta (hgt (S k)) w w3).
      { exists w1. split; [exact Hmore|]. exact E. }
      split; [apply (rendered_scene sliver theta (hgt (S k)));
              [apply hgt_render_ok; lia|exact R]|].
      split; [eapply guarded_reads_drawn; [exact Hguard|exact Hrd]|].
      split; [reflexivity|]. auto.
    + rewrite hgt_step by lia. cbn [pred].
      assert (Hk' : (k <= FULL_SCAN)%nat) by lia.
      assert (Hf' : (k < fuel)%nat) by lia.
      destruct (IH Hk' fuel sliver theta w1 Hf')
        as (w' & c & E & S1 & G1 & S2 & S3).
      rewrite E. eexists _, _. split; [reflexivity|].
      rewrite (sweep_ext _ (hits P w theta)) in S2, S3
        by (intros h; apply hits_scene; apply more_reads_scene; exact Hmore).
      destruct (sweep (hits P w theta) (descent k)) as [seen found].
      cbn [fst snd add_sample col_hit col_wall_height col_d col_samples map]
        in *.
      split.
      { eapply same_scene_trans; [apply more_reads_scene; exact Hmore|
                                  exact S1]. }
      split.
      { eapply guarded_reads_then; [|apply more_reads_scene; exact Hmore|
                                    exact Hguard|exact G1].
        intros h Hh. now right. }
      split; [now rewrite S2|].
      destruct found as [h|].
      * destruct S3 as (? & ? & ? & R). repeat split; auto.
        eapply rendered_from; eassumption.
      * destruct S3 as (? & ? & ? & R). split; [assumption|].
        split; [assumption|]. split; [assumption|].
        eapply more_reads_trans; eassumption.
Qed.

End Column.

(** ** All columns *)

Section Columns.

Variable P : platform.

Lemma scan_column (sliver : Z) (theta : f32) (w : world) :
  exists w' c,
    scan P SCAN_FUEL sliver theta (of_int screen_height) w = Some (w', c) /\
    scan_post P sliver theta FULL_SCAN w w' c.
Proof.
  rewrite <- hgt_full_scan. apply scan_descent.
  - apply Nat.le_refl.
  - unfold SCAN_FUEL, FULL_SCAN. apply Nat.lt_succ_diag_r.
Qed.

Lemma scan_post_column (sliver : Z) (theta : f32) (w0 w w' : world)
    (c : column) :
  same_scene w0 w -> scan_post P sliver theta FULL_SCAN w w' c ->
  column_post P w0 theta c.
Proof.
  intros Hs (_ & _ & H1 & H2). unfold column_post.
  rewrite (sweep_ext _ (hits P w0 theta)) in H1, H2
    by (intros h; apply hits_scene; exact Hs).
  split; [exact H1|].
  destruct (snd (sweep (hits P w0 theta) (descent FULL_SCAN)));
    intuition.
Qed.

Lemma advance_next (theta : f32) (j : nat) :
  advance (fadd theta theta_inc) j = advance theta (S j).
Proof.
  unfold advance. induction j as [|j IH]; [reflexivity|].
  change (fadd (Nat.iter j (fun t => fadd t theta_inc)
                  (fadd theta theta_inc)) theta_inc =
          fadd (Nat.iter (S j) (fun t => fadd t theta_inc) theta) theta_inc).
  now rewrite IH.
Qed.

Lemma cast_columns_returns (n : nat) :
  forall (fuel : nat) (sliver : Z) (theta : f32) (w : world),
  sliver + Z.of_nat n = NUM_SLIVERS -> (n < fuel)%nat ->
  exists w' cs,
    cast_columns P fuel sliver theta w = Some (w', cs) /\
    same_scene w w' /\
    all_guarded_reads P w w' theta n /\
    map fst cs = map (fun j => sliver + Z.of_nat j) (seq 0 n) /\
    forall (j : nat) (c : column),
      nth_error (map snd cs) j = Some c ->
      column_post P w (advance theta j) c.
Proof.
  induction n as [|n IH]; intros fuel sliver theta w Hn Hf;
    (destruct fuel as [|fuel]; [lia|]); cbn [cast_columns].
  - replace (sliver <? NUM_SLIVERS) with false
      by (symmetry; apply Z.ltb_ge; lia).
    exists w, []. split; [reflexivity|].
    split; [apply same_scene_refl|].
    split; [exists []; split; [reflexivity|constructor]|].
    split; [reflexivity|].
    intros [|j] c; discriminate.
  - replace (sliver <? NUM_SLIVERS) with true
      by (symmetry; apply Z.ltb_lt; lia).
    destruct (scan_column sliver theta w) as (w1 & c & E & Hp).
    rewrite E.
    assert (Hn' : sliver + 1 + Z.of_nat n = NUM_SLIVERS) by lia.
    assert (Hf' : (n < fuel)%nat) by lia.
    destruct (IH fuel (sliver + 1) (fadd theta theta_inc) w1 Hn' Hf')
      as (w2 & cs & E2 & Hs2 & Hg2 & Hi & Hc).
    rewrite E2. exists w2, ((sliver, c) :: cs).
    assert (Hs1 : same_scene w w1) by apply Hp.
    split; [reflexivity|].
    split; [eapply same_scene_trans; eassumption|]. split; [|split].
    + destruct Hp as (_ & (l1 & R1 & F1) & _).
      destruct Hg2 as (l2 & R2 & F2).
      exists (l2 ++ l1). split; [rewrite R2, R1; apply app_assoc|].
      apply Forall_app. split.
      * eapply Forall_impl; [|exact F2].
        intros ij (j & Hj & Hpass). exists (S j). split; [lia|].
        rewrite <- advance_next.
        eapply passed_scene; [exact Hs1|apply incl_refl|exact Hpass].
      * eapply Forall_impl; [|exact F1].
        intros ij Hpass. exists 0%nat. split; [lia|exact Hpass].
    + cbn [map seq fst]. rewrite Hi. f_equal; [lia|].
      rewrite <- seq_shift, map_map. apply map_ext. intros a. lia.
    + intros [|j] c' Hnth; cbn [map nth_error] in Hnth.
      * injection Hnth as <-. cbn [advance Nat.iter].
        eapply scan_post_column; [apply same_scene_refl|exact Hp].
      * rewrite <- advance_next. specialize (Hc j c' Hnth).
        destruct Hc as [H1 H2]. unfold column_post.
        rewrite (sweep_ext _ (hits P w1 (advance (fadd theta theta_inc) j)))
          by (intros h; symmetry; apply hits_scene; exact Hs1).
        split; assumption.
Qed.

Lemma ray_angle_advance (b : f32) (i : nat) :
  ray_angle b i = advance (fsub b (fdiv FOV (of_int 2))) i.
Proof.
  induction i as [|i IH]; [reflexivity|].
  cbn [ray_angle]. rewrite IH. reflexivity.
Qed.

(** [ray_cast] returns, having scanned the columns 0..NUM_SLIVERS-1 in
    order, column [j] at angle [ray_angle _ j], without touching the
    scene and with every subscript guarded. *)
Lemma ray_cast_returns (w : world) :
  exists w' cs,
    ray_cast P w = Some (w', cs) /\
    same_scene w w' /\
    all_guarded_reads P w w'
      (fsub (player_bearing w) (fdiv FOV (of_int 2)))
      (Z.to_nat NUM_SLIVERS) /\
    map fst cs = map Z.of_nat (seq 0 (Z.to_nat NUM_SLIVERS)) /\
    forall (j : nat) (c : column),
      nth_error (map snd cs) j = Some c ->
      column_post P w (ray_angle (player_bearing w) j) c.
Proof.
  unfold ray_cast.
  destruct (cast_columns_returns (Z.to_nat NUM_SLIVERS) CAST_FUEL 0
              (fsub (player_bearing w) (fdiv FOV (of_int 2))) w)
    as (w' & cs & E & Hs & Hg & Hi & Hc).
  - reflexivity.
  - unfold CAST_FUEL. apply Nat.lt_succ_diag_r.
  - exists w', cs. split; [exact E|]. split; [exact Hs|].
    split; [exact Hg|]. split; [exact Hi|].
    intros j c Hj. rewrite ray_angle_advance. now apply Hc.
Qed.

End Columns.

(** ** Consequences for the heights and radii of a column *)

Lemma sweep_found_in (hit : f32 -> bool) (hs : list f32) (h : f32) :
  snd (sweep hit hs) = Some h -> In h hs.
Proof.
  intros H. destruct (sweep_found hit hs h H) as (before & E & _).
  destruct (sweep_prefix hit hs) as [rest Hr]. rewrite Hr, E.
  apply in_or_app. left. apply in_or_app. right. now left.
Qed.

Lemma sweep_finds (hit : f32 -> bool) (hs : list f32) (h : f32) :
  In h hs -> hit h = true -> snd (sweep hit hs) <> None.
Proof.
  intros Hin Hh Hnone. apply sweep_missed in Hnone as [_ Hall].
  rewrite Forall_forall in Hall. specialize (Hall h Hin). congruence.
Qed.

Lemma descent_nth (k i : nat) (h : f32) :
  nth_error (descent k) i = Some h -> (i < k)%nat /\ h = hgt (k - i).
Proof.
  revert i. induction k as [|k IH]; intros i; cbn [descent].
  - destruct i; discriminate.
  - destruct i as [|i]; cbn [nth_error].
    + intros [= <-]. split; [lia|reflexivity].
    + intros H. destruct (IH i H) as [Hi ->]. split; [lia|].
      f_equal.
  Qed.

Lemma same_float_refl (a : f32) : same_float a a = true.
Proof.
  destruct a as [s|s| |s m e]; simpl; auto using Bool.eqb_reflx.
  now rewrite Bool.eqb_reflx, Pos.eqb_refl, Z.eqb_refl.
Qed.

Lemma distinct_floats_NoDup (l : list f32) :
  distinct_floats l = true -> NoDup l.
Proof.
  induction l as [|a l IH]; simpl; intros H; constructor.
  - apply andb_prop in H as [H _]. intros Hin.
    apply negb_true_iff in H.
    assert (existsb (same_float a) l = true); [|congruence].
    apply existsb_exists. exists a. split; [exact Hin|apply same_float_refl].
  - apply IH. now apply andb_prop in H as [_ H].
Qed.

Lemma descent_NoDup : NoDup (descent FULL_SCAN).
Proof. apply distinct_floats_NoDup. vm_compute. reflexivity. Qed.

Lemma hgt_0 : hgt 0 = of_int 0.
Proof. reflexivity. Qed.

Section ColumnFacts.

Variable P : platform.

Lemma column_samples_heights (w : world) (theta : f32) (c : column) :
  column_post P w theta c ->
  map fst (col_samples c) =
    fst (sweep (hits P w theta) (descent FULL_SCAN)) /\
  Forall (fun s => snd s = radius (fst s)) (col_samples c).
Proof.
  intros [-> _]. split.
  - rewrite map_map. cbn [fst]. apply map_id.
  - apply Forall_forall. intros s Hs. apply in_map_iff in Hs as (h & <- & _).
    reflexivity.
Qed.

Lemma column_samples_prefix (w : world) (theta : f32) (c : column) :
  column_post P w theta c ->
  exists rest, descent FULL_SCAN = map fst (col_samples c) ++ rest.
Proof.
  intros H. destruct (column_samples_heights w theta c H) as [-> _].
  apply sweep_prefix.
Qed.

Lemma column_sample_nth (w : world) (theta : f32) (c : column)
    (i : nat) (h r : f32) :
  column_post P w theta c ->
  nth_error (col_samples c) i = Some (h, r) ->
  (i < FULL_SCAN)%nat /\ h = hgt (FULL_SCAN - i) /\ r = radius h.
Proof.
  intros Hc Hn.
  destruct (column_samples_prefix w theta c Hc) as [rest Hr].
  destruct (column_samples_heights w theta c Hc) as [_ Hrad].
  assert (Hh : nth_error (map fst (col_samples c)) i = Some h).
  { rewrite nth_error_map, Hn. reflexivity. }
  assert (Hd : nth_error (descent FULL_SCAN) i = Some h).
  { rewrite Hr. rewrite nth_error_app1; [exact Hh|].
    apply nth_error_Some. congruence. }
  destruct (descent_nth _ _ _ Hd) as [Hi Hh'].
  split; [exact Hi|]. split; [exact Hh'|].
  rewrite Forall_forall in Hrad.
  apply (Hrad (h, r)). eapply nth_error_In; eassumption.
Qed.

Lemma column_post_height (w : world) (theta : f32) (c : column) :
  column_post P w theta c ->
  (col_hit c = true /\
   exists k, (1 <= k <= FULL_SCAN)%nat /\ col_wall_height c = hgt k /\
             col_d c = Some (radius (hgt k)) /\
             hits P w theta (hgt k) = true) \/
  (col_hit c = false /\ col_wall_height c = of_int 0 /\ col_d c = None /\
   Forall (fun h => hits P w theta h = false) (descent FULL_SCAN)).
Proof.
  intros [_ H].
  destruct (snd (sweep (hits P w theta) (descent FULL_SCAN))) as [h|] eqn:E.
  - left. destruct H as (Hh & Hw & Hd). split; [exact Hh|].
    destruct (descent_in _ _ (sweep_found_in _ _ _ E)) as (k & Hk & ->).
    exists k. repeat split; try assumption; try lia.
    now destruct (sweep_found _ _ _ E) as (_ & _ & Hhit & _).
  - right. destruct H as (Hh & Hw & Hd). repeat split; try assumption.
    now destruct (sweep_missed _ _ E).
Qed.

End ColumnFacts.

(** ** Facts about the turns *)

Lemma zrange_in (lo : Z) (n : nat) (z : Z) :
  lo <= z < lo + Z.of_nat n -> In z (zrange lo n).
Proof.
  intros H. unfold zrange. apply in_map_iff. exists (Z.to_nat (z - lo)).
  split; [lia|]. apply in_seq. lia.
Qed.

Lemma quarter_turns_checked :
  forallb quarter_turn_exact
    (zrange (- GRID_SPAN) (Z.to_nat (2 * GRID_SPAN + 1))) = true.
Proof. vm_compute. reflexivity. Qed.

Lemma quarter_turn_on_grid (n : Z) :
  - GRID_SPAN <= n <= GRID_SPAN ->
  let b := grid_bearing n in
  is_finite b = true /\
  fadd (fsub b (of_int 90)) (of_int 90) = b /\
  fsub (fadd b (of_int 90)) (of_int 90) = b.
Proof.
  intros Hn. pose proof quarter_turns_checked as H.
  rewrite forallb_forall in H.
  assert (Hin : In n (zrange (- GRID_SPAN) (Z.to_nat (2 * GRID_SPAN + 1))))
    by (apply zrange_in; unfold GRID_SPAN in *; lia).
  specialize (H n Hin). unfold quarter_turn_exact in H.
  apply andb_prop in H as [H H3]. apply andb_prop in H as [H1 H2].
  cbv zeta. auto using same_float_eq.
Qed.

Lemma turn_backs_checked :
  forallb (fun n =>
             forallb (turn_back_exact n)
               (zrange (- ANGLE_SPAN) (Z.to_nat (2 * ANGLE_SPAN + 1))))
    (zrange (- BEARING_SPAN) (Z.to_nat (2 * BEARING_SPAN + 1))) = true.
Proof. vm_compute. reflexivity. Qed.

Lemma turn_back_on_grid (n m : Z) :
  - BEARING_SPAN <= n <= BEARING_SPAN ->
  - ANGLE_SPAN <= m <= ANGLE_SPAN ->
  is_finite (grid_bearing n) = true /\
  fsub (fadd (grid_bearing n) (grid_bearing m)) (grid_bearing m)
    = grid_bearing n.
Proof.
  intros Hn Hm. pose proof turn_backs_checked as H.
  rewrite forallb_forall in H.
  assert (Hin : In n (zrange (- BEARING_SPAN)
                        (Z.to_nat (2 * BEARING_SPAN + 1))))
    by (apply zrange_in; unfold BEARING_SPAN in *; lia).
  specialize (H n Hin). rewrite forallb_forall in H.
  assert (Him : In m (zrange (- ANGLE_SPAN) (Z.to_nat (2 * ANGLE_SPAN + 1))))
    by (apply zrange_in; unfold ANGLE_SPAN in *; lia).
  specialize (H m Him). unfold turn_back_exact in H. apply andb_prop in H as [H1 H2].
  auto using same_float_eq.
Qed.

Lemma congruent_mod_360_refl (a : f32) :
  is_finite a = true -> congruent_mod_360 a a.
Proof.
  intros H. repeat split; try assumption. exists 0.
  rewrite Z.mul_0_r. unfold Qminus. apply Qplus_opp_r.
Qed.

Section MovementFacts.

Variable P : platform.

Lemma step_forward_bearing (d : f32) (w : world) :
  player_bearing (step_forward P d w) = player_bearing w.
Proof.
  unfold step_forward, read_map. cbv zeta.
  match goal with |- context [if ?b then _ else _] => destruct b end;
    reflexivity.
Qed.

Lemma step_forward_map (d : f32) (w : world) :
  my_map (step_forward P d w) = my_map w.
Proof.
  unfold step_forward, read_map. cbv zeta.
  match goal with |- context [if ?b then _ else _] => destruct b end;
    reflexivity.
Qed.

Lemma strafe_left_bearing (d : f32) (w : world) :
  player_bearing (strafe_left P d w) =
    fadd (fsub (player_bearing w) (of_int 90)) (of_int 90).
Proof.
  unfold strafe_left, turn_right. cbn [player_bearing set_bearing].
  rewrite step_forward_bearing. reflexivity.
Qed.

Lemma strafe_right_bearing (d : f32) (w : world) :
  player_bearing (strafe_right P d w) =
    fsub (fadd (player_bearing w) (of_int 90)) (of_int 90).
Proof.
  unfold strafe_right, turn_left. cbn [player_bearing set_bearing].
  rewrite step_forward_bearing. reflexivity.
Qed.

(** On the bearings [n] turn steps from 0, [strafe_right] restores the
    bearing as well. *)
Lemma strafe_right_on_grid (d : f32) (w : world) (n : Z) :
  - GRID_SPAN <= n <= GRID_SPAN -> player_bearing w = grid_bearing n ->
  player_bearing (strafe_right P d w) = player_bearing w.
Proof.
  intros Hn Hb. rewrite strafe_right_bearing, Hb.
  now destruct (quarter_turn_on_grid n Hn) as (_ & _ & H).
Qed.

End MovementFacts.



(** ** The far end of a ray *)

Lemma radius_last : radius (hgt 1) = of_int 32.
Proof. vm_compute. reflexivity. Qed.

Lemma hgt_1 : hgt 1 = of_int 2.
Proof. reflexivity. Qed.

Lemma descent_has (k j : nat) :
  (1 <= j <= k)%nat -> In (hgt j) (descent k).
Proof.
  induction k as [|k IH]; intros Hj; [lia|]. cbn [descent].
  destruct (Nat.eq_dec j (S k)) as [->|Hne]; [now left|].
  right. apply IH. lia.
Qed.

Lemma last_sample_outside (P : platform) (w : world) (theta : f32) :
  inside_map w -> trig_usable P theta ->
  out_of_bounds (ray_x P w theta (hgt 1)) (ray_y P w theta (hgt 1)) = true.
Proof.
  intros (Hvx & Hx0 & Hx1 & Hvy & Hy0 & Hy1) Ht.
  unfold out_of_bounds, ray_x, ray_y. rewrite radius_last.
  destruct Ht as [Hc|Hs].
  - destruct (far_point_outside (player_x w)
                (fmul (of_int 32) (cos P (to_radians theta)))
                Hvx Hx0 Hx1 (steep_scaled _ Hc)) as [H|H]; rewrite H;
      rewrite ?orb_true_r; reflexivity.
  - destruct (far_point_outside (player_y w)
                (fmul (of_int 32) (sin P (to_radians theta)))
                Hvy Hy0 Hy1 (steep_scaled _ Hs)) as [H|H].
    + rewrite H. rewrite ?orb_true_r. reflexivity.
    + change (of_int MAP_Y_DIM) with (of_int MAP_X_DIM).
      rewrite H. rewrite ?orb_true_r. reflexivity.
Qed.

(** *** A ray whose direction is not a number

    [to_radians] multiplies the angle by PI before it divides by 180, so
    the product overflows to an infinity for angles beyond about 1.08e38
    degrees, and an IEEE math library returns NaN for the cosine and the
    sine of an infinity. *)

(** Where the math library returns NaN for the cosine and the sine, the
    sampled point is (NaN, NaN) and each of the four bounds tests is
    false, at every wall height. *)
Lemma nan_ray_passes_bounds_tests (P : platform) (w : world) (theta h : f32) :
  cos P (to_radians theta) = S754_nan ->
  sin P (to_radians theta) = S754_nan ->
  ray_x P w theta h = S754_nan /\ ray_y P w theta h = S754_nan /\
  out_of_bounds (ray_x P w theta h) (ray_y P w theta h) = false.
Proof.
  intros Hc Hs. unfold ray_x, ray_y. rewrite Hc, Hs.
  assert (Hm : fmul (radius h) S754_nan = S754_nan)
    by (now destruct (radius h)).
  assert (Ha : forall a, fadd a S754_nan = S754_nan)
    by (now intros [ | | | ]).
  rewrite Hm, !Ha. repeat split.
Qed.

(** Then the scan misses at every wall height, provided the entry that
    the subscript of the undefined conversion of NaN selects is 0. *)
Lemma nan_ray_misses (P : platform) (w : world) (theta h : f32) :
  cos P (to_radians theta) = S754_nan ->
  sin P (to_radians theta) = S754_nan ->
  map_value P (my_map w) (to_int P S754_nan) (to_int P S754_nan) = 0 ->
  hits P w theta h = false.
Proof.
  intros Hc Hs Hm. unfold hits.
  destruct (nan_ray_passes_bounds_tests P w theta h Hc Hs) as (Ex & Ey & Hb).
  cbv zeta. rewrite Hb, Ex, Ey, Hm. reflexivity.
Qed.

(** A frame in which the math library returns NaN at every view angle:
    no column registers a hit, every scan runs down to wall height 0. *)
Lemma nan_columns_miss (P : platform) (w : world) :
  (forall j, (j < Z.to_nat NUM_SLIVERS)%nat ->
     cos P (to_radians (ray_angle (player_bearing w) j)) = S754_nan /\
     sin P (to_radians (ray_angle (player_bearing w) j)) = S754_nan) ->
  map_value P (my_map w) (to_int P S754_nan) (to_int P S754_nan) = 0 ->
  exists w' cs,
    ray_cast P w = Some (w', cs) /\
    Z.of_nat (List.length cs) = NUM_SLIVERS /\
    Forall (fun ic => col_hit (snd ic) = false /\
                      col_wall_height (snd ic) = of_int 0 /\
                      col_d (snd ic) = None) cs.
Proof.
  intros Hnan Hm.
  destruct (ray_cast_returns P w) as (w' & cs & E & _ & _ & Hi & Hc).
  exists w', cs. split; [exact E|].
  assert (Hlen : List.length cs = Z.to_nat NUM_SLIVERS).
  { rewrite <- (length_map fst), Hi, length_map, length_seq. reflexivity. }
  split; [rewrite Hlen; reflexivity|].
  apply Forall_forall. intros [i c] Hic. cbn [snd].
  assert (Hic' : In c (map snd cs)).
  { apply in_map_iff. now exists (i, c). }
  apply In_nth_error in Hic' as [j Hj].
  assert (Hjlt : (j < Z.to_nat NUM_SLIVERS)%nat).
  { rewrite <- Hlen, <- (length_map snd). apply nth_error_Some. congruence. }
  destruct (column_post_height P _ _ _ (Hc j c Hj))
    as [(_ & k & _ & _ & _ & Hhit)|(Hh & Hw & Hd & _)].
  - destruct (Hnan j Hjlt) as [Ec Es].
    rewrite (nan_ray_misses P w _ (hgt k) Ec Es Hm) in Hhit. discriminate.
  - repeat split; assumption.
Qed.

(** ** Facts about the rest of the sketch *)

(** *** The player stays in an empty cell *)

Lemma between_finite (x : f32) :
  fgt x (of_int 0) = true -> flt x (of_int MAP_X_DIM) = true ->
  exists m e, x = S754_finite false m e.
Proof.
  intros H0 H1. destruct x as [s|s| |s m e].
  - destruct s; vm_compute in H0; discriminate.
  - destruct s; vm_compute in H0, H1; discriminate.
  - vm_compute in H0. discriminate.
  - destruct s; [cbv in H0; discriminate|]. now exists m, e.
Qed.

(** Adding anything to a valid finite nonzero float gives a valid float. *)
Lemma fadd_valid_finite (s : bool) (m : positive) (e : Z) (y : f32) :
  valid (S754_finite s m e) = true ->
  valid (fadd (S754_finite s m e) y) = true.
Proof.
  intros Hx. unfold fadd. destruct y as [sy|sy| |sy my ey]; cbn [SFadd];
    try assumption; try reflexivity.
  apply binary_normalize_valid.
Qed.

Lemma inside_map_index (P : platform) (w : world) :
  inside_map w ->
  to_int P (player_x w) = trunc (player_x w) /\
  to_int P (player_y w) = trunc (player_y w) /\
  in_map (trunc (player_x w)) (trunc (player_y w)) = true.
Proof.
  intros (Hvx & Hx0 & Hx1 & Hvy & Hy0 & Hy1).
  destruct (valid_in_bounds_index _ Hvx Hx0 Hx1) as [Hdx Hix].
  destruct (valid_in_bounds_index _ Hvy Hy0 Hy1) as [Hdy Hiy].
  rewrite !to_int_defined by assumption. repeat split.
  unfold in_map. change MAP_Y_DIM with MAP_X_DIM.
  repeat (apply andb_true_intro; split);
    try apply Z.leb_le; try apply Z.ltb_lt; lia.
Qed.

Lemma step_forward_well_placed (P : platform) (d : f32) (w : world) :
  well_placed w -> well_placed (step_forward P d w).
Proof.
  intros [Hin Hc]. pose proof Hin as (Hvx & Hx0 & Hx1 & Hvy & Hy0 & Hy1).
  destruct (between_finite _ Hx0 Hx1) as (mx & ex & Ex).
  destruct (between_finite _ Hy0 Hy1) as (my & ey & Ey).
  unfold step_forward, read_map. cbv zeta.
  set (dx := fmul d (cos P (fdiv (fmul (player_bearing w) PI) (of_int 180)))).
  set (dy := fmul d (sin P (fdiv (fmul (player_bearing w) PI) (of_int 180)))).
  cbn [player_x player_y log_read].
  set (x := fadd (player_x w) dx). set (y := fadd (player_y w) dy).
  assert (Vx : valid x = true).
  { subst x. rewrite Ex. apply fadd_valid_finite. now rewrite <- Ex. }
  assert (Vy : valid y = true).
  { subst y. rewrite Ey. apply fadd_valid_finite. now rewrite <- Ey. }
  destruct ((map_value P (my_map w) (to_int P x) (to_int P y) =? 0) &&
            fgt x (of_int 0) && fgt y (of_int 0) &&
            flt x (of_int MAP_X_DIM) && flt y (of_int MAP_Y_DIM)) eqn:T.
  - apply andb_prop in T as [T Hy1']. apply andb_prop in T as [T Hx1'].
    apply andb_prop in T as [T Hy0']. apply andb_prop in T as [Hm Hx0'].
    apply Z.eqb_eq in Hm.
    assert (I : inside_map
                  (set_position x y
                     (log_read (to_int P x) (to_int P y) w)))
      by (repeat split; assumption).
    split; [exact I|].
    destruct (inside_map_index P _ I) as (Tx & Ty & Hi).
    cbn [player_x player_y my_map set_position log_read] in *.
    unfold map_value in Hm. rewrite Tx, Ty, Hi in Hm. exact Hm.
  - split; [exact Hin|exact Hc].
Qed.

Lemma turn_left_well_placed (theta : f32) (w : world) :
  well_placed w -> well_placed (turn_left theta w).
Proof. intros H. exact H. Qed.

Lemma turn_right_well_placed (theta : f32) (w : world) :
  well_placed w -> well_placed (turn_right theta w).
Proof. intros H. exact H. Qed.

Lemma strafe_left_well_placed (P : platform) (d : f32) (w : world) :
  well_placed w -> well_placed (strafe_left P d w).
Proof.
  intros H. unfold strafe_left.
  apply turn_right_well_placed, step_forward_well_placed,
    turn_left_well_placed, H.
Qed.

Lemma strafe_right_well_placed (P : platform) (d : f32) (w : world) :
  well_placed w -> well_placed (strafe_right P d w).
Proof.
  intros H. unfold strafe_right.
  apply turn_left_well_placed, step_forward_well_placed,
    turn_right_well_placed, H.
Qed.


(** *** Counted loops *)

Lemma rounds_invariant {St : Type} (I : Z -> St -> Prop)
    (body : Z -> St -> option St) (n : nat) :
  forall (lo : Z) (s : St),
    (forall i s, lo <= i < lo + Z.of_nat n -> I i s ->
                 exists s', body i s = Some s' /\ I (i + 1) s') ->
    I lo s ->
    exists s', rounds n lo body s = Some s' /\ I (lo + Z.of_nat n) s'.
Proof.
  induction n as [|n IH]; intros lo s Hb H0.
  - exists s. split; [reflexivity|]. now rewrite Z.add_0_r.
  - cbn [rounds].
    destruct (Hb lo s ltac:(lia) H0) as (s1 & E1 & H1). rewrite E1.
    destruct (IH (lo + 1) s1) as (s' & E' & H').
    + intros i t Hi. apply Hb. lia.
    + exact H1.
    + exists s'. split; [exact E'|].
      replace (lo + Z.of_nat (S n)) with (lo + 1 + Z.of_nat n) by lia.
      exact H'.
Qed.

Lemma for_int_invariant {St : Type} (I : Z -> St -> Prop)
    (lo hi : Z) (body : Z -> St -> option St) (s : St) :
  lo <= hi ->
  (forall i s, lo <= i < hi -> I i s ->
               exists s', body i s = Some s' /\ I (i + 1) s') ->
  I lo s ->
  exists s', for_int lo hi body s = Some s' /\ I hi s'.
Proof.
  intros Hle Hb H0. unfold for_int.
  destruct (rounds_invariant I body (Z.to_nat (hi - lo)) lo s) as (s' & E & H).
  - intros i t Hi. apply Hb. lia.
  - exact H0.
  - exists s'. split; [exact E|].
    replace (lo + Z.of_nat (Z.to_nat (hi - lo))) with hi in H by lia.
    exact H.
Qed.

(** *** Stores into the map *)

Lemma list_set_length {A : Type} (n : nat) (v : A) (l : list A) :
  List.length (list_set n v l) = List.length l.
Proof.
  revert n. induction l as [|a l IH]; intros [|n]; cbn; auto.
Qed.

Lemma nth_list_set_same {A : Type} (n : nat) (v d : A) (l : list A) :
  (n < List.length l)%nat -> nth n (list_set n v l) d = v.
Proof.
  revert n. induction l as [|a l IH]; intros [|n] H; cbn in *;
    try lia; auto. apply IH. lia.
Qed.

Lemma nth_list_set_other {A : Type} (n k : nat) (v d : A) (l : list A) :
  k <> n -> nth k (list_set n v l) d = nth k l d.
Proof.
  revert n k. induction l as [|a l IH]; intros [|n] [|k] H; cbn;
    try reflexivity; try congruence. apply IH. congruence.
Qed.

Lemma Forall_list_set {A : Type} (Q : A -> Prop) (n : nat) (v : A)
    (l : list A) :
  Forall Q l -> ((n < List.length l)%nat -> Q v) -> Forall Q (list_set n v l).
Proof.
  revert n. induction l as [|a l IH]; intros [|n] H Hv; cbn.
  - constructor.
  - constructor.
  - inversion H; subst. constructor; [apply Hv; cbn; lia|assumption].
  - inversion H; subst. constructor; [assumption|].
    apply IH; [assumption|]. intros Hn. apply Hv. cbn. lia.
Qed.

Lemma in_map_range (i j : Z) :
  in_map i j = true <-> 0 <= i < MAP_X_DIM /\ 0 <= j < MAP_Y_DIM.
Proof.
  unfold in_map. rewrite !andb_true_iff, !Z.leb_le, !Z.ltb_lt. lia.
Qed.

Lemma shaped_column (m : grid) (i : Z) :
  shaped m -> 0 <= i < MAP_X_DIM ->
  List.length (nth (Z.to_nat i) m []) = Z.to_nat MAP_Y_DIM.
Proof.
  intros [Hl Hc] Hi. rewrite Forall_forall in Hc. apply Hc, nth_In.
  rewrite Hl. lia.
Qed.

Lemma shaped_set_cell (m : grid) (i j v : Z) :
  shaped m -> in_map i j = true -> shaped (set_cell m i j v).
Proof.
  intros Hs Hi. apply in_map_range in Hi as [Hi Hj].
  pose proof (shaped_column m i Hs Hi) as Hc.
  destruct Hs as [Hl Hf]. unfold set_cell. split.
  - now rewrite list_set_length.
  - apply Forall_list_set; [exact Hf|]. intros _.
    now rewrite list_set_length.
Qed.

Lemma cell_set_cell (m : grid) (i j v i' j' : Z) :
  shaped m -> in_map i j = true -> 0 <= i' -> 0 <= j' ->
  cell (set_cell m i j v) i' j' =
    if (i' =? i) && (j' =? j) then v else cell m i' j'.
Proof.
  intros Hs Hi Hi' Hj'. pose proof Hi as Hr.
  apply in_map_range in Hr as [Hri Hrj].
  pose proof (shaped_column m i Hs Hri) as Hc.
  destruct Hs as [Hl Hf]. unfold cell, set_cell.
  destruct (Z.eqb_spec i' i) as [->|Ni].
  - rewrite nth_list_set_same by (rewrite Hl; lia).
    destruct (Z.eqb_spec j' j) as [->|Nj]; cbn [andb].
    + apply nth_list_set_same. rewrite Hc. lia.
    + apply nth_list_set_other. lia.
  - cbn [andb]. rewrite nth_list_set_other by lia. reflexivity.
Qed.

Lemma shaped_zero (m : grid) :
  shaped m ->
  (forall i j, in_map i j = true -> cell m i j = 0) ->
  m = Ref.empty_map.
Proof.
  intros [Hl Hf] Hz.
  apply (nth_ext m Ref.empty_map [] []); [exact Hl|].
  intros n Hn. rewrite Hl in Hn.
  assert (Hc : List.length (nth n m []) = Z.to_nat MAP_Y_DIM).
  { rewrite Forall_forall in Hf. apply Hf, nth_In. now rewrite Hl. }
  unfold Ref.empty_map. rewrite nth_repeat_lt by exact Hn.
  apply (nth_ext _ _ 0 0); [now rewrite repeat_length|].
  intros k Hk. rewrite Hc in Hk. rewrite nth_repeat_lt by exact Hk.
  specialize (Hz (Z.of_nat n) (Z.of_nat k)).
  unfold cell in Hz. rewrite !Nat2Z.id in Hz. apply Hz.
  apply in_map_range. unfold MAP_X_DIM, MAP_Y_DIM in *. lia.
Qed.

Lemma shaped_empty_map : shaped Ref.empty_map.
Proof.
  split; [reflexivity|]. repeat constructor.
Qed.

Lemma set_map_again (m m' : grid) (w w' : world) :
  w' = set_map m' w -> set_map m w' = set_map m w.
Proof. now intros ->. Qed.

(** *** [clear_map] *)

Lemma clear_map_spec (w : world) :
  shaped (my_map w) ->
  exists w', clear_map w = Some w' /\
             w' = set_map Ref.empty_map w.
Proof.
  intros Hs. unfold clear_map.
  destruct (for_int_invariant
    (fun y w' => shaped (my_map w') /\ w' = set_map (my_map w') w /\
                 forall i j, in_map i j = true -> j < y ->
                             cell (my_map w') i j = 0)
    0 MAP_Y_DIM
    (fun y => for_int 0 MAP_X_DIM (fun x => store_map x y 0)) w)
    as (w' & E & Hs' & Hw' & Hz).
  - unfold MAP_Y_DIM. lia.
  - intros y w1 Hy (Hs1 & Hw1 & Hz1).
    destruct (for_int_invariant
      (fun x w' => shaped (my_map w') /\ w' = set_map (my_map w') w /\
                   forall i j, in_map i j = true -> j < y \/ (j = y /\ i < x) ->
                               cell (my_map w') i j = 0)
      0 MAP_X_DIM (fun x => store_map x y 0) w1)
      as (w2 & E2 & Hs2 & Hw2 & Hz2).
    + unfold MAP_X_DIM. lia.
    + intros x w2 Hx (Hs2 & Hw2 & Hz2).
      assert (Hin : in_map x y = true) by (apply in_map_range; lia).
      unfold store_map. rewrite Hin. eexists. split; [reflexivity|].
      cbn [my_map set_map]. split; [now apply shaped_set_cell|].
      split; [eapply set_map_again, Hw2|].
      intros i j Hij Hlt. pose proof (proj1 (in_map_range i j) Hij) as Hr.
      rewrite cell_set_cell by (assumption || lia).
      destruct (Z.eqb_spec i x) as [->|Ni], (Z.eqb_spec j y) as [->|Nj];
        cbn [andb]; try reflexivity; apply Hz2; try assumption; lia.
    + split; [exact Hs1|]. split; [exact Hw1|].
      intros i j Hij Hlt. apply Hz1; [assumption|].
      apply in_map_range in Hij. lia.
    + exists w2. split; [exact E2|]. split; [exact Hs2|].
      split; [exact Hw2|]. intros i j Hij Hlt. apply Hz2; [assumption|].
      apply in_map_range in Hij. unfold MAP_X_DIM in *. lia.
  - split; [exact Hs|]. split; [now destruct w|]. intros i j Hij Hj.
    apply in_map_range in Hij. lia.
  - exists w'. split; [exact E|]. rewrite Hw'. f_equal.
    apply shaped_zero; [exact Hs'|]. intros i j Hij. apply Hz; [exact Hij|].
    apply in_map_range in Hij. lia.
Qed.

(** *** [randomize_map] *)

Lemma remapped_step (m m' : grid) (k k' : nat) (s0 s : sketch) :
  s = remapped m k s0 ->
  set_globals (set_map m' (globals (set_random_calls k' s)))
    (set_random_calls k' s) = remapped m' k' s0.
Proof. now intros ->. Qed.

Lemma remapped_store (m m' : grid) (k : nat) (s0 s : sketch) :
  s = remapped m k s0 ->
  set_globals (set_map m' (globals s)) s = remapped m' k s0.
Proof. now intros ->. Qed.

Lemma remapped_self (s : sketch) :
  s = remapped (my_map (globals s)) (random_calls s) s.
Proof. destruct s as [w ? ? ? ? ? ? ? ? ?]. now destruct w. Qed.

Section Generation.

Variable P : platform.
Variable A : core.

Lemma randomize_cells (density : Z) (s : sketch) :
  shaped (my_map (globals s)) ->
  exists s',
    for_int 0 MAP_Y_DIM
      (fun y =>
         for_int 0 MAP_X_DIM
           (fun x s =>
              let '(r, s1) := call_random A 0 100 s in
              if r <? density then try_globals (store_map x y 1) s1
              else try_globals (store_map x y 0) s1)) s = Some s' /\
    s' = remapped (my_map (globals s')) (random_calls s + 100) s /\
    shaped (my_map (globals s')) /\
    forall x y, in_map x y = true ->
      cell (my_map (globals s')) x y =
        drawn_cell A (random_calls s) density x y.
Proof.
  intros Hs. set (k0 := random_calls s).
  destruct (for_int_invariant
    (fun y s' =>
       shaped (my_map (globals s')) /\
       s' = remapped (my_map (globals s')) (k0 + cell_rank 0 y) s /\
       forall i j, in_map i j = true -> j < y ->
         cell (my_map (globals s')) i j = drawn_cell A k0 density i j)
    0 MAP_Y_DIM
    (fun y =>
         for_int 0 MAP_X_DIM
           (fun x s =>
              let '(r, s1) := call_random A 0 100 s in
              if r <? density then try_globals (store_map x y 1) s1
              else try_globals (store_map x y 0) s1)) s)
    as (s' & E & Hs' & Hw' & Hz).
  - unfold MAP_Y_DIM. lia.
  - intros y s1 Hy (Hs1 & Hw1 & Hz1).
    destruct (for_int_invariant
      (fun x s' =>
         shaped (my_map (globals s')) /\
         s' = remapped (my_map (globals s')) (k0 + cell_rank x y) s /\
         forall i j, in_map i j = true -> j < y \/ (j = y /\ i < x) ->
           cell (my_map (globals s')) i j = drawn_cell A k0 density i j)
      0 MAP_X_DIM
      (fun x s =>
              let '(r, s1) := call_random A 0 100 s in
              if r <? density then try_globals (store_map x y 1) s1
              else try_globals (store_map x y 0) s1) s1)
      as (s2 & E2 & Hs2 & Hw2 & Hz2).
    + unfold MAP_X_DIM. lia.
    + intros x s2 Hx (Hs2 & Hw2 & Hz2).
      assert (Hin : in_map x y = true) by (apply in_map_range; lia).
      assert (Hk : random_calls s2 = (k0 + cell_rank x y)%nat)
        by (rewrite Hw2; reflexivity).
      assert (Hn : S (k0 + cell_rank x y) = (k0 + cell_rank (x + 1) y)%nat)
        by (unfold cell_rank, MAP_X_DIM in *; lia).
      unfold call_random. rewrite Hk.
      set (v := if random A (k0 + cell_rank x y) 0 100 <? density
                then 1 else 0).
      exists (remapped (set_cell (my_map (globals s2)) x y v)
                (k0 + cell_rank (x + 1) y) s).
      split.
      { rewrite <- Hn. subst v.
        destruct (random A (k0 + cell_rank x y) 0 100 <? density);
          unfold try_globals, store_map;
          cbn [globals set_random_calls]; rewrite Hin;
          f_equal; eapply remapped_step, Hw2. }
      cbn [globals remapped set_random_calls set_globals my_map set_map].
      split; [now apply shaped_set_cell|]. split; [reflexivity|].
      intros i j Hij Hlt. pose proof (proj1 (in_map_range i j) Hij) as Hr.
      rewrite cell_set_cell by (assumption || lia).
      destruct (Z.eqb_spec i x) as [->|Ni], (Z.eqb_spec j y) as [->|Nj];
        cbn [andb]; try reflexivity; apply Hz2; try assumption; lia.
    + split; [exact Hs1|]. split; [exact Hw1|].
      intros i j Hij Hlt. apply Hz1; [assumption|].
      apply in_map_range in Hij. lia.
    + exists s2. split; [exact E2|]. split; [exact Hs2|].
      split.
      { rewrite Hw2 at 1. f_equal.
        unfold cell_rank, MAP_X_DIM in *. lia. }
      intros i j Hij Hlt. apply Hz2; [assumption|].
      apply in_map_range in Hij. unfold MAP_X_DIM in *. lia.
  - split; [exact Hs|]. split.
    + replace (k0 + cell_rank 0 0)%nat with (random_calls s)
        by (unfold cell_rank; cbn; lia).
      apply remapped_self.
    + intros i j Hij Hj. apply in_map_range in Hij. lia.
  - exists s'. split; [exact E|]. split.
    + rewrite Hw' at 1. reflexivity.
    + split; [exact Hs'|]. intros x y Hxy. apply Hz; [exact Hxy|].
      apply in_map_range in Hxy. lia.
Qed.

Lemma randomize_map_spec (density : Z) (s : sketch) :
  shaped (my_map (globals s)) ->
  in_map (to_int P (player_x (globals s))) (to_int P (player_y (globals s)))
    = true ->
  exists s',
    randomize_map P A density s = Some s' /\
    s' = remapped (my_map (globals s')) (random_calls s + 100) s /\
    shaped (my_map (globals s')) /\
    forall x y, in_map x y = true ->
      cell (my_map (globals s')) x y =
        generated_cell A (random_calls s) density
          (to_int P (player_x (globals s))) (to_int P (player_y (globals s)))
          x y.
Proof.
  intros Hs Hp. unfold randomize_map.
  destruct (randomize_cells density s Hs) as (s1 & E & Hw & Hs1 & Hc).
  rewrite E.
  assert (Ex : player_x (globals s1) = player_x (globals s))
    by (rewrite Hw; reflexivity).
  assert (Ey : player_y (globals s1) = player_y (globals s))
    by (rewrite Hw; reflexivity).
  rewrite Ex, Ey. unfold try_globals, store_map. rewrite Hp.
  eexists. split; [reflexivity|].
  cbn [globals set_globals my_map set_map]. split.
  - eapply remapped_store, Hw.
  - split; [now apply shaped_set_cell|]. intros x y Hxy.
    pose proof (proj1 (in_map_range x y) Hxy) as Hr.
    rewrite cell_set_cell by (assumption || lia).
    unfold generated_cell.
    destruct ((x =? to_int P (player_x (globals s))) &&
              (y =? to_int P (player_y (globals s)))); [reflexivity|].
    now apply Hc.
Qed.

Lemma randomize_map_outside (density : Z) (s : sketch) :
  shaped (my_map (globals s)) ->
  in_map (to_int P (player_x (globals s))) (to_int P (player_y (globals s)))
    = false ->
  randomize_map P A density s = None.
Proof.
  intros Hs Hp. unfold randomize_map.
  destruct (randomize_cells density s Hs) as (s1 & E & Hw & Hs1 & Hc).
  rewrite E.
  assert (Ex : player_x (globals s1) = player_x (globals s))
    by (rewrite Hw; reflexivity).
  assert (Ey : player_y (globals s1) = player_y (globals s))
    by (rewrite Hw; reflexivity).
  rewrite Ex, Ey. unfold try_globals, store_map. now rewrite Hp.
Qed.

End Generation.


(** *** [generate_wall_textures] *)

Lemma retextured_step (t t' : Z -> Z -> Z -> Z) (k k' : nat)
    (s0 s : sketch) :
  s = retextured t k s0 ->
  set_globals (set_wall_textures t' (globals (set_random_calls k' s)))
    (set_random_calls k' s) = retextured t' k' s0.
Proof. now intros ->. Qed.

Lemma retextured_self (s : sketch) :
  s = retextured (wall_textures (globals s)) (random_calls s) s.
Proof. destruct s as [w ? ? ? ? ? ? ? ? ?]. now destruct w. Qed.

Lemma in_textures_range (i x y : Z) :
  in_textures i x y = true <->
  0 <= i < NUM_WALL_TEXTURES /\ 0 <= x < WALL_TEXTURE_X_DIM /\
  0 <= y < WALL_TEXTURE_Y_DIM.
Proof.
  unfold in_textures. rewrite !andb_true_iff, !Z.leb_le, !Z.ltb_lt. lia.
Qed.

Section Textures.

Variable A : core.

Lemma generate_texel (s s' : sketch) (i x y : Z) :
  in_textures i x y = true ->
  textures_upto A s (texture_rank i x y) s' ->
  exists s'',
    (let '(r, s1) := call_random A 0 100 s' in
     let c := if r <? i * 5 then 1 else 0 in
     try_globals (store_texture i x y c) s1) = Some s'' /\
    textures_upto A s (texture_rank i x y + 1) s''.
Proof.
  intros Hin [Hw Ht].
  assert (Hk : random_calls s' = (random_calls s + texture_rank i x y)%nat)
    by (rewrite Hw; reflexivity).
  unfold call_random. rewrite Hk. cbv zeta.
  unfold try_globals, store_texture. rewrite Hin.
  eexists. split; [reflexivity|]. split.
  - cbn [globals set_globals wall_textures set_wall_textures].
    replace (random_calls s + (texture_rank i x y + 1))%nat
      with (S (random_calls s + texture_rank i x y)) by lia.
    eapply retextured_step, Hw.
  - intros i' x' y'.
    cbn [globals set_globals set_random_calls wall_textures
         set_wall_textures].
    rewrite Ht.
    destruct (in_textures i' x' y') eqn:Hin'; cbn [andb].
    + apply in_textures_range in Hin, Hin'.
      destruct (Z.eqb_spec i' i) as [->|Ni]; cbn [andb].
      * destruct (Z.eqb_spec x' x) as [->|Nx]; cbn [andb].
        -- destruct (Z.eqb_spec y' y) as [->|Ny].
           ++ replace (texture_rank i x y <? texture_rank i x y + 1)%nat
                with true by (symmetry; apply Nat.ltb_lt; lia).
              reflexivity.
           ++ replace (texture_rank i x y' <? texture_rank i x y + 1)%nat
                with (texture_rank i x y' <? texture_rank i x y)%nat;
                [reflexivity|].
              unfold texture_rank, WALL_TEXTURE_X_DIM, WALL_TEXTURE_Y_DIM in *.
              destruct (Nat.ltb_spec (Z.to_nat (3 * 3 * i + 3 * y' + x))
                          (Z.to_nat (3 * 3 * i + 3 * y + x)));
                symmetry; [apply Nat.ltb_lt|apply Nat.ltb_ge]; lia.
        -- replace (texture_rank i x' y' <? texture_rank i x y + 1)%nat
             with (texture_rank i x' y' <? texture_rank i x y)%nat;
             [reflexivity|].
           unfold texture_rank, WALL_TEXTURE_X_DIM, WALL_TEXTURE_Y_DIM in *.
           destruct (Nat.ltb_spec (Z.to_nat (3 * 3 * i + 3 * y' + x'))
                       (Z.to_nat (3 * 3 * i + 3 * y + x)));
             symmetry; [apply Nat.ltb_lt|apply Nat.ltb_ge]; lia.
      * replace (texture_rank i' x' y' <? texture_rank i x y + 1)%nat
          with (texture_rank i' x' y' <? texture_rank i x y)%nat;
          [reflexivity|].
        unfold texture_rank, WALL_TEXTURE_X_DIM, WALL_TEXTURE_Y_DIM in *.
        destruct (Nat.ltb_spec (Z.to_nat (3 * 3 * i' + 3 * y' + x'))
                    (Z.to_nat (3 * 3 * i + 3 * y + x)));
          symmetry; [apply Nat.ltb_lt|apply Nat.ltb_ge]; lia.
    + destruct ((i' =? i) && (x' =? x) && (y' =? y)) eqn:E; [|reflexivity].
      apply andb_prop in E as [E Ey]. apply andb_prop in E as [Ei Ex].
      apply Z.eqb_eq in Ei, Ex, Ey. subst. congruence.
Qed.

Lemma generate_wall_textures_spec (s : sketch) :
  exists s',
    generate_wall_textures A s = Some s' /\
    s' = retextured (wall_textures (globals s')) (random_calls s + 180) s /\
    forall i x y,
      wall_textures (globals s') i x y =
        if in_textures i x y then generated_texel A (random_calls s) i x y
        else wall_textures (globals s) i x y.
Proof.
  unfold generate_wall_textures.
  destruct (for_int_invariant
    (fun i s' => textures_upto A s (texture_rank i 0 0) s')
    0 NUM_WALL_TEXTURES
    (fun i =>
       for_int 0 WALL_TEXTURE_Y_DIM
         (fun y =>
            for_int 0 WALL_TEXTURE_X_DIM
              (fun x s =>
                 let '(r, s1) := call_random A 0 100 s in
                 let c := if r <? i * 5 then 1 else 0 in
                 try_globals (store_texture i x y c) s1))) s)
    as (s' & E & Hw & Ht).
  - unfold NUM_WALL_TEXTURES. lia.
  - intros i s1 Hi H1.
    destruct (for_int_invariant
      (fun y s' => textures_upto A s (texture_rank i 0 y) s')
      0 WALL_TEXTURE_Y_DIM
      (fun y =>
            for_int 0 WALL_TEXTURE_X_DIM
              (fun x s =>
                 let '(r, s1) := call_random A 0 100 s in
                 let c := if r <? i * 5 then 1 else 0 in
                 try_globals (store_texture i x y c) s1)) s1)
      as (s2 & E2 & H2).
    + unfold WALL_TEXTURE_Y_DIM. lia.
    + intros y s2 Hy H2.
      destruct (for_int_invariant
        (fun x s' => textures_upto A s (texture_rank i x y) s')
        0 WALL_TEXTURE_X_DIM
        (fun x s =>
                 let '(r, s1) := call_random A 0 100 s in
                 let c := if r <? i * 5 then 1 else 0 in
                 try_globals (store_texture i x y c) s1) s2)
        as (s3 & E3 & H3).
      * unfold WALL_TEXTURE_X_DIM. lia.
      * intros x s3 Hx H3.
        destruct (generate_texel s s3 i x y) as (s4 & E4 & H4).
        -- apply in_textures_range. lia.
        -- exact H3.
        -- exists s4. split; [exact E4|].
           replace (texture_rank i (x + 1) y)
             with (texture_rank i x y + 1)%nat; [exact H4|].
           unfold texture_rank, WALL_TEXTURE_X_DIM, WALL_TEXTURE_Y_DIM in *.
           lia.
      * exact H2.
      * exists s3. split; [exact E3|].
        replace (texture_rank i 0 (y + 1))
          with (texture_rank i WALL_TEXTURE_X_DIM y); [exact H3|].
        unfold texture_rank, WALL_TEXTURE_X_DIM, WALL_TEXTURE_Y_DIM in *.
        lia.
    + exact H1.
    + exists s2. split; [exact E2|].
      replace (texture_rank (i + 1) 0 0)
        with (texture_rank i 0 WALL_TEXTURE_Y_DIM); [exact H2|].
      unfold texture_rank, WALL_TEXTURE_X_DIM, WALL_TEXTURE_Y_DIM in *.
      lia.
  - split.
    + replace (random_calls s + texture_rank 0 0 0)%nat
        with (random_calls s) by (unfold texture_rank; cbn; lia).
      apply retextured_self.
    + intros i x y. replace (texture_rank i x y <? texture_rank 0 0 0)%nat
        with false
        by (symmetry; apply Nat.ltb_ge; unfold texture_rank; cbn; lia).
      now rewrite andb_false_r.
  - exists s'. split; [exact E|]. split; [exact Hw|].
    intros i x y. rewrite Ht.
    destruct (in_textures i x y) eqn:Hin; [|reflexivity]. cbn [andb].
    apply in_textures_range in Hin.
    replace (texture_rank i x y <? texture_rank NUM_WALL_TEXTURES 0 0)%nat
      with true; [reflexivity|].
    symmetry. apply Nat.ltb_lt.
    unfold texture_rank, NUM_WALL_TEXTURES, WALL_TEXTURE_X_DIM,
      WALL_TEXTURE_Y_DIM in *. lia.
Qed.

End Textures.


(** *** The pixels of a sliver *)

Lemma zrange_cons (lo : Z) (n : nat) :
  zrange lo (S n) = lo :: zrange (lo + 1) n.
Proof.
  unfold zrange. cbn [seq map]. f_equal; [lia|].
  rewrite <- seq_shift, map_map. apply map_ext. intros a. lia.
Qed.

Lemma put_pixel_draws (x y c : Z) (w : world) :
  put_pixel x y c w = set_display ((x, y, c >? 0) :: display w) w.
Proof. unfold put_pixel. now destruct (c >? 0). Qed.

Lemma set_display_twice (a b : list (Z * Z * bool)) (w : world) :
  set_display a (set_display b w) = set_display a w.
Proof. reflexivity. Qed.

Lemma display_set_display (d : list (Z * Z * bool)) (w : world) :
  display (set_display d w) = d.
Proof. reflexivity. Qed.

Lemma wall_textures_set_display (d : list (Z * Z * bool)) (w : world) :
  wall_textures (set_display d w) = wall_textures w.
Proof. reflexivity. Qed.

Lemma set_display_self (w : world) : set_display (display w) w = w.
Proof. now destruct w. Qed.

Lemma slivers_checked : forallb sliver_ok (seq 1 FULL_SCAN) = true.
Proof. vm_compute. reflexivity. Qed.

Section Sliver.

Variable P : platform.

Lemma render_rows_pixels (fuel : nat) (x : Z) (h smy half : f32)
    (t : Z -> Z -> Z -> Z) (w0 : world) :
  forall (y : Z) (n : nat) (d : list (Z * Z * bool)),
  rows_count fuel (fsub (fadd smy half) (of_int 1)) y = Some n ->
  wall_textures w0 = t ->
  let wi := to_int P (fmul (fdiv h (of_int screen_height))
                           (of_int NUM_WALL_TEXTURES)) in
  let wi := if wi >? NUM_WALL_TEXTURES - 1 then NUM_WALL_TEXTURES - 1
            else wi in
  render_rows P fuel x h smy half y (set_display d w0) =
    Some (set_display
            (rev (map (fun y =>
                         (x, y,
                          t wi (Z.rem x WALL_TEXTURE_X_DIM)
                            (Z.rem y WALL_TEXTURE_Y_DIM) >? 0))
                      (zrange y n)) ++ d) w0).
Proof.
  induction fuel as [|fuel IH]; intros y n d Hc Ht; cbn [rows_count] in Hc;
    [discriminate|].
  cbv zeta. cbn [render_rows].
  destruct (fle (of_int y) (fsub (fadd smy half) (of_int 1))).
  - destruct (rows_count fuel _ (y + 1)) as [n'|] eqn:En; [|discriminate].
    injection Hc as <-. rewrite put_pixel_draws.
    rewrite set_display_twice, display_set_display,
      wall_textures_set_display.
    pose proof (IH (y + 1) n' ((x, y,
                  wall_textures w0
                    (if to_int P (fmul (fdiv h (of_int screen_height))
                                       (of_int NUM_WALL_TEXTURES))
                        >? NUM_WALL_TEXTURES - 1
                     then NUM_WALL_TEXTURES - 1
                     else to_int P (fmul (fdiv h (of_int screen_height))
                                         (of_int NUM_WALL_TEXTURES)))
                    (Z.rem x WALL_TEXTURE_X_DIM)
                    (Z.rem y WALL_TEXTURE_Y_DIM) >? 0) :: d) En Ht) as E.
    cbv zeta in E. rewrite E.
    rewrite zrange_cons. cbn [map rev]. rewrite <- app_assoc. cbn [app].
    rewrite Ht. reflexivity.
  - injection Hc as <-. reflexivity.
Qed.

Lemma render_sliver_pixels (x : Z) (c : f32) (w : world) (k : nat) :
  (1 <= k <= FULL_SCAN)%nat ->
  render_sliver P x (hgt k) c w =
    Some (set_display (sliver_pixels (wall_textures w) x k ++ display w) w).
Proof.
  intros Hk. pose proof slivers_checked as H.
  rewrite forallb_forall in H.
  assert (Hin : In k (seq 1 FULL_SCAN)) by (apply in_seq; lia).
  specialize (H k Hin). unfold sliver_ok in H. cbv zeta in H.
  apply andb_prop in H as [H Hwi]. apply andb_prop in H as [H Hdw].
  apply andb_prop in H as [H Hrows]. apply andb_prop in H as [H Hf].
  apply andb_prop in H as [H Hdf]. apply andb_prop in H as [H Hb].
  apply andb_prop in H as [H Hdb]. apply andb_prop in H as [Hdt Ht].
  apply Z.eqb_eq in Ht, Hb, Hf, Hwi.
  unfold render_sliver. cbv zeta.
  rewrite (to_int_defined P _ Hdt), (to_int_defined P _ Hdb),
    (to_int_defined P _ Hdf), Ht, Hb.
  rewrite !put_pixel_draws.
  rewrite set_display_twice, display_set_display.
  change (1 >? 0) with true.
  destruct (rows_count RENDER_FUEL _ _) as [n|] eqn:En; [|discriminate].
  apply Nat.eqb_eq in Hrows. subst n.
  rewrite (render_rows_pixels RENDER_FUEL x (hgt k) _ _ (wall_textures w) w
             _ _ _ En eq_refl).
  cbv zeta. rewrite (to_int_defined P _ Hdw), Hwi, Hf.
  unfold sliver_pixels. rewrite <- app_assoc. reflexivity.
Qed.

End Sliver.


Lemma height_indices_checked :
  forallb (fun k => Nat.eqb (height_index (hgt k)) k) (seq 0 (S FULL_SCAN))
    = true.
Proof. vm_compute. reflexivity. Qed.

Lemma height_index_hgt (k : nat) :
  (k <= FULL_SCAN)%nat -> height_index (hgt k) = k.
Proof.
  intros Hk. pose proof height_indices_checked as H.
  rewrite forallb_forall in H. apply Nat.eqb_eq, H, in_seq. lia.
Qed.

Section Picture.

Variable P : platform.

Lemma scan_pixels (k : nat) :
  (k <= FULL_SCAN)%nat ->
  forall (fuel : nat) (sliver : Z) (theta : f32) (w w' : world) (c : column),
  scan P fuel sliver theta (hgt k) w = Some (w', c) ->
  (col_hit c = true ->
     exists j, (1 <= j <= k)%nat /\ col_wall_height c = hgt j) /\
  display w' = column_pixels (wall_textures w) (sliver, c) ++ display w /\
  serial w' = serial w /\ tones w' = tones w /\
  List.length (seeds w') =
    ((if col_hit c then 1 else 0) + List.length (seeds w))%nat.
Proof.
  induction k as [|k IH]; intros Hk fuel sliver theta w w' c;
    (destruct fuel as [|fuel]; [discriminate|]); cbn [scan].
  - rewrite hgt_zero_not_positive. intros [= <- <-].
    split; [discriminate|]. repeat split.
  - rewrite hgt_positive by lia.
    pose proof (probe_spec P
                  (fadd (player_x w)
                     (fmul (radius (hgt (S k))) (cos P (to_radians theta))))
                  (fadd (player_y w)
                     (fmul (radius (hgt (S k))) (sin P (to_radians theta))))
                  w) as (_ & Hmore & _).
    destruct (probe P _ _ w) as [hit w1]. cbn [snd] in Hmore.
    destruct Hmore as ((_ & _ & _ & _ & Ht) & Hd & Hsd & Hser & Hton & _).
    destruct hit.
    + rewrite render_sliver_pixels by lia. intros [= <- <-].
      split; [intros _; exists (S k); split; [lia|reflexivity]|].
      unfold column_pixels. cbn [fst snd col_hit col_wall_height].
      rewrite height_index_hgt by lia.
      rewrite display_set_display.
      cbn [display wall_textures randomSeed serial tones seeds set_display
           List.length].
      now rewrite Ht, Hd, Hsd.
    + rewrite hgt_step by lia. cbn [pred].
      destruct (scan P fuel sliver theta (hgt k) w1) as [[w2 c2]|] eqn:E;
        [|discriminate].
      intros [= <- <-].
      destruct (IH ltac:(lia) fuel sliver theta w1 w2 c2 E)
        as (Hh & Hp & Hs2 & Ht2 & Hl2).
      split.
      * cbn [col_hit col_wall_height add_sample]. intros H.
        destruct (Hh H) as (j & Hj & Ej). exists j. split; [lia|exact Ej].
      * rewrite Hp, Ht, Hd. cbn [col_hit add_sample].
        repeat split; congruence.
Qed.

Lemma cast_columns_pixels (fuel : nat) :
  forall (sliver : Z) (theta : f32) (w w' : world) (cs : list (Z * column)),
  cast_columns P fuel sliver theta w = Some (w', cs) ->
  display w' =
    flat_map (column_pixels (wall_textures w)) (rev cs) ++ display w /\
  serial w' = serial w /\ tones w' = tones w /\
  List.length (seeds w') =
    (List.length (filter (fun ic => col_hit (snd ic)) cs)
     + List.length (seeds w))%nat.
Proof.
  induction fuel as [|fuel IH]; intros sliver theta w w' cs;
    [discriminate|]. cbn [cast_columns].
  destruct (sliver <? NUM_SLIVERS).
  - destruct (scan_column P sliver theta w) as (w1 & c & E & Hp).
    rewrite E.
    destruct (cast_columns P fuel (sliver + 1) (fadd theta theta_inc) w1)
      as [[w2 cs2]|] eqn:E2; [|discriminate].
    intros [= <- <-].
    destruct (IH _ _ _ _ _ E2) as (Hd2 & Hs2 & Ht2 & Hl2).
    rewrite <- hgt_full_scan in E.
    destruct (scan_pixels FULL_SCAN (Nat.le_refl _) _ _ _ _ _ _ E)
      as (_ & Hd & Hs1 & Ht1 & Hl1).
    destruct Hp as ((_ & _ & _ & _ & Ht) & _).
    split; [|split; [congruence|split; [congruence|]]];
      [|cbn [filter snd]; rewrite Hl2, Hl1;
        destruct (col_hit c); cbn [List.length]; lia].
    rewrite Hd2, Hd, Ht. cbn [rev]. rewrite flat_map_app. cbn [flat_map].
    rewrite app_nil_r, <- app_assoc. reflexivity.
  - intros [= <- <-]. repeat split.
Qed.

Lemma sliver_pixels_near (t : Z -> Z -> Z -> Z) (x : Z) (k : nat) :
  (1 <= k <= FULL_SCAN)%nat -> 0 <= x < SCREEN_WIDTH ->
  Forall near_screen (sliver_pixels t x k).
Proof.
  intros Hk Hx. unfold sliver_pixels. apply Forall_app. split.
  - apply Forall_rev, Forall_map, Forall_forall. intros y Hy.
    unfold zrange in Hy. apply in_map_iff in Hy as (i & <- & Hi).
    apply in_seq in Hi. unfold near_screen. cbn [fst snd].
    unfold FULL_SCAN, screen_height, SCREEN_HEIGHT in *.
    change (64 / 2) with 32 in *. change (Z.to_nat 32) with 32%nat in *.
    lia.
  - unfold near_screen. repeat constructor; cbn [fst snd]; try lia;
      unfold FULL_SCAN, screen_height, SCREEN_HEIGHT in *;
      change (64 / 2) with 32 in *; change (Z.to_nat 32) with 32%nat in *;
      lia.
Qed.

End Picture.


(** *** Painting *)

Lemma paint_app (l1 l2 : list (Z * Z * bool)) (s : sketch) :
  paint l2 (paint l1 s) = paint (l2 ++ l1) s.
Proof.
  unfold paint, on_globals. cbn [globals set_globals display set_display].
  now rewrite app_assoc.
Qed.

Lemma paint_nil (s : sketch) : paint [] s = s.
Proof. destruct s as [w ? ? ? ? ? ? ? ? ?]. now destruct w. Qed.

Lemma put_pixel_paints (x y c : Z) (s : sketch) :
  on_globals (put_pixel x y c) s = paint [(x, y, c >? 0)] s.
Proof. unfold on_globals, paint. now rewrite put_pixel_draws. Qed.

Lemma zrange_snoc (lo : Z) (n : nat) :
  zrange lo (S n) = zrange lo n ++ [lo + Z.of_nat n].
Proof. unfold zrange. now rewrite seq_S, map_app. Qed.

Lemma rounds_paint (g : Z -> list (Z * Z * bool))
    (body : Z -> sketch -> option sketch) (n : nat) :
  forall (lo : Z) (s : sketch),
  (forall i s, lo <= i < lo + Z.of_nat n -> body i s = Some (paint (g i) s)) ->
  rounds n lo body s = Some (paint (flat_map g (rev (zrange lo n))) s).
Proof.
  induction n as [|n IH]; intros lo s Hb.
  - cbn. now rewrite paint_nil.
  - cbn [rounds]. rewrite Hb by lia. rewrite IH by (intros; apply Hb; lia).
    rewrite paint_app. rewrite zrange_cons. cbn [rev].
    rewrite flat_map_app. cbn [flat_map]. now rewrite app_nil_r.
Qed.

Lemma for_int_paint (g : Z -> list (Z * Z * bool))
    (body : Z -> sketch -> option sketch) (lo hi : Z) (s : sketch) :
  (forall i s, lo <= i < hi -> body i s = Some (paint (g i) s)) ->
  for_int lo hi body s =
    Some (paint (flat_map g (rev (zrange lo (Z.to_nat (hi - lo))))) s).
Proof.
  intros Hb. unfold for_int. apply rounds_paint.
  intros i t Hi. apply Hb. lia.
Qed.

Lemma pete_rect_paints (x1 y1 x2 y2 : Z) (s : sketch) :
  pete_rect x1 y1 x2 y2 s =
    Some (paint (rect_pixels (fill_color s) x1 y1 x2 y2) s).
Proof.
  unfold pete_rect, rect_pixels. cbv zeta.
  apply for_int_paint. intros y t _.
  apply for_int_paint. intros x u _.
  now rewrite put_pixel_paints.
Qed.

(** *** The floats of the integers of an [int] *)

Lemma all_from_spec (f : Z -> bool) (n : nat) :
  forall a, all_from n a f = true ->
            forall z, a <= z < a + Z.of_nat n -> f z = true.
Proof.
  induction n as [|n IH]; intros a H z Hz; [lia|].
  cbn [all_from] in H. apply andb_prop in H as [Ha Hr].
  destruct (Z.eq_dec z a) as [->|Hne]; [exact Ha|].
  apply (IH (a + 1) Hr). lia.
Qed.

Lemma int_floats_checked :
  all_from (Z.to_nat (INT_MAX - INT_MIN + 1)) INT_MIN int_float_ok = true.
Proof. vm_compute. reflexivity. Qed.

Lemma int_float_facts (a : Z) :
  is_int a ->
  valid (of_int a) = true /\ is_finite (of_int a) = true /\
  valid (of_int (a + 1)) = true /\ is_finite (of_int (a + 1)) = true /\
  rank (of_int a) < rank (of_int (a + 1)) /\
  int_defined (of_int a) = true /\ trunc (of_int a) = a /\
  fadd (of_int a) (of_int 1) = of_int (a + 1).
Proof.
  intros Ha.
  assert (Hr : INT_MIN <= a
               < INT_MIN + Z.of_nat (Z.to_nat (INT_MAX - INT_MIN + 1)))
    by (unfold is_int, INT_MIN, INT_MAX in *; lia).
  pose proof (all_from_spec _ _ _ int_floats_checked a Hr) as H.
  unfold int_float_ok in H. cbv zeta in H.
  andb_split H.
  repeat split; try assumption.
  - now apply Z.ltb_lt.
  - now apply Z.eqb_eq.
  - now apply same_float_eq.
Qed.

Lemma rank_of_int_mono (a b : Z) :
  is_int a -> is_int b -> a < b -> rank (of_int a) < rank (of_int b).
Proof.
  intros Ha Hb Hlt.
  assert (H : forall n : nat, is_int (a + Z.of_nat n + 1) ->
                rank (of_int a) < rank (of_int (a + Z.of_nat n + 1))).
  { induction n as [|n IH]; intros Hn.
    - rewrite Z.add_0_r. now apply int_float_facts.
    - assert (Hi : is_int (a + Z.of_nat n + 1))
        by (unfold is_int in *; lia).
      specialize (IH Hi).
      destruct (int_float_facts _ Hi) as (_ & _ & _ & _ & Hr & _).
      replace (a + Z.of_nat (S n) + 1) with (a + Z.of_nat n + 1 + 1) by lia.
      lia. }
  specialize (H (Z.to_nat (b - a - 1))).
  replace (a + Z.of_nat (Z.to_nat (b - a - 1)) + 1) with b in H by lia.
  now apply H.
Qed.

Lemma flt_rank (x y : f32) :
  valid x = true -> valid y = true ->
  is_finite x = true -> is_finite y = true ->
  flt x y = (rank x <? rank y).
Proof.
  intros Vx Vy Fx Fy.
  destruct x as [sx|sx| |sx mx ex], y as [sy|sy| |sy my ey];
    try discriminate; unfold flt, SFltb, SFcompare, rank; cbv zeta.
  - reflexivity.
  - apply valid_finite in Vy as (Hd & He & _ & _).
    destruct sy; symmetry; [apply Z.ltb_ge|apply Z.ltb_lt]; lia.
  - apply valid_finite in Vx as (Hd & He & _ & _).
    destruct sx; symmetry; [apply Z.ltb_lt|apply Z.ltb_ge]; lia.
  - apply valid_finite in Vx as (Hdx & Hex & _ & _).
    apply valid_finite in Vy as (Hdy & Hey & _ & _).
    rewrite Zdigits2_log2 in Hdx, Hdy by lia.
    assert (Bx : Zpos mx < 2 ^ 24)
      by (apply Z.log2_lt_pow2; lia).
    assert (By : Zpos my < 2 ^ 24)
      by (apply Z.log2_lt_pow2; lia).
    change (Pos.compare_cont Eq mx my) with (Pos.compare mx my).
    change (2 ^ 24) with 16777216 in *.
    destruct sx, sy.
    + destruct (Z.compare_spec ex ey) as [E|E|E].
      * subst. rewrite Pos.compare_antisym, CompOpp_involutive.
        destruct (Pos.compare_spec my mx) as [H|H|H]; symmetry;
          try (apply Z.ltb_ge; lia); try (apply Z.ltb_lt; lia).
      * symmetry. apply Z.ltb_ge. lia.
      * symmetry. apply Z.ltb_lt. lia.
    + symmetry. apply Z.ltb_lt. lia.
    + symmetry. apply Z.ltb_ge. lia.
    + destruct (Z.compare_spec ex ey) as [E|E|E].
      * subst.
        destruct (Pos.compare_spec mx my) as [H|H|H]; symmetry;
          try (apply Z.ltb_ge; lia); try (apply Z.ltb_lt; lia).
      * symmetry. apply Z.ltb_lt. lia.
      * symmetry. apply Z.ltb_ge. lia.
Qed.

Lemma flt_of_int (a b : Z) :
  is_int a -> is_int b -> flt (of_int a) (of_int b) = (a <? b).
Proof.
  intros Ha Hb.
  destruct (int_float_facts a Ha) as (Va & Fa & _).
  destruct (int_float_facts b Hb) as (Vb & Fb & _).
  rewrite flt_rank by assumption.
  destruct (Z.ltb_spec a b) as [H|H].
  - apply Z.ltb_lt. now apply rank_of_int_mono.
  - apply Z.ltb_ge. destruct (Z.eq_dec a b) as [->|Hne]; [lia|].
    pose proof (rank_of_int_mono b a Hb Ha). lia.
Qed.

(** *** [pete_line] *)

Section Line.

Variable P : platform.

Lemma line_rows_paints (x : f32) (c yhi : Z) (n : nat) :
  forall (fuel : nat) (a : Z) (s : sketch),
  is_int a -> is_int yhi -> a + Z.of_nat n = yhi -> (n < fuel)%nat ->
  line_rows P fuel x (of_int yhi) c (of_int a) s =
    Some (paint (flat_map (fun y => [(to_int P x, y, c >? 0)])
                          (rev (zrange a n))) s).
Proof.
  induction n as [|n IH]; intros fuel a s Ha Hy Hn Hf;
    (destruct fuel as [|fuel]; [lia|]); cbn [line_rows];
    rewrite flt_of_int by assumption.
  - replace (a <? yhi) with false by (symmetry; apply Z.ltb_ge; lia).
    cbn. now rewrite paint_nil.
  - replace (a <? yhi) with true by (symmetry; apply Z.ltb_lt; lia).
    destruct (int_float_facts a Ha) as (_ & _ & _ & _ & _ & Hd & Ht & Hs).
    rewrite Hs, (to_int_defined P _ Hd), Ht, put_pixel_paints.
    rewrite IH; try lia; try assumption;
      [|unfold is_int in *; lia].
    rewrite paint_app, zrange_cons. cbn [rev]. rewrite flat_map_app.
    cbn [flat_map]. now rewrite app_nil_r.
Qed.

Lemma pete_line_paints (x1 y1 x2 y2 : Z) (s : sketch) :
  is_int x1 -> is_int y1 -> is_int x2 -> is_int y2 ->
  pete_line P x1 y1 x2 y2 s =
    Some (paint (line_pixels P (stroke_color s) x1 y1 x2 y2) s).
Proof.
  intros Hx1 Hy1 Hx2 Hy2. unfold pete_line, line_pixels.
  assert (H : exists xa ya xb yb,
             (if x2 <? x1 then (x2, y2, x1, y1) else (x1, y1, x2, y2))
               = (xa, ya, xb, yb) /\
             is_int xa /\ is_int ya /\ is_int xb /\ is_int yb).
  { destruct (x2 <? x1); eexists _, _, _, _; (split; [reflexivity|]); auto. }
  destruct H as (xa & ya & xb & yb & -> & Hxa & Hya & Hxb & Hyb).
  cbv zeta. destruct (Z.eqb_spec xa xb) as [E|E]; cbn [negb].
  - destruct (int_float_facts xa Hxa) as (_ & _ & _ & _ & _ & Hd & Ht & _).
    destruct (Z.ltb_spec ya yb) as [L|L].
    + rewrite (line_rows_paints _ _ yb (Z.to_nat (yb - ya)));
        try assumption; try lia;
        [|unfold LINE_FUEL, is_int, INT_MIN, INT_MAX in *; lia].
      rewrite (to_int_defined P _ Hd), Ht.
      replace (Z.min ya yb) with ya by lia.
      replace (Z.abs (yb - ya)) with (yb - ya) by lia. reflexivity.
    + rewrite (line_rows_paints _ _ ya (Z.to_nat (ya - yb)));
        try assumption; try lia;
        [|unfold LINE_FUEL, is_int, INT_MIN, INT_MAX in *; lia].
      rewrite (to_int_defined P _ Hd), Ht.
      replace (Z.min ya yb) with yb by lia.
      replace (Z.abs (yb - ya)) with (ya - yb) by lia. reflexivity.
  - apply for_int_paint. intros x t _. now rewrite put_pixel_paints.
Qed.

End Line.


(** *** The overlay *)

Lemma visited_app (p1 p2 : list (Z * Z * bool)) (r1 r2 : list (Z * Z))
    (w : world) :
  visited p2 r2 (visited p1 r1 w) = visited (p2 ++ p1) (r2 ++ r1) w.
Proof.
  unfold visited, set_map_reads, set_display.
  cbn [my_map player_x player_y player_bearing wall_textures display seeds
       serial tones map_reads].
  now rewrite !app_assoc.
Qed.

Lemma visited_nil (w : world) : visited [] [] w = w.
Proof. now destruct w. Qed.

Lemma traced_app (f1 f2 : list Z) (p1 p2 : list (Z * Z * bool))
    (r1 r2 : list (Z * Z)) (s : sketch) :
  traced f2 p2 r2 (traced f1 p1 r1 s) =
    traced (f2 ++ f1) (p2 ++ p1) (r2 ++ r1) s.
Proof.
  unfold traced, on_globals.
  cbn [globals set_globals set_fill_color fill_color stroke_color
       frame_number random_calls line text_calls shown pin_modes bauds].
  rewrite visited_app. now destruct f2.
Qed.

Lemma traced_nil (s : sketch) : traced [] [] [] s = s.
Proof. destruct s as [w ? ? ? ? ? ? ? ? ?]. now destruct w. Qed.

Lemma paint_traced (l : list (Z * Z * bool)) (s : sketch) :
  paint l s = traced [] l [] s.
Proof. destruct s as [w ? ? ? ? ? ? ? ? ?]. now destruct w. Qed.

Lemma rounds_visited (m : grid) (g : Z -> list (Z * Z * bool))
    (r : Z -> list (Z * Z)) (body : Z -> world -> option world) (n : nat) :
  forall (lo : Z) (w : world),
  (forall i w, lo <= i < lo + Z.of_nat n -> my_map w = m ->
               body i w = Some (visited (g i) (r i) w)) ->
  my_map w = m ->
  rounds n lo body w =
    Some (visited (flat_map g (rev (zrange lo n)))
                  (flat_map r (rev (zrange lo n))) w).
Proof.
  induction n as [|n IH]; intros lo w Hb Hm.
  - cbn. now rewrite visited_nil.
  - cbn [rounds]. rewrite Hb by (lia || assumption).
    rewrite IH; [|intros; apply Hb; (lia || assumption)|exact Hm].
    rewrite visited_app, zrange_cons. cbn [rev].
    rewrite !flat_map_app. cbn [flat_map]. now rewrite !app_nil_r.
Qed.

Lemma rounds_traced (m : grid) (f : Z -> list Z)
    (g : Z -> list (Z * Z * bool)) (r : Z -> list (Z * Z))
    (body : Z -> sketch -> option sketch) (n : nat) :
  forall (lo : Z) (s : sketch),
  (forall i s, lo <= i < lo + Z.of_nat n -> my_map (globals s) = m ->
               body i s = Some (traced (f i) (g i) (r i) s)) ->
  my_map (globals s) = m ->
  rounds n lo body s =
    Some (traced (flat_map f (rev (zrange lo n)))
                 (flat_map g (rev (zrange lo n)))
                 (flat_map r (rev (zrange lo n))) s).
Proof.
  induction n as [|n IH]; intros lo s Hb Hm.
  - cbn. now rewrite traced_nil.
  - cbn [rounds]. rewrite Hb by (lia || assumption).
    rewrite IH; [|intros; apply Hb; (lia || assumption)|exact Hm].
    rewrite traced_app, zrange_cons. cbn [rev].
    rewrite !flat_map_app. cbn [flat_map]. now rewrite !app_nil_r.
Qed.

Lemma flat_map_singleton {A B : Type} (f : A -> B) (l : list A) :
  flat_map (fun a => [f a]) l = map f l.
Proof. induction l as [|a l IH]; cbn; congruence. Qed.

Section Overlay.

Variable P : platform.

Lemma draw_map_small_spec (w : world) :
  draw_map_small P w =
    Some (visited (small_pixels (my_map w)) cells_backward w).
Proof.
  unfold draw_map_small, for_int.
  rewrite (rounds_visited (my_map w)
             (fun y => map (fun x => (x, y, cell (my_map w) x y >? 0))
                           (rev (zrange 0 (Z.to_nat (MAP_X_DIM - 0)))))
             (fun y => map (fun x => (x, y))
                           (rev (zrange 0 (Z.to_nat (MAP_X_DIM - 0))))));
    [| |reflexivity].
  - reflexivity.
  - intros y w1 Hy Hm.
    rewrite (rounds_visited (my_map w)
               (fun x => [(x, y, cell (my_map w) x y >? 0)])
               (fun x => [(x, y)])); [| |exact Hm].
    + now rewrite !flat_map_singleton.
    + intros x w2 Hx Hm2. unfold read_map, map_value.
      replace (in_map x y) with true
        by (symmetry; apply in_map_range; lia).
      rewrite put_pixel_draws, Hm2. reflexivity.
Qed.

Lemma draw_map_cells (s : sketch) :
  for_int 0 MAP_Y_DIM
    (fun y =>
       for_int 0 MAP_X_DIM
         (fun x s =>
            let '(c, w1) := read_map P x y (globals s) in
            let x1 := x * map_block_dim in
            let y1 := y * map_block_dim in
            let x2 := (x + 1) * map_block_dim in
            let y2 := (y + 1) * map_block_dim in
            pete_rect x1 y1 x2 y2 (set_fill_color c (set_globals w1 s)))) s =
  Some (traced (map (fun xy => cell (my_map (globals s)) (fst xy) (snd xy))
                    cells_backward)
               (overlay_pixels (my_map (globals s))) cells_backward s).
Proof.
  set (m := my_map (globals s)). unfold for_int.
  rewrite (rounds_traced m
             (fun y => map (fun x => cell m x y)
                           (rev (zrange 0 (Z.to_nat (MAP_X_DIM - 0)))))
             (fun y => flat_map
                         (fun x => rect_pixels (cell m x y)
                                     (x * map_block_dim) (y * map_block_dim)
                                     ((x + 1) * map_block_dim)
                                     ((y + 1) * map_block_dim))
                         (rev (zrange 0 (Z.to_nat (MAP_X_DIM - 0)))))
             (fun y => map (fun x => (x, y))
                           (rev (zrange 0 (Z.to_nat (MAP_X_DIM - 0))))));
    [| |reflexivity].
  - reflexivity.
  - intros y s1 Hy Hm.
    rewrite (rounds_traced m
               (fun x => [cell m x y])
               (fun x => rect_pixels (cell m x y)
                           (x * map_block_dim) (y * map_block_dim)
                           ((x + 1) * map_block_dim) ((y + 1) * map_block_dim))
               (fun x => [(x, y)])); [| |exact Hm].
    + now rewrite !flat_map_singleton.
    + intros x s2 Hx Hm2. unfold read_map, map_value.
      replace (in_map x y) with true
        by (symmetry; apply in_map_range; lia).
      cbv zeta. rewrite pete_rect_paints. rewrite Hm2.
      destruct s2 as [w2 ? ? ? ? ? ? ? ? ?]. now destruct w2.
Qed.

Lemma to_int_is_int (x : f32) : int_casts P -> is_int (to_int P x).
Proof.
  intros Hc. unfold to_int. destruct (int_defined x) eqn:E; [|apply Hc].
  unfold int_defined in E. andb_split E.
  unfold is_int. rewrite Z.leb_le in *. lia.
Qed.

End Overlay.


Lemma paint_stroke (l : list (Z * Z * bool)) (c : Z) (s : sketch) :
  paint l (set_stroke_color c s) = set_stroke_color c (paint l s).
Proof. reflexivity. Qed.

Lemma stroke_color_set (c : Z) (s : sketch) :
  stroke_color (set_stroke_color c s) = c.
Proof. reflexivity. Qed.

Section OverlayFacts.

Variable P : platform.

Lemma draw_map_spec (s : sketch) :
  int_casts P ->
  draw_map P s =
    Some (set_stroke_color 1
            (traced (map (fun xy => cell (my_map (globals s)) (fst xy) (snd xy))
                         cells_backward)
                    (map_pixels P (globals s)) cells_backward s)).
Proof.
  intros Hc. unfold draw_map. rewrite draw_map_cells.
  set (s1 := traced _ _ _ s). cbv zeta.
  change (player_x (globals s1)) with (player_x (globals s)).
  change (player_y (globals s1)) with (player_y (globals s)).
  change (player_bearing (globals s1)) with (player_bearing (globals s)).
  fold (marker_x P (globals s)) (marker_y P (globals s)).
  fold (to_radians (player_bearing (globals s))).
  fold (look_x P (globals s)) (look_y P (globals s)).
  rewrite pete_line_paints by (apply to_int_is_int; exact Hc).
  rewrite put_pixel_paints, paint_app.
  rewrite paint_stroke, stroke_color_set. f_equal. f_equal.
  subst s1. rewrite paint_traced, traced_app. reflexivity.
Qed.

End OverlayFacts.

(** *** The pixels of the overlay *)

Lemma zrange_iff (lo : Z) (n : nat) (z : Z) :
  In z (zrange lo n) <-> lo <= z < lo + Z.of_nat n.
Proof.
  split; [|apply zrange_in]. unfold zrange. intros H.
  apply in_map_iff in H as (i & <- & Hi). apply in_seq in Hi. lia.
Qed.

Lemma rect_pixels_iff (c x1 y1 x2 y2 : Z) (p : Z * Z * bool) :
  In p (rect_pixels c x1 y1 x2 y2) <->
  x1 <= fst (fst p) < x2 /\ y1 <= snd (fst p) < y2 /\ snd p = (c >? 0).
Proof.
  unfold rect_pixels. rewrite in_flat_map. split.
  - intros (y & Hy & H). apply in_flat_map in H as (x & Hx & [<-|[]]).
    rewrite <- in_rev in Hx, Hy. apply zrange_iff in Hx, Hy.
    cbn [fst snd]. repeat split; lia.
  - destruct p as [[x y] b]. cbn [fst snd]. intros (Hx & Hy & ->).
    exists y. split; [rewrite <- in_rev; apply zrange_iff; lia|].
    apply in_flat_map. exists x.
    split; [rewrite <- in_rev; apply zrange_iff; lia|now left].
Qed.

Lemma cells_backward_iff (xy : Z * Z) :
  In xy cells_backward <-> in_map (fst xy) (snd xy) = true.
Proof.
  unfold cells_backward. rewrite in_flat_map, in_map_range. split.
  - intros (y & Hy & H). apply in_map_iff in H as (x & <- & Hx).
    rewrite <- in_rev in Hx, Hy. apply zrange_iff in Hx, Hy.
    cbn [fst snd]. unfold MAP_X_DIM, MAP_Y_DIM in *. lia.
  - destruct xy as [x y]. cbn [fst snd]. intros [Hx Hy].
    exists y. split; [rewrite <- in_rev; apply zrange_iff;
                      unfold MAP_Y_DIM in *; lia|].
    apply in_map_iff. exists x. split; [reflexivity|].
    rewrite <- in_rev. apply zrange_iff. unfold MAP_X_DIM in *. lia.
Qed.

Lemma overlay_pixels_iff (m : grid) (p : Z * Z * bool) :
  In p (overlay_pixels m) <->
  0 <= fst (fst p) < MAP_X_DIM * map_block_dim /\
  0 <= snd (fst p) < MAP_Y_DIM * map_block_dim /\
  snd p = (cell m (fst (fst p) / map_block_dim)
                  (snd (fst p) / map_block_dim) >? 0).
Proof.
  unfold overlay_pixels. rewrite in_flat_map.
  unfold map_block_dim, MAP_X_DIM, MAP_Y_DIM. split.
  - intros ([x y] & Hc & H). apply cells_backward_iff in Hc.
    apply in_map_range in Hc. apply rect_pixels_iff in H.
    cbn [fst snd] in *. unfold MAP_X_DIM, MAP_Y_DIM in *.
    destruct H as (Hx & Hy & ->).
    replace (fst (fst p) / 2) with x
      by (apply Z.div_unique with (fst (fst p) - 2 * x); lia).
    replace (snd (fst p) / 2) with y
      by (apply Z.div_unique with (snd (fst p) - 2 * y); lia).
    repeat split; lia.
  - intros (Hx & Hy & Hc).
    exists (fst (fst p) / 2, snd (fst p) / 2).
    pose proof (Z.div_mod (fst (fst p)) 2 ltac:(lia)).
    pose proof (Z.mod_pos_bound (fst (fst p)) 2 ltac:(lia)).
    pose proof (Z.div_mod (snd (fst p)) 2 ltac:(lia)).
    pose proof (Z.mod_pos_bound (snd (fst p)) 2 ltac:(lia)).
    split.
    + apply cells_backward_iff, in_map_range. cbn [fst snd].
      unfold MAP_X_DIM, MAP_Y_DIM. lia.
    + apply rect_pixels_iff. cbn [fst snd]. repeat split; try lia.
      exact Hc.
Qed.

Lemma distinct_pairs_NoDup (l : list (Z * Z)) :
  distinct_pairs l = true -> NoDup l.
Proof.
  induction l as [|a l IH]; cbn [distinct_pairs]; intros H; constructor.
  - apply andb_prop in H as [H _]. apply negb_true_iff in H. intros Hin.
    assert (E : existsb (fun b => (fst a =? fst b) && (snd a =? snd b)) l
                = true); [|congruence].
    apply existsb_exists. exists a. split; [exact Hin|].
    now rewrite !Z.eqb_refl.
  - apply IH. now apply andb_prop in H as [_ H].
Qed.

Lemma overlay_pixels_once (m : grid) :
  NoDup (map fst (overlay_pixels m)) /\
  List.length (overlay_pixels m) = 400%nat.
Proof.
  split; [|reflexivity]. apply distinct_pairs_NoDup.
  vm_compute. reflexivity.
Qed.

Lemma small_pixels_once (m : grid) :
  map fst (small_pixels m) = cells_backward /\ NoDup cells_backward.
Proof.
  split.
  - unfold small_pixels. rewrite map_map. cbn [fst].
    rewrite <- (map_id cells_backward) at 2. apply map_ext.
    now intros [x y].
  - apply distinct_pairs_NoDup. vm_compute. reflexivity.
Qed.


(** *** [print_map] *)

Lemma append_empty_r (t : string) : (t ++ "")%string = t.
Proof. induction t as [|a t IH]; cbn; congruence. Qed.

Lemma written_print (l t : string) (ser : list string) (rd : list (Z * Z))
    (x y : Z) (s0 s : sketch) :
  s = written l ser rd s0 ->
  Serial_print t (set_globals (log_read x y (globals s)) s) =
    written (l ++ t) ser ((x, y) :: rd) s0.
Proof. now intros ->. Qed.

Lemma written_print2 (l t : string) (ser : list string) (rd : list (Z * Z))
    (x y : Z) (s0 s : sketch) :
  s = written l ser rd s0 ->
  Serial_print t
    (set_globals (log_read x y (log_read x y (globals s))) s) =
    written (l ++ t) ser ((x, y) :: (x, y) :: rd) s0.
Proof. now intros ->. Qed.

Lemma written_println (l : string) (ser : list string) (rd : list (Z * Z))
    (s0 s : sketch) :
  s = written l ser rd s0 ->
  Serial_println_line EmptyString s = written EmptyString (l :: ser) rd s0.
Proof.
  intros ->. unfold Serial_println_line, written, on_globals.
  cbn [line set_line globals set_globals]. now rewrite append_empty_r.
Qed.

Lemma written_self (s : sketch) :
  s = written (line s) (serial (globals s)) (map_reads (globals s)) s.
Proof. destruct s as [w ? ? ? ? ? ? ? ? ?]. now destruct w. Qed.

Section PrintMap.

Variable P : platform.
Variable A : core.

Lemma print_map_spec (s : sketch) :
  exists rd,
    print_map P A s =
      Some (written EmptyString
              (map_text A (my_map (globals s)) (line s)
                 ++ serial (globals s))
              (rd ++ map_reads (globals s)) s) /\
    Forall (fun ij => in_map (fst ij) (snd ij) = true) rd.
Proof.
  set (m := my_map (globals s)).
  set (start := fun y : Z => if y =? 0 then line s else EmptyString).
  set (rows := fun y : Z =>
         rev (map (fun y => row_text A m (start y) y) (zrange 0 (Z.to_nat y)))
           ++ serial (globals s)).
  unfold print_map.
  destruct (for_int_invariant
    (fun y s' => exists rd,
       s' = written (start y) (rows y) (rd ++ map_reads (globals s)) s /\
       Forall (fun ij => in_map (fst ij) (snd ij) = true) rd)
    0 MAP_Y_DIM
    (fun y s =>
       match
         for_int 0 MAP_X_DIM
           (fun x s =>
              let '(c, w1) := read_map P x y (globals s) in
              if negb (c =? 0) then
                let '(c', w2) := read_map P x y w1 in
                Some (Serial_print (print_int A c') (set_globals w2 s))
              else Some (Serial_print "." (set_globals w1 s))) s
       with
       | Some s1 => Some (Serial_println_line EmptyString s1)
       | None => None
       end) s) as (s' & E & rd & Hs' & Hrd).
  - unfold MAP_Y_DIM. lia.
  - intros y s1 Hy (rd1 & Hs1 & Hrd1).
    destruct (for_int_invariant
      (fun x s' => exists rd,
         s' = written
                (fold_left
                   (fun acc x => (acc ++ cell_text A (cell m x y))%string)
                   (zrange 0 (Z.to_nat x)) (start y))
                (rows y) (rd ++ map_reads (globals s)) s /\
         Forall (fun ij => in_map (fst ij) (snd ij) = true) rd)
      0 MAP_X_DIM
      (fun x s =>
              let '(c, w1) := read_map P x y (globals s) in
              if negb (c =? 0) then
                let '(c', w2) := read_map P x y w1 in
                Some (Serial_print (print_int A c') (set_globals w2 s))
              else Some (Serial_print "." (set_globals w1 s))) s1)
      as (s2 & E2 & rd2 & Hs2 & Hrd2).
    + unfold MAP_X_DIM. lia.
    + intros x s2 Hx (rd2 & Hs2 & Hrd2).
      assert (Hin : in_map x y = true) by (apply in_map_range; lia).
      assert (Hm : my_map (globals s2) = m) by (rewrite Hs2; reflexivity).
      unfold read_map, map_value. cbn [my_map log_read]. rewrite Hin, Hm.
      replace (Z.to_nat (x + 1)) with (S (Z.to_nat x)) by lia.
      rewrite zrange_snoc, fold_left_app. cbn [fold_left].
      replace (0 + Z.of_nat (Z.to_nat x)) with x by lia.
      unfold cell_text at 2.
      destruct (cell m x y =? 0); cbn [negb].
      * eexists. split; [reflexivity|]. exists ((x, y) :: rd2).
        split; [now apply written_print|constructor; assumption].
      * eexists. split; [reflexivity|]. exists ((x, y) :: (x, y) :: rd2).
        split; [now apply written_print2|repeat constructor; assumption].
    + exists rd1. split; [exact Hs1|exact Hrd1].
    + rewrite E2. eexists.
      split; [reflexivity|]. exists rd2. split; [|exact Hrd2].
      rewrite (written_println _ _ _ s s2 Hs2).
      unfold start, rows.
      replace (y + 1 =? 0) with false by (symmetry; apply Z.eqb_neq; lia).
      replace (Z.to_nat (y + 1)) with (S (Z.to_nat y)) by lia.
      rewrite zrange_snoc, map_app, rev_app_distr. cbn [map rev app].
      replace (0 + Z.of_nat (Z.to_nat y)) with y by lia.
      reflexivity.
  - exists []. split; [|constructor]. apply written_self.
  - exists rd. split; [|exact Hrd]. rewrite E, Hs'. reflexivity.
Qed.

End PrintMap.


(** *** [setup] *)

Section Setup.

Variable P : platform.
Variable A : core.

Lemma setup_spec (s : sketch) :
  shaped (my_map (globals s)) ->
  in_map (to_int P (player_x (globals s))) (to_int P (player_y (globals s)))
    = true ->
  exists s',
    setup P A true s = Some s' /\
    shaped (my_map (globals s')) /\
    (forall x y, in_map x y = true ->
       cell (my_map (globals s')) x y =
         generated_cell A (random_calls s) 17
           (to_int P (player_x (globals s)))
           (to_int P (player_y (globals s))) x y) /\
    (forall i x y,
       wall_textures (globals s') i x y =
         if in_textures i x y
         then generated_texel A (random_calls s + 100) i x y
         else wall_textures (globals s) i x y) /\
    player_x (globals s') = player_x (globals s) /\
    player_y (globals s') = player_y (globals s) /\
    player_bearing (globals s') = player_bearing (globals s) /\
    frame_number s' = 0 /\
    random_calls s' = (random_calls s + 280)%nat /\
    seeds (globals s') = 1 :: seeds (globals s) /\
    serial (globals s') =
      map_text A (my_map (globals s')) (line s) ++ serial (globals s) /\
    pin_modes s' = setup_pins ++ pin_modes s /\
    display (globals s') = display (globals s) /\
    shown s' = shown s.
Proof.
  intros Hs Hp. unfold setup. cbn [negb]. cbv zeta.
  set (s0 := set_frame_number 0
               (on_globals (randomSeed 1) (Serial_begin 9600 s))).
  unfold try_globals.
  destruct (clear_map_spec (globals s0) Hs) as (w1 & E1 & Hw1).
  rewrite E1. set (s1 := set_globals w1 s0).
  assert (Hs1 : shaped (my_map (globals s1)))
    by (subst s1; cbn [globals set_globals]; rewrite Hw1;
        apply shaped_empty_map).
  assert (Hp1 : in_map (to_int P (player_x (globals s1)))
                       (to_int P (player_y (globals s1))) = true)
    by (subst s1; cbn [globals set_globals]; rewrite Hw1; exact Hp).
  destruct (randomize_map_spec P A 17 s1 Hs1 Hp1)
    as (s2 & E2 & Hw2 & Hs2 & Hc2).
  rewrite E2.
  destruct (print_map_spec P A s2) as (rd & E3 & _). rewrite E3.
  set (s3 := written _ _ _ s2).
  match goal with
  | |- exists s', generate_wall_textures A ?s4 = _ /\ _ =>
      destruct (generate_wall_textures_spec A s4) as (s5 & E5 & Hw5 & Ht5)
  end.
  exists s5. split; [exact E5|].
  assert (M5 : my_map (globals s5) = my_map (globals s2))
    by (rewrite Hw5; reflexivity).
  assert (C2 : random_calls s2 = (random_calls s + 100)%nat)
    by (rewrite Hw2; reflexivity).
  rewrite M5. split; [exact Hs2|]. split.
  { intros x y Hxy. rewrite (Hc2 x y Hxy). subst s1.
    cbn [globals set_globals]. rewrite Hw1. reflexivity. }
  split.
  { intros i x y. rewrite Ht5. cbn [random_calls pinMode]. subst s3.
    cbn [random_calls written set_line set_globals globals wall_textures
         set_serial set_map_reads].
    rewrite C2. destruct (in_textures i x y); [reflexivity|].
    rewrite Hw2. subst s1. cbn [globals set_globals remapped
      set_random_calls wall_textures set_map]. rewrite Hw1. reflexivity. }
  assert (G5 : globals s5 =
               set_wall_textures (wall_textures (globals s5)) (globals s3))
    by (rewrite Hw5 at 1; reflexivity).
  assert (G2 : globals s2 = set_map (my_map (globals s2)) w1)
    by (rewrite Hw2 at 1; reflexivity).
  repeat split.
  - rewrite G5. subst s3. cbn. rewrite G2. cbn. now rewrite Hw1.
  - rewrite G5. subst s3. cbn. rewrite G2. cbn. now rewrite Hw1.
  - rewrite G5. subst s3. cbn. rewrite G2. cbn. now rewrite Hw1.
  - rewrite Hw5. cbn. subst s3. cbn. rewrite Hw2. reflexivity.
  - rewrite Hw5. cbn [random_calls retextured set_random_calls pinMode].
    subst s3. cbn [random_calls written set_line set_globals]. rewrite C2.
    lia.
  - rewrite G5. subst s3. cbn. rewrite G2. cbn. now rewrite Hw1.
  - rewrite G5. subst s3.
    cbn [serial set_wall_textures written globals set_line set_globals
         set_serial].
    f_equal; [rewrite Hw2; reflexivity|rewrite G2; cbn; now rewrite Hw1].
  - rewrite Hw5. cbn. subst s3. cbn. rewrite Hw2. reflexivity.
  - rewrite G5. subst s3. cbn. rewrite G2. cbn. now rewrite Hw1.
  - rewrite Hw5. cbn. subst s3. cbn. rewrite Hw2. reflexivity.
Qed.

Lemma setup_no_display (s : sketch) : setup P A false s = None.
Proof. reflexivity. Qed.

End Setup.


(** *** [loop] *)

Lemma same_scene_sym (a b : world) : same_scene a b -> same_scene b a.
Proof. unfold same_scene. intros (?&?&?&?&?). repeat split; congruence. Qed.

Lemma well_placed_scene (a b : world) :
  same_scene a b -> well_placed a -> well_placed b.
Proof.
  intros (Hm & Hx & Hy & _) [Hin Hc]. unfold well_placed, inside_map in *.
  now rewrite Hm, Hx, Hy.
Qed.

Lemma map_pixels_scene (P : platform) (a b : world) :
  same_scene a b -> map_pixels P b = map_pixels P a.
Proof.
  intros (Hm & Hx & Hy & Hb & _).
  unfold map_pixels, look_x, look_y, marker_x, marker_y.
  now rewrite Hm, Hx, Hy, Hb.
Qed.

Section Moves.

Variable P : platform.

Lemma step_forward_scene (d : f32) (a b : world) :
  same_scene a b -> same_scene (step_forward P d a) (step_forward P d b).
Proof.
  intros (Hm & Hx & Hy & Hb & Ht). unfold step_forward, read_map.
  cbv zeta. cbn [my_map player_x player_y player_bearing log_read].
  rewrite Hm, Hx, Hy, Hb.
  match goal with |- context [if ?c then _ else _] => destruct c end;
    repeat split; assumption.
Qed.

Lemma turn_left_scene (t : f32) (a b : world) :
  same_scene a b -> same_scene (turn_left t a) (turn_left t b).
Proof.
  intros (Hm & Hx & Hy & Hb & Ht). unfold turn_left. repeat split;
    cbn [my_map player_x player_y player_bearing wall_textures set_bearing];
    congruence.
Qed.

Lemma turn_right_scene (t : f32) (a b : world) :
  same_scene a b -> same_scene (turn_right t a) (turn_right t b).
Proof.
  intros (Hm & Hx & Hy & Hb & Ht). unfold turn_right. repeat split;
    cbn [my_map player_x player_y player_bearing wall_textures set_bearing];
    congruence.
Qed.

Lemma press_scene (i : inputs) (pin : Z) (move : world -> world)
    (a b : world) :
  (forall a b, same_scene a b -> same_scene (move a) (move b)) ->
  same_scene a b -> same_scene (press i pin move a) (press i pin move b).
Proof. intros Hm H. unfold press. destruct (_ =? 0); auto. Qed.

Lemma button_control_scene (i : inputs) (a b : world) :
  same_scene a b ->
  same_scene (button_control P i a) (button_control P i b).
Proof.
  intros H. unfold button_control. cbv zeta.
  repeat (apply press_scene; [intros; unfold step_backward, strafe_left,
            strafe_right;
            auto using step_forward_scene, turn_left_scene,
              turn_right_scene|]).
  exact H.
Qed.

Lemma press_well_placed (i : inputs) (pin : Z) (move : world -> world)
    (w : world) :
  (forall w, well_placed w -> well_placed (move w)) ->
  well_placed w -> well_placed (press i pin move w).
Proof. intros Hm H. unfold press. destruct (_ =? 0); auto. Qed.

Lemma button_control_well_placed (i : inputs) (w : world) :
  well_placed w -> well_placed (button_control P i w).
Proof.
  intros H. unfold button_control. cbv zeta.
  repeat (apply press_well_placed;
          [intros; unfold step_backward;
           auto using step_forward_well_placed, turn_left_well_placed,
             turn_right_well_placed, strafe_left_well_placed,
             strafe_right_well_placed|]).
  exact H.
Qed.

Lemma press_map (i : inputs) (pin : Z) (move : world -> world) (w : world) :
  (forall w, my_map (move w) = my_map w /\
             wall_textures (move w) = wall_textures w) ->
  my_map (press i pin move w) = my_map w /\
  wall_textures (press i pin move w) = wall_textures w.
Proof. intros Hm. unfold press. destruct (_ =? 0); auto. Qed.

Lemma step_forward_textures (d : f32) (w : world) :
  wall_textures (step_forward P d w) = wall_textures w.
Proof.
  unfold step_forward, read_map. cbv zeta.
  match goal with |- context [if ?b then _ else _] => destruct b end;
    reflexivity.
Qed.

Lemma button_control_map (i : inputs) (w : world) :
  my_map (button_control P i w) = my_map w /\
  wall_textures (button_control P i w) = wall_textures w.
Proof.
  unfold button_control. cbv zeta.
  repeat match goal with
  | |- my_map (press i ?pin ?move ?w) = _ /\ _ =>
      let H := fresh in
      assert (H : my_map (press i pin move w) = my_map w /\
                  wall_textures (press i pin move w) = wall_textures w);
      [apply press_map; intros; unfold step_backward, strafe_left,
         strafe_right, turn_left, turn_right;
       cbn [my_map wall_textures set_bearing];
       rewrite ?step_forward_map, ?step_forward_textures; split; reflexivity
      |destruct H as [-> ->]]
  end.
  split; reflexivity.
Qed.

Lemma when_pressed_globals (i : inputs) (pin : Z) (move : world -> world)
    (s : sketch) :
  when_pressed i pin move s = set_globals (press i pin move (globals s)) s.
Proof.
  unfold when_pressed, press. destruct (_ =? 0); [reflexivity|].
  now destruct s.
Qed.

Lemma loop_spec (A : core) (i : inputs) (s : sketch) :
  int_casts P ->
  exists s' w1 cs,
    ray_cast P (set_display [] (globals s)) = Some (w1, cs) /\
    loop P A i s = Some s' /\
    shown s' =
      {| pixels := map_pixels P (globals s) ++
                   flat_map (column_pixels (wall_textures (globals s)))
                            (rev cs);
         captions := fps_caption A i (frame_number s) |} :: shown s /\
    same_scene (button_control P i (globals s)) (globals s') /\
    frame_number s' = (frame_number s + 1) mod ULONG_SPAN /\
    random_calls s' = random_calls s /\
    pin_modes s' = pin_modes s.
Proof.
  intros Hc. unfold loop. cbv zeta.
  change (globals (clearDisplay s)) with (set_display [] (globals s)).
  destruct (ray_cast_returns P (set_display [] (globals s)))
    as (w1 & cs & E & Hs1 & _).
  rewrite E. rewrite (draw_map_spec P _ Hc).
  rewrite !when_pressed_globals.
  eexists _, w1, cs. split; [reflexivity|]. split; [reflexivity|].
  unfold ray_cast in E. apply cast_columns_pixels in E as (E & _).
  assert (Hs : same_scene (globals s) w1) by exact Hs1.
  split.
  { cbn [shown set_frame_number set_globals display_display set_shown
         display_frame_number Serial_println_line Serial_print set_line
         on_globals text set_text_calls globals text_calls
         set_stroke_color traced set_fill_color clearDisplay
         display visited set_map_reads set_display Serial_println
         frame_number].
    f_equal. unfold fps_caption. cbv zeta. f_equal.
    rewrite E. cbn [display set_display wall_textures].
    rewrite app_nil_r.
    rewrite (map_pixels_scene P (globals s) w1 Hs). reflexivity. }
  split.
  { cbn [globals set_frame_number set_globals].
    fold (button_control P i (globals s)).
    match goal with
    | |- same_scene _ (press _ _ _ (press _ _ _ (press _ _ _ (press _ _ _
                         (press _ _ _ (press _ _ _ ?w)))))) =>
        change (same_scene (button_control P i (globals s))
                           (button_control P i w))
    end.
    apply button_control_scene.
    eapply same_scene_trans; [exact Hs|]. repeat split. }
  repeat split.
Qed.

End Moves.


Section Run.

Variable P : platform.
Variable A : core.

Lemma loops_spec :
  int_casts P ->
  forall (frames : list inputs) (s : sketch),
  exists s',
    loops P A frames s = Some s' /\
    my_map (globals s') = my_map (globals s) /\
    wall_textures (globals s') = wall_textures (globals s) /\
    (well_placed (globals s) -> well_placed (globals s')) /\
    (0 <= frame_number s < ULONG_SPAN ->
     frame_number s' =
       (frame_number s + Z.of_nat (List.length frames)) mod ULONG_SPAN) /\
    List.length (shown s') = (List.length frames + List.length (shown s))%nat /\
    random_calls s' = random_calls s.
Proof.
  intros Hc frames. induction frames as [|i frames IH]; intros s.
  - exists s. split; [reflexivity|]. split; [reflexivity|].
    split; [reflexivity|]. split; [tauto|]. split; [|split; reflexivity].
    intros Hn. cbn [List.length Z.of_nat]. rewrite Z.add_0_r.
    symmetry. now apply Z.mod_small.
  - cbn [loops].
    destruct (loop_spec P A i s Hc)
      as (s1 & w1 & cs & _ & E & Hsh & Hsc & Hfn & Hrc & _).
    rewrite E.
    destruct (IH s1) as (s' & E' & Hm & Ht & Hw & Hf & Hl & Hr).
    exists s'. split; [exact E'|].
    destruct (button_control_map P i (globals s)) as [Bm Bt].
    destruct Hsc as (Sm & Sx & Sy & Sb & St).
    split; [congruence|]. split; [congruence|]. split.
    { intros H. apply Hw.
      apply (well_placed_scene (button_control P i (globals s)));
        [repeat split; assumption|].
      now apply button_control_well_placed. }
    split.
    { intros H. rewrite Hf, Hfn.
      - rewrite Zplus_mod_idemp_l. f_equal. cbn [List.length]. lia.
      - rewrite Hfn. apply Z.mod_pos_bound. reflexivity. }
    split; [|congruence].
    rewrite Hl, Hsh. cbn [List.length]. lia.
Qed.

End Run.


(** *** The newest pixel at a point *)

Lemma pixel_at_app (l1 l2 : list (Z * Z * bool)) (x y : Z) :
  pixel_at (l1 ++ l2) x y =
    match pixel_at l1 x y with
    | Some c => Some c
    | None => pixel_at l2 x y
    end.
Proof.
  induction l1 as [|[[x' y'] c] l1 IH]; cbn [app pixel_at]; [reflexivity|].
  now destruct ((x' =? x) && (y' =? y)).
Qed.

Lemma pixel_at_absent (l : list (Z * Z * bool)) (x y : Z) :
  ~ In (x, y) (map fst l) -> pixel_at l x y = None.
Proof.
  induction l as [|[[x' y'] c] l IH]; cbn [map fst pixel_at In];
    [reflexivity|].
  intros H. destruct (Z.eqb_spec x' x) as [->|Nx]; cbn [andb].
  - destruct (Z.eqb_spec y' y) as [->|Ny]; [tauto|]. apply IH. tauto.
  - apply IH. tauto.
Qed.

Lemma pixel_at_present (l : list (Z * Z * bool)) (x y : Z) (c : bool) :
  NoDup (map fst l) -> In (x, y, c) l -> pixel_at l x y = Some c.
Proof.
  induction l as [|[[x' y'] c'] l IH]; cbn [map fst pixel_at In];
    [contradiction|].
  intros Hn [E|Hin].
  - injection E as -> -> ->. now rewrite !Z.eqb_refl.
  - inversion Hn as [|? ? Hni Hn']; subst.
    destruct (Z.eqb_spec x' x) as [->|Nx]; cbn [andb]; [|now apply IH].
    destruct (Z.eqb_spec y' y) as [->|Ny]; [|now apply IH].
    exfalso. apply Hni. apply in_map_iff. now exists (x, y, c).
Qed.

Lemma pixel_at_overlay (m : grid) (x y : Z) :
  pixel_at (overlay_pixels m) x y =
    if (0 <=? x) && (x <? MAP_X_DIM * map_block_dim) &&
       (0 <=? y) && (y <? MAP_Y_DIM * map_block_dim)
    then Some (cell m (x / map_block_dim) (y / map_block_dim) >? 0)
    else None.
Proof.
  destruct ((0 <=? x) && (x <? MAP_X_DIM * map_block_dim) &&
            (0 <=? y) && (y <? MAP_Y_DIM * map_block_dim)) eqn:E.
  - apply pixel_at_present; [apply overlay_pixels_once|].
    apply overlay_pixels_iff. cbn [fst snd].
    rewrite !andb_true_iff, !Z.leb_le, !Z.ltb_lt in E. intuition.
  - apply pixel_at_absent. intros Hin.
    apply in_map_iff in Hin as ([[x' y'] c] & [= -> ->] & Hin).
    apply overlay_pixels_iff in Hin. cbn [fst snd] in Hin.
    assert (T : (0 <=? x) && (x <? MAP_X_DIM * map_block_dim) &&
                (0 <=? y) && (y <? MAP_Y_DIM * map_block_dim) = true)
      by (rewrite !andb_true_iff, !Z.leb_le, !Z.ltb_lt; intuition).
    congruence.
Qed.

Lemma NoDup_map_injective {A B : Type} (f : A -> B) (l : list A) :
  (forall a b, f a = f b -> a = b) -> NoDup l -> NoDup (map f l).
Proof.
  intros Hf. induction l as [|a l IH]; cbn [map]; intros H;
    [constructor|].
  inversion H as [|? ? Hni Hn]; subst. constructor; [|now apply IH].
  intros Hin. apply in_map_iff in Hin as (b & E & Hb).
  apply Hf in E. now subst.
Qed.

Lemma zrange_NoDup (lo : Z) (n : nat) : NoDup (zrange lo n).
Proof.
  unfold zrange. apply NoDup_map_injective; [|apply seq_NoDup].
  intros a b H. lia.
Qed.

Lemma sliver_pixels_NoDup (t : Z -> Z -> Z -> Z) (x : Z) (k : nat) :
  (1 <= k)%nat -> NoDup (map fst (sliver_pixels t x k)).
Proof.
  intros Hk. unfold sliver_pixels.
  rewrite map_app, map_rev, map_map. cbn [fst map].
  apply NoDup_app.
  - apply NoDup_rev. apply NoDup_map_injective; [|apply zrange_NoDup].
    intros a b [= H]. exact H.
  - constructor; [|constructor; [cbn [In]; tauto|constructor]].
    cbn [In]. intros [H|[]]. apply (f_equal snd) in H. cbn [snd] in H.
    lia.
  - intros p Hp Hq. apply in_rev, in_map_iff in Hp as (y & <- & Hy).
    apply zrange_iff in Hy. cbn [In] in Hq.
    destruct Hq as [H|[H|[]]]; apply (f_equal snd) in H; cbn [snd] in H;
      lia.
Qed.

Lemma pixel_at_sliver (t : Z -> Z -> Z -> Z) (x : Z) (k : nat) (x' y : Z) :
  (1 <= k)%nat ->
  pixel_at (sliver_pixels t x k) x' y =
    if x' =? x then sliver_at t x k y else None.
Proof.
  intros Hk. destruct (Z.eqb_spec x' x) as [->|Nx].
  - unfold sliver_at. cbv zeta.
    set (top := screen_height / 2 - Z.of_nat k).
    set (bottom := screen_height / 2 + Z.of_nat k).
    destruct ((top <=? y) && (y <=? bottom)) eqn:E.
    + apply andb_prop in E as [E1 E2]. apply Z.leb_le in E1, E2.
      apply pixel_at_present; [now apply sliver_pixels_NoDup|].
      unfold sliver_pixels. fold top bottom. apply in_or_app.
      destruct (Z.eqb_spec y top) as [->|Nt]; cbn [orb].
      { right. right. now left. }
      destruct (Z.eqb_spec y bottom) as [->|Nb]; cbn [orb].
      { right. now left. }
      left. apply in_rev. rewrite rev_involutive. apply in_map_iff.
      exists y. split; [reflexivity|]. apply zrange_iff. lia.
    + apply pixel_at_absent. intros Hin.
      apply in_map_iff in Hin as ([[x' y'] c] & [= -> ->] & Hin).
      unfold sliver_pixels in Hin. fold top bottom in Hin.
      apply in_app_or in Hin as [Hin|Hin].
      * apply in_rev, in_map_iff in Hin as (y' & H & Hy).
        apply (f_equal fst) in H. apply (f_equal snd) in H.
        cbn [fst snd] in H. subst y'. apply zrange_iff in Hy.
        assert (T : (top <=? y) && (y <=? bottom) = true)
          by (rewrite andb_true_iff, !Z.leb_le; lia).
        congruence.
      * assert (T : (top <=? y) && (y <=? bottom) = true).
        { rewrite andb_true_iff, !Z.leb_le.
          cbn [In] in Hin.
          destruct Hin as [H|[H|[]]]; apply (f_equal fst) in H;
            apply (f_equal snd) in H; cbn [fst snd] in H; lia. }
        congruence.
  - apply pixel_at_absent. intros Hin.
    apply in_map_iff in Hin as ([[x'' y'] c] & [= -> ->] & Hin).
    unfold sliver_pixels in Hin.
    apply in_app_or in Hin as [Hin|Hin].
    + apply in_rev, in_map_iff in Hin as (y' & H & _).
      apply (f_equal fst) in H. apply (f_equal fst) in H.
      cbn [fst] in H. congruence.
    + cbn [In] in Hin.
      destruct Hin as [H|[H|[]]]; apply (f_equal fst) in H;
        apply (f_equal fst) in H; cbn [fst] in H; congruence.
Qed.

Lemma pixel_at_column (t : Z -> Z -> Z -> Z) (x : Z) (c : column)
    (x' y : Z) :
  (col_hit c = true -> (1 <= height_index (col_wall_height c))%nat) ->
  pixel_at (column_pixels t (x, c)) x' y =
    if x' =? x then column_at t x c y else None.
Proof.
  intros Hk. unfold column_pixels, column_at. cbn [fst snd].
  destruct (col_hit c); [apply pixel_at_sliver, Hk; reflexivity|].
  now destruct (x' =? x).
Qed.

(** Among columns with distinct numbers, the newest pixel at (x, y) is
    that of column [x]. *)
Lemma pixel_at_columns (t : Z -> Z -> Z -> Z) (cs : list (Z * column))
    (x y : Z) (c : column) :
  NoDup (map fst cs) -> In (x, c) cs ->
  Forall (fun ic => col_hit (snd ic) = true ->
                    (1 <= height_index (col_wall_height (snd ic)))%nat) cs ->
  pixel_at (flat_map (column_pixels t) cs) x y = column_at t x c y.
Proof.
  induction cs as [|[x0 c0] cs IH]; cbn [map fst flat_map In];
    [contradiction|].
  intros Hn Hin Hf. inversion Hn as [|? ? Hni Hn']; subst.
  inversion Hf as [|? ? Hk Hf']; subst. cbn [snd] in Hk.
  rewrite pixel_at_app, pixel_at_column by exact Hk.
  destruct Hin as [[= -> ->]|Hin].
  - rewrite Z.eqb_refl. destruct (column_at t x c y) eqn:E; [reflexivity|].
    apply pixel_at_absent. intros H.
    apply in_map_iff in H as ([[x' y'] b] & [= -> ->] & H).
    apply in_flat_map in H as ([x1 c1] & H1 & H2).
    assert (x1 = x).
    { unfold column_pixels in H2. cbn [fst snd] in H2.
      destruct (col_hit c1); [|contradiction].
      unfold sliver_pixels in H2. apply in_app_or in H2 as [H2|H2].
      - apply in_rev, in_map_iff in H2 as (y' & H & _).
        apply (f_equal fst) in H. apply (f_equal fst) in H.
        cbn [fst] in H. congruence.
      - cbn [In] in H2.
        destruct H2 as [H|[H|[]]]; apply (f_equal fst) in H;
          apply (f_equal fst) in H; cbn [fst] in H; congruence. }
    subst x1. apply Hni. apply in_map_iff. now exists (x, c1).
  - destruct (Z.eqb_spec x x0) as [->|Nx]; [|now apply IH].
    exfalso. apply Hni. apply in_map_iff. now exists (x0, c).
Qed.

Section Frame.

Variable P : platform.

Lemma ray_cast_columns (w w1 : world) (cs : list (Z * column)) :
  ray_cast P w = Some (w1, cs) ->
  map fst cs = map Z.of_nat (seq 0 (Z.to_nat NUM_SLIVERS)) /\
  Forall (fun ic => col_hit (snd ic) = true ->
                    (1 <= height_index (col_wall_height (snd ic)))%nat) cs.
Proof.
  intros E. destruct (ray_cast_returns P w) as (w' & cs' & E' & _ & _ & Hi & Hc).
  rewrite E in E'. injection E' as <- <-. split; [exact Hi|].
  apply Forall_forall. intros [x c] Hin Hh. cbn [snd] in *.
  apply In_nth_error in Hin as [j Hj].
  assert (Hs : nth_error (map snd cs) j = Some c)
    by (rewrite nth_error_map, Hj; reflexivity).
  destruct (column_post_height P w _ c (Hc j c Hs))
    as [(_ & k & Hk & Hw & _)|(Hn & _)]; [|congruence].
  rewrite Hw, height_index_hgt by lia. lia.
Qed.

Lemma pixel_at_slivers (t : Z -> Z -> Z -> Z) (w w1 : world)
    (cs : list (Z * column)) (x y : Z) :
  ray_cast P w = Some (w1, cs) ->
  pixel_at (flat_map (column_pixels t) (rev cs)) x y =
    if 0 <=? x then
      match nth_error cs (Z.to_nat x) with
      | Some ic => column_at t x (snd ic) y
      | None => None
      end
    else None.
Proof.
  intros E. destruct (ray_cast_columns w w1 cs E) as [Hi Hf].
  assert (Hn : NoDup (map fst cs)).
  { rewrite Hi. apply NoDup_map_injective; [|apply seq_NoDup].
    intros a b H. lia. }
  assert (Hcol : forall j ic, nth_error cs j = Some ic ->
                              fst ic = Z.of_nat j).
  { intros j ic Hj.
    assert (H : nth_error (map fst cs) j = Some (fst ic))
      by (rewrite nth_error_map, Hj; reflexivity).
    rewrite Hi, nth_error_map in H.
    destruct (nth_error (seq 0 (Z.to_nat NUM_SLIVERS)) j) as [a|] eqn:Ea;
      [|discriminate].
    injection H as <-.
    assert (Hl : (j < List.length (seq 0 (Z.to_nat NUM_SLIVERS)))%nat)
      by (apply nth_error_Some; congruence).
    rewrite length_seq in Hl.
    apply nth_error_nth with (d := 0%nat) in Ea.
    rewrite seq_nth in Ea by exact Hl. now subst. }
  assert (Absent : (forall c, ~ In (x, c) cs) ->
                   pixel_at (flat_map (column_pixels t) (rev cs)) x y = None).
  { intros Hno. apply pixel_at_absent. intros H.
    apply in_map_iff in H as ([[x' y'] b] & H0 & H).
    apply (f_equal fst) in H0 as Hx. apply (f_equal snd) in H0 as Hy.
    cbn [fst snd] in Hx, Hy. subst x' y'.
    apply in_flat_map in H as ([x1 c1] & H1 & H2). apply in_rev in H1.
    assert (x1 = x); [|subst x1; now apply (Hno c1)].
    unfold column_pixels in H2. cbn [fst snd] in H2.
    destruct (col_hit c1); [|contradiction].
    unfold sliver_pixels in H2. apply in_app_or in H2 as [H2|H2].
    - apply in_rev, in_map_iff in H2 as (y' & H & _).
      apply (f_equal fst) in H. apply (f_equal fst) in H.
      cbn [fst] in H. congruence.
    - cbn [In] in H2.
      destruct H2 as [H|[H|[]]]; apply (f_equal fst) in H;
        apply (f_equal fst) in H; cbn [fst] in H; congruence. }
  destruct (Z.leb_spec 0 x) as [Hx|Hx].
  - destruct (nth_error cs (Z.to_nat x)) as [[x' c]|] eqn:Ec.
    + pose proof (Hcol _ _ Ec) as Hx'. cbn [fst snd] in *.
      assert (Ex : x' = x) by lia. clear Hx'. subst x'.
      apply pixel_at_columns.
      * rewrite map_rev. now apply NoDup_rev.
      * apply -> in_rev. eapply nth_error_In, Ec.
      * now apply Forall_rev.
    + apply Absent. intros c Hin. apply In_nth_error in Hin as [j Hj].
      pose proof (Hcol _ _ Hj) as Hx'. cbn [fst] in Hx'.
      assert (j = Z.to_nat x) by lia. subst j. congruence.
  - apply Absent. intros c Hin. apply In_nth_error in Hin as [j Hj].
    pose proof (Hcol _ _ Hj) as Hx'. cbn [fst] in Hx'. lia.
Qed.

End Frame.


(** ** Properties of the ray caster *)

(** C2.  For every platform, pose and map, one call of [ray_cast] returns
    exactly [NUM_SLIVERS] column results, for the column indices
    0, 1, ..., NUM_SLIVERS-1 in this order; the wall height with which each
    column's scan ends lies between 0 and [screen_height]; and a column
    whose scan exhausts without a hit ends with wall height 0. *)
Theorem ray_cast_column_results (P : platform) (w : world) :
  exists w' cs,
    ray_cast P w = Some (w', cs) /\
    Z.of_nat (List.length cs) = NUM_SLIVERS /\
    map fst cs = map Z.of_nat (seq 0 (Z.to_nat NUM_SLIVERS)) /\
    Forall (fun ic =>
              fle (of_int 0) (col_wall_height (snd ic)) = true /\
              fle (col_wall_height (snd ic)) (of_int screen_height) = true /\
              (col_hit (snd ic) = false ->
               col_wall_height (snd ic) = of_int 0))
           cs.
Proof.
  destruct (ray_cast_returns P w) as (w' & cs & E & _ & _ & Hi & Hc).
  exists w', cs. split; [exact E|]. split; [|split; [exact Hi|]].
  - rewrite <- (length_map fst), Hi, length_map, length_seq. reflexivity.
  - apply Forall_forall. intros [i c] Hin. cbn [snd].
    assert (Hin' : In c (map snd cs)).
    { apply in_map_iff. now exists (i, c). }
    apply In_nth_error in Hin' as [j Hj].
    destruct (column_post_height P _ _ _ (Hc j c Hj))
      as [(Hh & k & Hk & -> & _)|(Hh & -> & _)].
    + destruct (hgt_bounds k Hk) as (H0 & H1 & _).
      repeat split; try assumption. congruence.
    + repeat split; vm_compute; reflexivity.
Qed.

(** C4.  The scan of one column, as [ray_cast] runs it, starts at
    [screen_height]; from one iteration to the next the wall height goes
    down by 2 and the radius [r = (k * screen_height) / wall_height]
    does not decrease; no two iterations have the same wall height; and
    there are at most [screen_height / 2] iterations. *)
Theorem scan_radius_monotone (P : platform) (sliver : Z) (theta : f32)
    (w : world) :
  exists w' c,
    scan P SCAN_FUEL sliver theta (of_int screen_height) w = Some (w', c) /\
    (forall h r, nth_error (col_samples c) 0 = Some (h, r) ->
                 h = of_int screen_height) /\
    (forall i h1 r1 h2 r2,
       nth_error (col_samples c) i = Some (h1, r1) ->
       nth_error (col_samples c) (S i) = Some (h2, r2) ->
       h2 = fsub h1 (of_int 2) /\ flt h2 h1 = true /\
       r1 = radius h1 /\ r2 = radius h2 /\ fle r1 r2 = true) /\
    NoDup (map fst (col_samples c)) /\
    Z.of_nat (List.length (col_samples c)) <= screen_height / 2.
Proof.
  destruct (scan_column P sliver theta w) as (w' & c & E & Hp).
  exists w', c. split; [exact E|].
  pose proof (scan_post_column P sliver theta w w w' c
                (same_scene_refl w) Hp) as Hc.
  destruct (column_samples_prefix P w theta c Hc) as [rest Hr].
  repeat split.
  - intros h r H0.
    destruct (column_sample_nth P w theta c 0 h r Hc H0) as (_ & -> & _).
    rewrite Nat.sub_0_r. apply hgt_full_scan.
  - destruct (column_sample_nth P w theta c _ _ _ Hc H) as (Hi & -> & _).
    destruct (column_sample_nth P w theta c _ _ _ Hc H0) as (Hj & -> & _).
    replace (FULL_SCAN - S i)%nat with (pred (FULL_SCAN - i)) by lia.
    symmetry. apply hgt_step. lia.
  - destruct (column_sample_nth P w theta c _ _ _ Hc H) as (Hi & -> & _).
    destruct (column_sample_nth P w theta c _ _ _ Hc H0) as (Hj & -> & _).
    assert (Hk : (2 <= FULL_SCAN - i <= FULL_SCAN)%nat) by lia.
    revert Hk. replace (FULL_SCAN - S i)%nat with (pred (FULL_SCAN - i)) by lia.
    generalize (FULL_SCAN - i)%nat. intros k Hk.
    assert (Hall : forallb (fun k => flt (hgt (pred k)) (hgt k))
                     (seq 2 (pred FULL_SCAN)) = true)
      by (vm_compute; reflexivity).
    rewrite forallb_forall in Hall. apply Hall. apply in_seq.
    change FULL_SCAN with 32%nat in *. lia.
  - now destruct (column_sample_nth P w theta c _ _ _ Hc H) as (_ & _ & ->).
  - now destruct (column_sample_nth P w theta c _ _ _ Hc H0) as (_ & _ & ->).
  - destruct (column_sample_nth P w theta c _ _ _ Hc H) as (Hi & -> & ->).
    destruct (column_sample_nth P w theta c _ _ _ Hc H0) as (Hj & -> & ->).
    assert (Hk : (1 <= FULL_SCAN - i <= FULL_SCAN)%nat) by lia.
    replace (FULL_SCAN - S i)%nat with (pred (FULL_SCAN - i)) by lia.
    apply height_ok_in_scan in Hk. unfold height_ok in Hk.
    now apply andb_prop in Hk as [_ Hk].
  - pose proof descent_NoDup as Hnd. rewrite Hr in Hnd.
    eapply NoDup_app_remove_r. exact Hnd.
  - assert (Hl : List.length (descent FULL_SCAN) = FULL_SCAN)
      by apply descent_length.
    rewrite Hr, length_app, length_map in Hl.
    change (screen_height / 2) with (Z.of_nat FULL_SCAN). lia.
Qed.

(** C5.  The scan of one column looks at the wall heights in decreasing
    order, each at its radius.  When it ends with a hit, the last radius it
    looked at is the first whose point fails a bounds test or lies on a
    nonzero map entry: every radius before it was a miss, that radius is
    stored in [d[sliver]], the sliver is rendered with the wall height of
    that iteration, and no later radius is looked at.  When it ends without
    a hit, every radius was a miss and nothing is stored. *)
Theorem scan_stops_at_first_hit (P : platform) (sliver : Z) (theta : f32)
    (w : world) :
  exists w' c,
    scan P SCAN_FUEL sliver theta (of_int screen_height) w = Some (w', c) /\
    (exists rest, descent FULL_SCAN = map fst (col_samples c) ++ rest) /\
    Forall (fun s => snd s = radius (fst s)) (col_samples c) /\
    (col_hit c = true ->
     exists before h,
       col_samples c = before ++ [(h, radius h)] /\
       hits P w theta h = true /\
       Forall (fun s => hits P w theta (fst s) = false) before /\
       col_d c = Some (radius h) /\
       col_wall_height c = h /\
       rendered P sliver theta h w w') /\
    (col_hit c = false ->
     map fst (col_samples c) = descent FULL_SCAN /\
     Forall (fun s => hits P w theta (fst s) = false) (col_samples c) /\
     col_d c = None /\ more_reads w w').
Proof.
  destruct (scan_column P sliver theta w) as (w' & c & E & Hp).
  exists w', c. split; [exact E|].
  pose proof (scan_post_column P sliver theta w w w' c
                (same_scene_refl w) Hp) as Hc.
  split; [eapply column_samples_prefix; exact Hc|].
  split; [eapply column_samples_heights; exact Hc|].
  destruct Hp as (_ & _ & Hs & Hm).
  destruct (snd (sweep (hits P w theta) (descent FULL_SCAN))) as [h|] eqn:Ef.
  - destruct Hm as (Hh & Hw & Hd & Hr). split; [|congruence].
    intros _. destruct (sweep_found _ _ _ Ef) as (before & Eb & Hhit & Hb).
    exists (map (fun h => (h, radius h)) before), h.
    split; [rewrite Hs, Eb, map_app; reflexivity|].
    split; [exact Hhit|]. split; [|auto].
    apply Forall_forall. intros s Hin.
    apply in_map_iff in Hin as (h' & <- & Hin). cbn [fst].
    rewrite Forall_forall in Hb. now apply Hb.
  - destruct Hm as (Hh & Hw & Hd & Hr). split; [congruence|].
    intros _. destruct (sweep_missed _ _ Ef) as [Es Hall].
    split; [rewrite Hs, Es, map_map; cbn [fst]; apply map_id|].
    split; [|auto].
    rewrite Hs, Es. apply Forall_forall. intros s Hin.
    apply in_map_iff in Hin as (h' & <- & Hin). cbn [fst].
    rewrite Forall_forall in Hall. now apply Hall.
Qed.

(** C6.  In the scan of one column the division
    [r = (k * screen_height) / wall_height] is evaluated only at wall
    heights above 0: at every iteration [wall_height > 0] holds and the
    wall height is neither zero; a scan that finds no hit has run the
    iterations for all the even heights from [screen_height] down to 2
    and leaves the loop exactly at wall height 0, for which the body is not
    run. *)
Theorem scan_divides_by_positive (P : platform) (sliver : Z) (theta : f32)
    (w : world) :
  exists w' c,
    scan P SCAN_FUEL sliver theta (of_int screen_height) w = Some (w', c) /\
    Forall (fun s =>
              snd s = radius (fst s) /\
              fgt (fst s) (of_int 0) = true /\
              fst s <> S754_zero false /\ fst s <> S754_zero true /\
              fle (of_int 2) (fst s) = true)
           (col_samples c) /\
    (col_hit c = false ->
     col_wall_height c = of_int 0 /\
     map fst (col_samples c) = descent FULL_SCAN /\
     ~ In (of_int 0) (map fst (col_samples c))).
Proof.
  destruct (scan_column P sliver theta w) as (w' & c & E & Hp).
  exists w', c. split; [exact E|].
  pose proof (scan_post_column P sliver theta w w w' c
                (same_scene_refl w) Hp) as Hc.
  assert (Hpos : forall h, In h (descent FULL_SCAN) ->
                   fgt h (of_int 0) = true /\ h <> S754_zero false /\
                   h <> S754_zero true /\ fle (of_int 2) h = true).
  { intros h Hin. destruct (descent_in _ _ Hin) as (k & Hk & ->).
    pose proof (hgt_positive k Hk) as Hg.
    destruct (hgt_bounds k Hk) as (_ & _ & H2).
    repeat split; try assumption; intros Hz; rewrite Hz in Hg; discriminate. }
  split.
  - destruct (column_samples_prefix P w theta c Hc) as [rest Hr].
    destruct (column_samples_heights P w theta c Hc) as [_ Hrad].
    rewrite Forall_forall in *. intros s Hin.
    split; [now apply Hrad|]. apply Hpos. rewrite Hr.
    apply in_or_app. left. now apply List.in_map.
  - intros Hh.
    destruct (column_post_height P w theta c Hc)
      as [(Hh' & _)|(_ & Hw & _ & Hall)]; [congruence|].
    destruct Hc as [Hs Hm].
    destruct (snd (sweep (hits P w theta) (descent FULL_SCAN))) eqn:Ef;
      [destruct Hm; congruence|].
    destruct (sweep_missed _ _ Ef) as [Es _].
    assert (Hd : map fst (col_samples c) = descent FULL_SCAN).
    { rewrite Hs, Es, map_map. cbn [fst]. apply map_id. }
    repeat split; try assumption.
    rewrite Hd. intros Hin. apply Hpos in Hin as (_ & Hz & _).
    apply Hz. reflexivity.
Qed.

(** C9.  [ray_cast] returns and leaves the map and the player pose as they
    were: every cell of [my_map] and the values of [player_x], [player_y]
    and [player_bearing] after the call equal those before it. *)
Theorem ray_cast_preserves_map_and_pose (P : platform) (w : world) :
  exists w' cs,
    ray_cast P w = Some (w', cs) /\
    my_map w' = my_map w /\
    (forall i j, cell (my_map w') i j = cell (my_map w) i j) /\
    player_x w' = player_x w /\
    player_y w' = player_y w /\
    player_bearing w' = player_bearing w.
Proof.
  destruct (ray_cast_returns P w) as (w' & cs & E & Hs & _).
  exists w', cs. split; [exact E|].
  destruct Hs as (Hm & Hx & Hy & Hb & _).
  repeat split; try assumption. intros i j. now rewrite Hm.
Qed.

(** C10.  For every platform, every map and every pose whose position is
    strictly inside (0, MAP_X_DIM) x (0, MAP_Y_DIM) and whose bearing is
    such that the math library returns at each of the NUM_SLIVERS view
    angles a cosine or a sine of magnitude at least 1/2 (not every bearing
    is: see [huge_bearing_world]): the radius of the last iteration (wall
    height 2) is 32, the point sampled there fails the bounds tests in
    every column, and so every column of [ray_cast] ends with a hit, at a
    wall height of at least 2. *)
Theorem every_column_hits (P : platform) (w : world) :
  inside_map w ->
  (forall j, (j < Z.to_nat NUM_SLIVERS)%nat ->
             trig_usable P (ray_angle (player_bearing w) j)) ->
  exists w' cs,
    ray_cast P w = Some (w', cs) /\
    Z.of_nat (List.length cs) = NUM_SLIVERS /\
    radius (of_int 2) = of_int 32 /\
    (forall j, (j < Z.to_nat NUM_SLIVERS)%nat ->
       out_of_bounds
         (ray_x P w (ray_angle (player_bearing w) j) (of_int 2))
         (ray_y P w (ray_angle (player_bearing w) j) (of_int 2)) = true) /\
    Forall (fun ic => col_hit (snd ic) = true /\
                      fle (of_int 2) (col_wall_height (snd ic)) = true) cs.
Proof.
  intros Hin Htrig.
  destruct (ray_cast_returns P w) as (w' & cs & E & _ & _ & Hi & Hc).
  exists w', cs. split; [exact E|].
  assert (Hlen : List.length cs = Z.to_nat NUM_SLIVERS).
  { rewrite <- (length_map fst), Hi, length_map, length_seq. reflexivity. }
  split; [rewrite Hlen; reflexivity|].
  split; [exact radius_last|].
  split; [intros j Hj; rewrite <- hgt_1; apply last_sample_outside; auto|].
  apply Forall_forall. intros [i c] Hic. cbn [snd].
  assert (Hic' : In c (map snd cs)).
  { apply in_map_iff. now exists (i, c). }
  apply In_nth_error in Hic' as [j Hj].
  assert (Hjlt : (j < Z.to_nat NUM_SLIVERS)%nat).
  { rewrite <- Hlen, <- (length_map snd). apply nth_error_Some. congruence. }
  destruct (column_post_height P _ _ _ (Hc j c Hj))
    as [(Hh & k & Hk & -> & _)|(_ & _ & _ & Hall)].
  - split; [exact Hh|]. now destruct (hgt_bounds k Hk) as (_ & _ & H2).
  - exfalso. rewrite Forall_forall in Hall.
    assert (Hmiss : hits P w (ray_angle (player_bearing w) j) (hgt 1) = false).
    { apply Hall. apply descent_has. unfold FULL_SCAN.
      change (Z.to_nat (screen_height / 2)) with 32%nat. lia. }
    unfold hits in Hmiss.
    rewrite (last_sample_outside P w _ Hin (Htrig j Hjlt)) in Hmiss.
    discriminate.
Qed.

(** X1.  [ray_cast] subscripts [my_map] only after the four bounds tests:
    for every platform and world whose position is a valid finite pair and
    on which the math library returns valid finite numbers at the
    NUM_SLIVERS view angles, every subscript pair that [ray_cast] evaluates
    lies inside the array. *)
Theorem ray_cast_subscripts_inside_map (P : platform) (w : world) :
  sound (player_x w) = true -> sound (player_y w) = true ->
  (forall j, (j < Z.to_nat NUM_SLIVERS)%nat ->
             trig_sound P (ray_angle (player_bearing w) j) = true) ->
  exists w' cs l,
    ray_cast P w = Some (w', cs) /\
    map_reads w' = l ++ map_reads w /\
    Forall (fun ij => in_map (fst ij) (snd ij) = true) l.
Proof.
  intros Hx Hy Htrig.
  apply andb_prop in Hx as [Hvx Hfx]. apply andb_prop in Hy as [Hvy Hfy].
  destruct (ray_cast_returns P w) as (w' & cs & E & _ & (l & R & F) & _).
  exists w', cs, l. split; [exact E|]. split; [exact R|].
  eapply Forall_impl; [|exact F].
  intros ij (j & Hj & h & Hh & Ho & ->). cbn [fst snd].
  rewrite <- ray_angle_advance in *.
  destruct (descent_in _ _ Hh) as (k & Hk & ->).
  destruct (hgt_radius_sound k Hk) as [Hvr Hfr].
  specialize (Htrig j Hj). unfold trig_sound, sound in Htrig.
  apply andb_prop in Htrig as [Hc Hs].
  apply andb_prop in Hc as [Hvc Hfc]. apply andb_prop in Hs as [Hvs Hfs].
  unfold out_of_bounds in Ho.
  apply orb_false_elim in Ho as [Ho Hy1]. apply orb_false_elim in Ho as [Ho Hx1].
  apply orb_false_elim in Ho as [Hx0 Hy0].
  set (theta := ray_angle (player_bearing w) j) in *.
  assert (Hgx : int_defined (ray_x P w theta (hgt k)) = true /\
                0 <= trunc (ray_x P w theta (hgt k)) < MAP_X_DIM).
  { apply guarded_index; try assumption; unfold ray_x.
    - auto using fadd_valid, fmul_valid.
    - auto using fadd_not_nan, fmul_not_nan. }
  assert (Hgy : int_defined (ray_y P w theta (hgt k)) = true /\
                0 <= trunc (ray_y P w theta (hgt k)) < MAP_X_DIM).
  { apply guarded_index; try assumption; unfold ray_y.
    - auto using fadd_valid, fmul_valid.
    - auto using fadd_not_nan, fmul_not_nan. }
  destruct Hgx as [Hdx Hix]. destruct Hgy as [Hdy Hiy].
  rewrite !to_int_defined by assumption. unfold in_map.
  change MAP_Y_DIM with MAP_X_DIM.
  repeat (apply andb_true_intro; split);
    try apply Z.leb_le; try apply Z.ltb_lt; lia.
Qed.

(** ** Properties of the movement controller *)

Lemma cons_not_self {A : Type} (a : A) (l : list A) : l <> a :: l.
Proof.
  intros H. apply (f_equal (@List.length A)) in H. cbn in H. lia.
Qed.

(** [step_forward] keeps validity of the position when its inputs and the
    math library's results are valid. *)
Lemma step_forward_valid (P : platform) (d : f32) (w : world) :
  valid (player_x w) = true -> valid (player_y w) = true ->
  valid d = true ->
  (forall t, valid (cos P t) = true) -> (forall t, valid (sin P t) = true) ->
  valid (player_x (step_forward P d w)) = true /\
  valid (player_y (step_forward P d w)) = true.
Proof.
  intros Hx Hy Hd Hc Hs. unfold step_forward, read_map. cbv zeta.
  match goal with |- context [if ?b then _ else _] => destruct b end;
    cbn [player_x player_y set_position tone Serial_println log_read];
    auto using fadd_valid, fmul_valid.
Qed.

(** C3.  For every platform, starting world and distance, [step_forward]
    either commits the move (no error cue) or refuses it (one error cue).
    After a committed move the expression
    [my_map[(int)player_x][(int)player_y]] is 0 at the new position, and
    [0 < player_x < MAP_X_DIM] and [0 < player_y < MAP_Y_DIM] hold strictly;
    when the new coordinates are valid floats the subscripts lie inside the
    array, so that this is the cell the player stands in.  After a refused
    move [player_x], [player_y] and [player_bearing] are exactly what they
    were. *)
Theorem step_forward_commits_or_refuses (P : platform) (d : f32) (w : world) :
  let w' := step_forward P d w in
  (accepted w w' \/ rejected w w') /\
  (accepted w w' ->
     map_value P (my_map w') (to_int P (player_x w')) (to_int P (player_y w'))
       = 0 /\
     fgt (player_x w') (of_int 0) = true /\
     flt (player_x w') (of_int MAP_X_DIM) = true /\
     fgt (player_y w') (of_int 0) = true /\
     flt (player_y w') (of_int MAP_Y_DIM) = true /\
     player_bearing w' = player_bearing w /\
     (valid (player_x w') = true -> valid (player_y w') = true ->
      in_map (to_int P (player_x w')) (to_int P (player_y w')) = true /\
      cell (my_map w') (to_int P (player_x w')) (to_int P (player_y w')) = 0))
  /\
  (rejected w w' ->
     player_x w' = player_x w /\ player_y w' = player_y w /\
     player_bearing w' = player_bearing w).
Proof.
  cbv zeta. unfold accepted, rejected, step_forward, read_map. cbv zeta.
  set (dx := fmul d (cos P (fdiv (fmul (player_bearing w) PI) (of_int 180)))).
  set (dy := fmul d (sin P (fdiv (fmul (player_bearing w) PI) (of_int 180)))).
  cbn [player_x player_y log_read].
  set (x := fadd (player_x w) dx). set (y := fadd (player_y w) dy).
  destruct ((map_value P (my_map w) (to_int P x) (to_int P y) =? 0) &&
            fgt x (of_int 0) && fgt y (of_int 0) &&
            flt x (of_int MAP_X_DIM) && flt y (of_int MAP_Y_DIM)) eqn:T;
    cbn [tones my_map player_x player_y player_bearing set_position tone
         Serial_println log_read].
  - split; [left; reflexivity|]. split.
    + intros _.
      apply andb_prop in T as [T Hy1]. apply andb_prop in T as [T Hx1].
      apply andb_prop in T as [T Hy0]. apply andb_prop in T as [Hm Hx0].
      apply Z.eqb_eq in Hm.
      repeat (split; [assumption || reflexivity|]).
      intros Hvx Hvy.
      destruct (valid_in_bounds_index x Hvx Hx0 Hx1) as [Hdx Hix].
      destruct (valid_in_bounds_index y Hvy Hy0 Hy1) as [Hdy Hiy].
      assert (Hin : in_map (to_int P x) (to_int P y) = true).
      { rewrite !to_int_defined by assumption. unfold in_map.
        change MAP_Y_DIM with MAP_X_DIM.
        repeat (apply andb_true_intro; split);
          try apply Z.leb_le; try apply Z.ltb_lt; lia. }
      split; [exact Hin|]. unfold map_value in Hm. now rewrite Hin in Hm.
    + intros H. exfalso. revert H. apply cons_not_self.
  - split; [right; reflexivity|]. split.
    + intros H. exfalso. symmetry in H. revert H. apply cons_not_self.
    + intros _. repeat split.
Qed.

(** C1 at a concrete world.  On any platform whose [cos] and [sin] are
    exact at 0: with the player at (9.9375, 5.5) in an empty map, bearing 0,
    one walk step makes [step_forward] subscript [my_map] with (10, 5),
    which is outside the array, before the bounds tests refuse the move. *)
Theorem step_forward_subscript_outside_map (P : platform) :
  cos P (S754_zero false) = of_int 1 ->
  sin P (S754_zero false) = S754_zero false ->
  let w' := step_forward P player_walk_speed east_edge_world in
  inside_map east_edge_world /\
  map_reads east_edge_world = [] /\
  map_reads w' = [(10, 5)] /\ in_map 10 5 = false /\
  rejected east_edge_world w'.
Proof.
  intros Hc Hs. cbv zeta.
  split; [repeat split|]. split; [reflexivity|].
  unfold rejected, step_forward, read_map. cbv zeta.
  unfold east_edge_world.
  cbn [player_bearing player_x player_y Ref.make_world log_read my_map].
  change (fdiv (fmul (of_int 0) PI) (of_int 180)) with (S754_zero false).
  rewrite Hc, Hs.
  set (x := fadd (fsub (of_int 10) (Ref.ratio 1 16))
                 (fmul player_walk_speed (of_int 1))).
  set (y := fadd (Ref.ratio 11 2) (fmul player_walk_speed (S754_zero false))).
  assert (Ex : to_int P x = 10)
    by (apply to_int_defined; vm_compute; reflexivity).
  assert (Ey : to_int P y = 5)
    by (apply to_int_defined; vm_compute; reflexivity).
  rewrite Ex, Ey.
  assert (Hx : flt x (of_int MAP_X_DIM) = false) by (vm_compute; reflexivity).
  rewrite Hx, andb_false_r. cbn [andb].
  repeat split.
Qed.

Lemma turn_right_then_left_bearing (theta : f32) (w : world) :
  player_bearing (turn_left theta (turn_right theta w)) =
    fsub (fadd (player_bearing w) theta) theta.
Proof. reflexivity. Qed.

(** C7, amended.  For every platform, starting world and distance,
    [strafe_left] ends at the same [player_x] and [player_y] as the three
    calls [turn_left(90); step_forward(d); turn_right(90)] made by hand,
    whether the inner step is committed or refused, and its final bearing
    is (b - 90) + 90 in binary32 arithmetic, b the bearing before; this is
    exactly b whenever b is n turn steps of 11.25 degrees from 0 with
    |n| <= GRID_SPAN. *)
Theorem strafe_left_as_composition (P : platform) (d : f32) (w : world) :
  let w' := strafe_left P d w in
  let w'' := turn_step_turn_back P d w in
  player_x w' = player_x w'' /\ player_y w' = player_y w'' /\
  player_bearing w' =
    fadd (fsub (player_bearing w) (of_int 90)) (of_int 90) /\
  (forall n, - GRID_SPAN <= n <= GRID_SPAN ->
             player_bearing w = grid_bearing n ->
             player_bearing w' = player_bearing w).
Proof.
  cbv zeta. split; [reflexivity|]. split; [reflexivity|].
  split; [apply strafe_left_bearing|].
  intros n Hn Hb. rewrite strafe_left_bearing, Hb.
  now destruct (quarter_turn_on_grid n Hn) as (_ & H & _).
Qed.

(** C8, amended.  For every bearing b that is n turn steps of 11.25
    degrees from 0, |n| <= BEARING_SPAN, and every angle theta that is m
    such steps, |m| <= ANGLE_SPAN, [turn_right(theta)] followed by
    [turn_left(theta)] leaves exactly b, which is congruent to b
    modulo 360. *)
Theorem turn_right_then_left_on_grid (w : world) (n m : Z) :
  - BEARING_SPAN <= n <= BEARING_SPAN ->
  - ANGLE_SPAN <= m <= ANGLE_SPAN ->
  player_bearing w = grid_bearing n ->
  let w' := turn_left (grid_bearing m) (turn_right (grid_bearing m) w) in
  player_bearing w' = player_bearing w /\
  congruent_mod_360 (player_bearing w') (player_bearing w).
Proof.
  intros Hn Hm Hb. cbv zeta. rewrite turn_right_then_left_bearing, Hb.
  destruct (turn_back_on_grid n m Hn Hm) as [Hf ->].
  split; [reflexivity|]. now apply congruent_mod_360_refl.
Qed.

(** ** Properties of the movement functions as a group *)

(** X2.  A player who stands strictly inside the map, in a cell that holds
    0, still does after any of the six movement functions, whatever the
    distance, the angle and the math library: the subscript
    [my_map[(int)player_x][(int)player_y]] is inside the array and the
    entry is 0 before and after. *)
Theorem movement_keeps_player_in_empty_cell
    (P : platform) (d theta : f32) (w : world) :
  well_placed w ->
  (in_map (to_int P (player_x w)) (to_int P (player_y w)) = true /\
   map_value P (my_map w) (to_int P (player_x w)) (to_int P (player_y w))
     = 0) /\
  well_placed (step_forward P d w) /\
  well_placed (step_backward P d w) /\
  well_placed (turn_left theta w) /\
  well_placed (turn_right theta w) /\
  well_placed (strafe_left P d w) /\
  well_placed (strafe_right P d w).
Proof.
  intros H. split.
  - destruct H as [Hin Hc].
    destruct (inside_map_index P w Hin) as (Tx & Ty & Hi).
    unfold map_value. rewrite Tx, Ty, Hi. split; [reflexivity|exact Hc].
  - repeat match goal with |- _ /\ _ => split end;
      auto using step_forward_well_placed, strafe_left_well_placed,
        strafe_right_well_placed.
    apply (step_forward_well_placed P (fneg d) w H).
Qed.

(** X3.  For every platform, starting world and distance, [strafe_right]
    ends at the same [player_x] and [player_y] as the three calls
    [turn_right(90); step_forward(d); turn_left(90)] made by hand, it
    leaves the map alone, and its final bearing is (b + 90) - 90 in
    binary32 arithmetic, b the bearing before; this is exactly b whenever
    b is n turn steps of 11.25 degrees from 0 with |n| <= GRID_SPAN. *)
Theorem strafe_right_as_composition (P : platform) (d : f32) (w : world) :
  let w' := strafe_right P d w in
  let w'' := turn_step_turn_back_right P d w in
  player_x w' = player_x w'' /\ player_y w' = player_y w'' /\
  my_map w' = my_map w /\
  player_bearing w' =
    fsub (fadd (player_bearing w) (of_int 90)) (of_int 90) /\
  (forall n, - GRID_SPAN <= n <= GRID_SPAN ->
             player_bearing w = grid_bearing n ->
             player_bearing w' = player_bearing w).
Proof.
  cbv zeta. split; [reflexivity|]. split; [reflexivity|].
  split; [exact (step_forward_map P d (turn_right (of_int 90) w))|].
  split; [apply strafe_right_bearing|].
  intros n Hn Hb. now apply (strafe_right_on_grid P d w n).
Qed.

(** ** Properties of the map generation *)

Lemma cell_empty_map (i j : Z) : cell Ref.empty_map i j = 0.
Proof.
  unfold cell, Ref.empty_map.
  destruct (Nat.lt_ge_cases (Z.to_nat i) (Z.to_nat MAP_X_DIM)) as [H|H].
  - rewrite nth_repeat_lt by exact H. apply nth_repeat.
  - replace (nth (Z.to_nat i)
               (repeat (repeat 0 (Z.to_nat MAP_Y_DIM)) (Z.to_nat MAP_X_DIM))
               []) with (@nil Z)
      by (symmetry; apply nth_overflow; now rewrite repeat_length).
    now destruct (Z.to_nat j).
Qed.

(** X4.  On a map of the declared dimensions [clear_map] returns, leaves
    every cell 0 and changes nothing but the map. *)
Theorem clear_map_empties_map (w : world) :
  shaped (my_map w) ->
  exists w',
    clear_map w = Some w' /\ w' = set_map Ref.empty_map w /\
    forall i j, cell (my_map w') i j = 0.
Proof.
  intros Hs. destruct (clear_map_spec w Hs) as (w' & E & ->).
  exists (set_map Ref.empty_map w). split; [exact E|].
  split; [reflexivity|]. intros i j. apply cell_empty_map.
Qed.

(** X5.  On a map of the declared dimensions [randomize_map] makes one
    call [random(100)] per cell, row by row, and stores 1 in the cell when
    the number is below [density] and 0 otherwise; its last statement then
    stores 0 in [my_map[(int)player_x][(int)player_y]].  When that
    subscript lies inside the array the function returns with the cell of
    the player empty, the other cells as drawn, and nothing but the map
    and the generator changed; when it lies outside, the last store is
    outside the array. *)
Theorem randomize_map_cells (P : platform) (A : core) (density : Z)
    (s : sketch) :
  shaped (my_map (globals s)) ->
  let px := to_int P (player_x (globals s)) in
  let py := to_int P (player_y (globals s)) in
  (in_map px py = true ->
   exists s',
     randomize_map P A density s = Some s' /\
     s' = remapped (my_map (globals s')) (random_calls s + 100) s /\
     shaped (my_map (globals s')) /\
     cell (my_map (globals s')) px py = 0 /\
     forall x y, in_map x y = true ->
       cell (my_map (globals s')) x y =
         if (x =? px) && (y =? py) then 0
         else if random A (random_calls s + cell_rank x y) 0 100 <? density
              then 1 else 0) /\
  (in_map px py = false -> randomize_map P A density s = None).
Proof.
  intros Hs. cbv zeta. split.
  - intros Hp.
    destruct (randomize_map_spec P A density s Hs Hp)
      as (s' & E & Hw & Hs' & Hc).
    exists s'. split; [exact E|]. split; [exact Hw|]. split; [exact Hs'|].
    split; [|exact Hc].
    rewrite (Hc _ _ Hp). unfold generated_cell. now rewrite !Z.eqb_refl.
  - apply randomize_map_outside. exact Hs.
Qed.

(** X6.  With a generator that keeps [random(0, 100)] in [0, 100):
    after [randomize_map] every cell is 0 or 1; a density of 0 or less
    leaves the map empty; a density of 100 or more leaves a wall in every
    cell but the player's. *)
Theorem randomize_map_density_extremes (P : platform) (A : core)
    (density : Z) (s : sketch) :
  random_in_range A ->
  shaped (my_map (globals s)) ->
  in_map (to_int P (player_x (globals s))) (to_int P (player_y (globals s)))
    = true ->
  exists s',
    randomize_map P A density s = Some s' /\
    (forall x y, in_map x y = true ->
       cell (my_map (globals s')) x y = 0 \/
       cell (my_map (globals s')) x y = 1) /\
    (density <= 0 -> my_map (globals s') = Ref.empty_map) /\
    (100 <= density ->
     forall x y, in_map x y = true ->
       cell (my_map (globals s')) x y =
         if (x =? to_int P (player_x (globals s))) &&
            (y =? to_int P (player_y (globals s)))
         then 0 else 1).
Proof.
  intros Hr Hs Hp.
  destruct (randomize_map_spec P A density s Hs Hp)
    as (s' & E & Hw & Hs' & Hc).
  exists s'. split; [exact E|]. split; [|split].
  - intros x y Hxy. rewrite (Hc x y Hxy). unfold generated_cell.
    destruct (_ && _); [now left|]. destruct (_ <? _); auto.
  - intros Hd. apply shaped_zero; [exact Hs'|]. intros x y Hxy.
    rewrite (Hc x y Hxy). unfold generated_cell.
    destruct (_ && _); [reflexivity|].
    pose proof (Hr (random_calls s + cell_rank x y)%nat 0 100 ltac:(lia)).
    destruct (Z.ltb_spec (random A (random_calls s + cell_rank x y) 0 100)
                density); [lia|reflexivity].
  - intros Hd x y Hxy. rewrite (Hc x y Hxy). unfold generated_cell.
    destruct (_ && _); [reflexivity|].
    pose proof (Hr (random_calls s + cell_rank x y)%nat 0 100 ltac:(lia)).
    destruct (Z.ltb_spec (random A (random_calls s + cell_rank x y) 0 100)
                density); [reflexivity|lia].
Qed.

(** X7.  [generate_wall_textures] returns after 180 calls [random(0, 100)],
    one per entry in the order texture, row, column; entry (i, x, y) is 1
    when its number is below 5 i and 0 otherwise, and nothing but the
    textures and the generator changes.  With a generator that keeps
    [random(0, 100)] in [0, 100), texture 0 is all 0. *)
Theorem generate_wall_textures_entries (A : core) (s : sketch) :
  exists s',
    generate_wall_textures A s = Some s' /\
    s' = retextured (wall_textures (globals s')) (random_calls s + 180) s /\
    (forall i x y,
       wall_textures (globals s') i x y =
         if in_textures i x y
         then if random A (random_calls s + texture_rank i x y) 0 100 <? i * 5
              then 1 else 0
         else wall_textures (globals s) i x y) /\
    (random_in_range A ->
     forall x y, in_textures 0 x y = true ->
                 wall_textures (globals s') 0 x y = 0).
Proof.
  destruct (generate_wall_textures_spec A s) as (s' & E & Hw & Ht).
  exists s'. split; [exact E|]. split; [exact Hw|]. split; [exact Ht|].
  intros Hr x y Hin. rewrite Ht, Hin. unfold generated_texel.
  pose proof (Hr (random_calls s + texture_rank 0 x y)%nat 0 100 ltac:(lia)).
  destruct (Z.ltb_spec (random A (random_calls s + texture_rank 0 x y) 0 100)
              (0 * 5)); [lia|reflexivity].
Qed.

(** X15.  [print_map] returns having completed MAP_Y_DIM lines on
    [Serial], one per row: a full stop for a cell that holds 0, the number
    [Serial.print] writes otherwise; every subscript it uses lies inside
    the array and nothing but [Serial] changes. *)
Theorem print_map_lines (P : platform) (A : core) (s : sketch) :
  exists rd,
    print_map P A s =
      Some (written EmptyString
              (map_text A (my_map (globals s)) (line s)
                 ++ serial (globals s))
              (rd ++ map_reads (globals s)) s) /\
    Forall (fun ij => in_map (fst ij) (snd ij) = true) rd /\
    Z.of_nat (List.length (map_text A (my_map (globals s)) (line s)))
      = MAP_Y_DIM.
Proof.
  destruct (print_map_spec P A s) as (rd & E & Hrd).
  exists rd. split; [exact E|]. split; [exact Hrd|]. reflexivity.
Qed.

(** ** Properties of the drawing *)

Lemma sliver_pixels_length (t : Z -> Z -> Z -> Z) (x : Z) (k : nat) :
  (1 <= k)%nat -> List.length (sliver_pixels t x k) = (2 * k + 1)%nat.
Proof.
  intros Hk. unfold sliver_pixels, zrange.
  rewrite length_app, length_rev, !length_map, length_seq. cbn. lia.
Qed.

(** X8.  At each wall height 2k the scan can pass, k from 1 to 32,
    [render_sliver] returns having drawn 2k + 1 pixels, all in column x:
    the rows 32 - k and 32 + k in white, then the rows between them from
    the top down, each with the colour of the entry (x % 3, y % 3) of
    texture min(19, floor(5k / 8)); nothing but the display changes.  The
    lower end is on row 32 + k, which for the full height is row 64, one
    below the last row of the screen. *)
Theorem render_sliver_draws_sliver (P : platform) (x : Z) (c : f32)
    (w : world) (k : nat) :
  (1 <= k <= FULL_SCAN)%nat ->
  render_sliver P x (hgt k) c w =
    Some (set_display (sliver_pixels (wall_textures w) x k ++ display w) w) /\
  List.length (sliver_pixels (wall_textures w) x k) = (2 * k + 1)%nat /\
  Forall (fun p => fst (fst p) = x /\
                   screen_height / 2 - Z.of_nat k <= snd (fst p)
                     <= screen_height / 2 + Z.of_nat k)
         (sliver_pixels (wall_textures w) x k) /\
  In (x, screen_height / 2 + Z.of_nat k, true)
     (sliver_pixels (wall_textures w) x k).
Proof.
  intros Hk. split; [now apply render_sliver_pixels|].
  split; [apply sliver_pixels_length; lia|]. split.
  - unfold sliver_pixels. apply Forall_app. split.
    + apply Forall_rev, Forall_map, Forall_forall. intros y Hy.
      apply zrange_iff in Hy. cbn [fst snd]. lia.
    + repeat constructor; cbn [fst snd]; lia.
  - unfold sliver_pixels. apply in_or_app. right. now left.
Qed.

(** X9.  [ray_cast] returns, and what it has drawn is, column after
    column, the sliver of each column whose scan hit, at the height the
    scan reports, and nothing for a column that did not hit.  Every pixel
    is in a column of the screen, on a row between 0 and SCREEN_HEIGHT
    inclusive.  [ray_cast] writes nothing on [Serial] and sounds no
    tone. *)
Theorem ray_cast_picture (P : platform) (w : world) :
  exists w' cs,
    ray_cast P w = Some (w', cs) /\
    display w' =
      flat_map (column_pixels (wall_textures w)) (rev cs) ++ display w /\
    Forall near_screen
      (flat_map (column_pixels (wall_textures w)) (rev cs)) /\
    serial w' = serial w /\ tones w' = tones w.
Proof.
  destruct (ray_cast_returns P w) as (w' & cs & E & _ & _ & Hi & Hc).
  exists w', cs. split; [exact E|].
  unfold ray_cast in E. apply cast_columns_pixels in E as (Hd & Hser & Hton & _).
  split; [exact Hd|]. split; [|split; assumption].
  - apply Forall_flat_map, Forall_forall. intros [x c] Hin.
    apply in_rev in Hin. apply In_nth_error in Hin as [j Hj].
    assert (Hx : nth_error (map fst cs) j = Some x)
      by (rewrite nth_error_map, Hj; reflexivity).
    assert (Hs : nth_error (map snd cs) j = Some c)
      by (rewrite nth_error_map, Hj; reflexivity).
    rewrite Hi, nth_error_map in Hx.
    destruct (nth_error (seq 0 (Z.to_nat NUM_SLIVERS)) j) as [a|] eqn:Ea;
      [|discriminate].
    injection Hx as <-. apply nth_error_In, in_seq in Ea.
    unfold column_pixels. cbn [fst snd].
    destruct (column_post_height P w _ c (Hc j c Hs))
      as [(Hh & k & Hk & Hw & _)|(Hh & _)]; rewrite Hh; [|constructor].
    rewrite Hw, height_index_hgt by lia.
    apply sliver_pixels_near; [exact Hk|].
    unfold NUM_SLIVERS, screen_width, SCREEN_WIDTH in *. lia.
Qed.

(** X21.  [ray_cast] calls [randomSeed] once for each column whose scan
    hit and not otherwise: after it the generator has been reseeded as
    many times as there are columns with a hit, of the NUM_SLIVERS
    columns scanned. *)
Theorem ray_cast_reseeds_per_hit (P : platform) (w : world) :
  exists w' cs,
    ray_cast P w = Some (w', cs) /\
    Z.of_nat (List.length cs) = NUM_SLIVERS /\
    List.length (seeds w') =
      (List.length (filter (fun ic => col_hit (snd ic)) cs)
       + List.length (seeds w))%nat.
Proof.
  destruct (ray_cast_returns P w) as (w' & cs & E & _ & _ & Hi & _).
  exists w', cs. split; [exact E|]. split.
  - rewrite <- (length_map fst), Hi, length_map, length_seq.
    reflexivity.
  - unfold ray_cast in E. now apply cast_columns_pixels in E.
Qed.

Lemma rect_pixels_length (c x1 y1 x2 y2 : Z) :
  List.length (rect_pixels c x1 y1 x2 y2) =
    (Z.to_nat (x2 - x1) * Z.to_nat (y2 - y1))%nat.
Proof.
  unfold rect_pixels.
  induction (rev (zrange y1 (Z.to_nat (y2 - y1)))) as [|y l IH] eqn:E in |- *.
  - cbn.
    assert (H : List.length (rev (zrange y1 (Z.to_nat (y2 - y1)))) = 0%nat)
      by (now rewrite E).
    unfold zrange in H. rewrite length_rev, length_map, length_seq in H.
    rewrite H. lia.
  - clear IH.
    assert (G : forall l : list Z,
              List.length
                (flat_map (fun y => flat_map (fun x => [(x, y, c >? 0)])
                                     (rev (zrange x1 (Z.to_nat (x2 - x1)))))
                          l)
              = (Z.to_nat (x2 - x1) * List.length l)%nat).
    { induction l0 as [|a l0 IH0]; cbn [flat_map List.length]; [lia|].
      rewrite length_app, IH0, flat_map_singleton, length_map, length_rev.
      unfold zrange. rewrite length_map, length_seq. lia. }
    rewrite G, <- E. unfold zrange.
    now rewrite length_rev, length_map, length_seq.
Qed.

(** X10.  [pete_rect] always returns, having drawn in the fill colour
    exactly the pixels (x, y) with x1 <= x < x2 and y1 <= y < y2, row by
    row: max(0, x2 - x1) * max(0, y2 - y1) pixels, none when the rectangle
    is empty; nothing but the display changes. *)
Theorem pete_rect_paints_rectangle (x1 y1 x2 y2 : Z) (s : sketch) :
  pete_rect x1 y1 x2 y2 s =
    Some (paint (rect_pixels (fill_color s) x1 y1 x2 y2) s) /\
  (forall p, In p (rect_pixels (fill_color s) x1 y1 x2 y2) <->
             x1 <= fst (fst p) < x2 /\ y1 <= snd (fst p) < y2 /\
             snd p = (fill_color s >? 0)) /\
  List.length (rect_pixels (fill_color s) x1 y1 x2 y2) =
    (Z.to_nat (x2 - x1) * Z.to_nat (y2 - y1))%nat.
Proof.
  split; [apply pete_rect_paints|]. split.
  - intros p. apply rect_pixels_iff.
  - apply rect_pixels_length.
Qed.

(** X11.  [pete_line] does the same whichever end point is given first. *)
Theorem pete_line_symmetric (P : platform) (x1 y1 x2 y2 : Z) (s : sketch) :
  pete_line P x2 y2 x1 y1 s = pete_line P x1 y1 x2 y2 s.
Proof.
  unfold pete_line.
  destruct (Z.ltb_spec x1 x2) as [L1|L1], (Z.ltb_spec x2 x1) as [L2|L2];
    try lia; try reflexivity.
  assert (x1 = x2) by lia. subst x2. cbv zeta.
  rewrite Z.eqb_refl. cbn [negb].
  destruct (Z.ltb_spec y1 y2) as [M1|M1], (Z.ltb_spec y2 y1) as [M2|M2];
    try lia; try reflexivity.
  assert (y1 = y2) by lia. now subst y2.
Qed.

Lemma line_pixels_length (P : platform) (c x1 y1 x2 y2 : Z) :
  List.length (line_pixels P c x1 y1 x2 y2) =
    Z.to_nat (if x1 =? x2 then Z.abs (y2 - y1) else Z.abs (x2 - x1)).
Proof.
  unfold line_pixels.
  destruct (Z.ltb_spec x2 x1) as [L|L]; cbv zeta.
  - replace (x2 =? x1) with false by (symmetry; apply Z.eqb_neq; lia).
    replace (x1 =? x2) with false by (symmetry; apply Z.eqb_neq; lia).
    rewrite flat_map_singleton, length_map, length_rev. unfold zrange.
    rewrite length_map, length_seq. lia.
  - destruct (Z.eqb_spec x1 x2) as [E|E];
      rewrite flat_map_singleton, length_map, length_rev; unfold zrange;
      rewrite length_map, length_seq; lia.
Qed.

(** X12.  For end points in the range of [int], [pete_line] returns and
    nothing but the display changes.  A line that is not vertical gets one
    pixel in each column from the left end point up to, not including,
    the right one, |x2 - x1| pixels however steep it is; a vertical line
    gets the rows from the upper end point up to, not including, the lower
    one; a line of length 0 gets no pixel. *)
Theorem pete_line_pixels_drawn (P : platform) (x1 y1 x2 y2 : Z)
    (s : sketch) :
  is_int x1 -> is_int y1 -> is_int x2 -> is_int y2 ->
  pete_line P x1 y1 x2 y2 s =
    Some (paint (line_pixels P (stroke_color s) x1 y1 x2 y2) s) /\
  List.length (line_pixels P (stroke_color s) x1 y1 x2 y2) =
    Z.to_nat (if x1 =? x2 then Z.abs (y2 - y1) else Z.abs (x2 - x1)) /\
  (x1 <> x2 ->
   map (fun p => fst (fst p)) (line_pixels P (stroke_color s) x1 y1 x2 y2) =
     rev (zrange (Z.min x1 x2) (Z.to_nat (Z.abs (x2 - x1))))) /\
  (x1 = x2 ->
   map fst (line_pixels P (stroke_color s) x1 y1 x2 y2) =
     map (fun y => (x1, y))
         (rev (zrange (Z.min y1 y2) (Z.to_nat (Z.abs (y2 - y1)))))).
Proof.
  intros H1 H2 H3 H4. split; [now apply pete_line_paints|].
  split; [apply line_pixels_length|]. split.
  - intros Hne. unfold line_pixels.
    destruct (Z.ltb_spec x2 x1) as [L|L]; cbv zeta.
    + replace (x2 =? x1) with false by (symmetry; apply Z.eqb_neq; lia).
      rewrite flat_map_singleton, map_map. cbn [fst].
      rewrite map_id. f_equal. f_equal; lia.
    + replace (x1 =? x2) with false by (symmetry; apply Z.eqb_neq; lia).
      rewrite flat_map_singleton, map_map. cbn [fst].
      rewrite map_id. f_equal. f_equal; lia.
  - intros <-. unfold line_pixels. rewrite Z.ltb_irrefl. cbv zeta.
    rewrite Z.eqb_refl, flat_map_singleton, map_map. cbn [fst].
    reflexivity.
Qed.

(** X13.  [draw_map_small] always returns, having drawn one pixel per
    cell, at the coordinates of the cell, white exactly when the cell
    holds a positive number; each cell is subscripted once, inside the
    array, and nothing else changes. *)
Theorem draw_map_small_pixels (P : platform) (w : world) :
  draw_map_small P w =
    Some (visited (small_pixels (my_map w)) cells_backward w) /\
  (forall p, In p (small_pixels (my_map w)) <->
             in_map (fst (fst p)) (snd (fst p)) = true /\
             snd p = (cell (my_map w) (fst (fst p)) (snd (fst p)) >? 0)) /\
  NoDup (map fst (small_pixels (my_map w))) /\
  Forall (fun ij => in_map (fst ij) (snd ij) = true) cells_backward.
Proof.
  split; [apply draw_map_small_spec|]. split; [|split].
  - intros [[x y] b]. unfold small_pixels. rewrite in_map_iff.
    cbn [fst snd]. split.
    + intros ([x' y'] & [= <- <- <-] & Hin).
      apply cells_backward_iff in Hin. now split.
    + intros [Hin ->]. exists (x, y). split; [reflexivity|].
      now apply cells_backward_iff.
  - destruct (small_pixels_once (my_map w)) as [-> H]. exact H.
  - apply Forall_forall. intros ij. apply cells_backward_iff.
Qed.

(** X14.  When undefined casts still give an [int], [draw_map] returns,
    having drawn first the overlay, in which the pixel (x, y) with
    0 <= x, y < 20 is drawn once, white exactly when the cell
    (x / 2, y / 2) holds a positive number, then the line of sight, and
    last the player's marker, white, at ((int)(2 player_x),
    (int)(2 player_y)).  It subscripts the map once per cell, inside the
    array, and changes nothing but the display and the two colours. *)
Theorem draw_map_overlay (P : platform) (s : sketch) :
  int_casts P ->
  draw_map P s =
    Some (set_stroke_color 1
            (traced (map (fun xy => cell (my_map (globals s)) (fst xy) (snd xy))
                         cells_backward)
                    (map_pixels P (globals s)) cells_backward s)) /\
  map_pixels P (globals s) =
    ((marker_x P (globals s), marker_y P (globals s), true) ::
     line_pixels P 1 (marker_x P (globals s)) (marker_y P (globals s))
       (look_x P (globals s)) (look_y P (globals s)))
    ++ overlay_pixels (my_map (globals s)) /\
  (forall p, In p (overlay_pixels (my_map (globals s))) <->
     0 <= fst (fst p) < MAP_X_DIM * map_block_dim /\
     0 <= snd (fst p) < MAP_Y_DIM * map_block_dim /\
     snd p = (cell (my_map (globals s)) (fst (fst p) / map_block_dim)
                (snd (fst p) / map_block_dim) >? 0)) /\
  NoDup (map fst (overlay_pixels (my_map (globals s)))) /\
  Forall (fun ij => in_map (fst ij) (snd ij) = true) cells_backward.
Proof.
  intros Hc. split; [now apply draw_map_spec|]. split; [reflexivity|].
  split; [intros p; apply overlay_pixels_iff|]. split.
  - apply overlay_pixels_once.
  - apply Forall_forall. intros ij. apply cells_backward_iff.
Qed.

(** ** Properties of [setup] and [loop] *)

(** X16.  When the display is not found [setup] never returns.
    Otherwise, from a map of the declared dimensions and a player strictly
    inside it, [setup] returns with the player in an empty cell of a map
    whose other cells are walls where the random number of the cell was
    below 17, with the frame counter 0, the generator seeded with 1 and
    called 280 times, the seven pins configured, and the player's pose
    unchanged. *)
Theorem setup_places_player (P : platform) (A : core) (s : sketch) :
  shaped (my_map (globals s)) -> inside_map (globals s) ->
  setup P A false s = None /\
  exists s',
    setup P A true s = Some s' /\
    well_placed (globals s') /\
    shaped (my_map (globals s')) /\
    (forall x y, in_map x y = true ->
       cell (my_map (globals s')) x y =
         if (x =? trunc (player_x (globals s))) &&
            (y =? trunc (player_y (globals s)))
         then 0
         else if random A (random_calls s + cell_rank x y) 0 100 <? 17
              then 1 else 0) /\
    player_x (globals s') = player_x (globals s) /\
    player_y (globals s') = player_y (globals s) /\
    player_bearing (globals s') = player_bearing (globals s) /\
    frame_number s' = 0 /\
    random_calls s' = (random_calls s + 280)%nat /\
    seeds (globals s') = 1 :: seeds (globals s) /\
    pin_modes s' = setup_pins ++ pin_modes s.
Proof.
  intros Hs Hin. split; [reflexivity|].
  destruct (inside_map_index P _ Hin) as (Tx & Ty & Hp).
  assert (Hp' : in_map (to_int P (player_x (globals s)))
                       (to_int P (player_y (globals s))) = true)
    by (now rewrite Tx, Ty).
  destruct (setup_spec P A s Hs Hp')
    as (s' & E & Hs' & Hc & _ & Hx & Hy & Hb & Hf & Hr & Hsd & _ & Hpm & _).
  rewrite Tx, Ty in Hc.
  exists s'. split; [exact E|]. split.
  { split.
    - unfold inside_map. rewrite Hx, Hy. exact Hin.
    - rewrite Hx, Hy, (Hc _ _ Hp). unfold generated_cell.
      now rewrite !Z.eqb_refl. }
  repeat (split; [assumption|]). exact Hpm.
Qed.

(** X17.  When undefined casts still give an [int], one pass of [loop]
    returns.  The frame it sends to the panel shows the scene as it was
    before the buttons were read: the slivers of [ray_cast], over them the
    overlay of [draw_map], and the caption of [display_frame_number].
    Then the six buttons are served in the order forward, backward, left,
    right, strafe left, strafe right; the map and the textures are
    unchanged, a player who stood in an empty cell inside the map still
    does, and the frame counter has advanced by one modulo 2^32. *)
Theorem loop_frame (P : platform) (A : core) (i : inputs) (s : sketch) :
  int_casts P ->
  exists s' w1 cs,
    ray_cast P (set_display [] (globals s)) = Some (w1, cs) /\
    loop P A i s = Some s' /\
    shown s' =
      {| pixels := map_pixels P (globals s) ++
                   flat_map (column_pixels (wall_textures (globals s)))
                            (rev cs);
         captions := fps_caption A i (frame_number s) |} :: shown s /\
    same_scene (button_control P i (globals s)) (globals s') /\
    my_map (globals s') = my_map (globals s) /\
    wall_textures (globals s') = wall_textures (globals s) /\
    (well_placed (globals s) -> well_placed (globals s')) /\
    frame_number s' = (frame_number s + 1) mod ULONG_SPAN.
Proof.
  intros Hc.
  destruct (loop_spec P A i s Hc)
    as (s' & w1 & cs & Er & E & Hsh & Hsc & Hfn & _).
  exists s', w1, cs. split; [exact Er|]. split; [exact E|].
  split; [exact Hsh|]. split; [exact Hsc|].
  destruct (button_control_map P i (globals s)) as [Bm Bt].
  pose proof Hsc as (Sm & _ & _ & _ & St).
  split; [congruence|]. split; [congruence|]. split; [|exact Hfn].
  intros H. apply (well_placed_scene _ _ Hsc).
  now apply button_control_well_placed.
Qed.

(** X20.  What the frame of one pass of [loop] shows.  When undefined
    casts still give an [int], the newest pixel drawn at the player's
    marker is white.  At any other point that is not on the line of
    sight: inside the 20 x 20 corner of the overlay the newest pixel is
    that of the overlay, white exactly when the cell (x / 2, y / 2) holds
    a positive number, so the overlay hides the walls behind it;
    elsewhere it is that of the sliver of column x, white at its two
    ends, the texture between them, and no pixel is drawn above or below
    the sliver, in a column without a hit or outside the columns
    0..NUM_SLIVERS-1. *)
Theorem loop_frame_shows (P : platform) (A : core) (i : inputs)
    (s : sketch) :
  int_casts P ->
  let w := globals s in
  exists s' f w1 cs,
    loop P A i s = Some s' /\ shown s' = f :: shown s /\
    ray_cast P (set_display [] w) = Some (w1, cs) /\
    pixel_at (pixels f) (marker_x P w) (marker_y P w) = Some true /\
    forall x y,
      (x, y) <> (marker_x P w, marker_y P w) ->
      ~ In (x, y)
           (map fst (line_pixels P 1 (marker_x P w) (marker_y P w)
                       (look_x P w) (look_y P w))) ->
      pixel_at (pixels f) x y =
        if (0 <=? x) && (x <? MAP_X_DIM * map_block_dim) &&
           (0 <=? y) && (y <? MAP_Y_DIM * map_block_dim)
        then Some (cell (my_map w) (x / map_block_dim) (y / map_block_dim)
                     >? 0)
        else if 0 <=? x then
               match nth_error cs (Z.to_nat x) with
               | Some ic => column_at (wall_textures w) x (snd ic) y
               | None => None
               end
             else None.
Proof.
  intros Hc. cbv zeta.
  destruct (loop_spec P A i s Hc) as (s' & w1 & cs & Er & E & Hsh & _).
  eexists s', _, w1, cs. split; [exact E|]. split; [exact Hsh|].
  split; [exact Er|]. cbn [pixels]. unfold map_pixels. split.
  - cbn [app pixel_at]. now rewrite !Z.eqb_refl.
  - intros x y Hm Hl. rewrite <- app_assoc, !pixel_at_app.
    rewrite pixel_at_absent.
    + rewrite pixel_at_overlay.
      destruct ((0 <=? x) && (x <? MAP_X_DIM * map_block_dim) &&
                (0 <=? y) && (y <? MAP_Y_DIM * map_block_dim));
        [reflexivity|].
      eapply pixel_at_slivers, Er.
    + cbn [map fst In]. intros [H|H]; [|contradiction].
      apply Hm. now symmetry.
Qed.

(** X18.  When undefined casts still give an [int]: from a map of the
    declared dimensions and a player strictly inside it, [setup] followed
    by any number of passes of [loop], whatever the buttons and the clock
    do, returns with the player standing strictly inside the map in an
    empty cell, on the map [setup] generated; one frame has been sent to
    the panel per pass, and the frame counter is the number of passes
    modulo 2^32. *)
Theorem run_keeps_player_in_empty_cell (P : platform) (A : core)
    (frames : list inputs) (s : sketch) :
  int_casts P ->
  shaped (my_map (globals s)) -> inside_map (globals s) ->
  exists s0 s',
    setup P A true s = Some s0 /\
    run P A true frames s = Some s' /\
    well_placed (globals s') /\
    my_map (globals s') = my_map (globals s0) /\
    wall_textures (globals s') = wall_textures (globals s0) /\
    frame_number s' = Z.of_nat (List.length frames) mod ULONG_SPAN /\
    List.length (shown s') = (List.length frames + List.length (shown s))%nat.
Proof.
  intros Hc Hs Hin.
  destruct (inside_map_index P _ Hin) as (Tx & Ty & Hp).
  assert (Hp' : in_map (to_int P (player_x (globals s)))
                       (to_int P (player_y (globals s))) = true)
    by (now rewrite Tx, Ty).
  destruct (setup_spec P A s Hs Hp')
    as (s0 & E & Hs0 & Hc0 & _ & Hx & Hy & Hb & Hf & _ & _ & _ & _ & _ & Hsh).
  assert (W0 : well_placed (globals s0)).
  { split.
    - unfold inside_map. rewrite Hx, Hy. exact Hin.
    - rewrite Hx, Hy, (Hc0 _ _ Hp), Tx, Ty. unfold generated_cell.
      now rewrite !Z.eqb_refl. }
  destruct (loops_spec P A Hc frames s0)
    as (s' & E' & Hm & Ht & Hw & Hfn & Hl & _).
  exists s0, s'. split; [exact E|]. unfold run. rewrite E.
  split; [exact E'|]. split; [now apply Hw|]. split; [exact Hm|].
  split; [exact Ht|]. split.
  - rewrite Hfn, Hf; [reflexivity|]. rewrite Hf.
    split; [apply Z.le_refl|reflexivity].
  - now rewrite Hl, Hsh.
Qed.

(** X19.  [move_randomly] makes one call [random(0, 4)], whatever the
    generator returns it leaves the map alone, and it keeps a player who
    stands in an empty cell inside the map in such a cell. *)
Theorem move_randomly_keeps_player_in_empty_cell (P : platform) (A : core)
    (s : sketch) :
  well_placed (globals s) ->
  let s' := move_randomly P A s in
  well_placed (globals s') /\
  my_map (globals s') = my_map (globals s) /\
  random_calls s' = S (random_calls s).
Proof.
  intros H. cbv zeta. unfold move_randomly, call_random. cbv zeta.
  set (r := to_int16 (random A (random_calls s) 0 4)).
  destruct (r =? 0); [|destruct (r =? 1); [|destruct (r =? 2);
    [|destruct (r =? 3)]]].
  - repeat split; apply H.
  - repeat split; apply H.
  - split; [apply step_forward_well_placed; exact H|].
    split; [|reflexivity].
    unfold on_globals. cbn [globals set_globals].
    etransitivity; [apply step_forward_map|reflexivity].
  - split; [apply (step_forward_well_placed P (fneg player_walk_speed));
            exact H|].
    split; [|reflexivity].
    unfold on_globals, step_backward. cbn [globals set_globals].
    etransitivity; [apply step_forward_map|reflexivity].
  - repeat split; apply H.
Qed.

(** ** Concrete runs *)

(** C7 as stated fails: from the bearing 2^-20, [strafe_left] comes back
    with the bearing 0, because 2^-20 - 90 rounds to -90. *)
Lemma strafe_left_loses_small_bearing :
  player_bearing small_bearing_world = S754_finite false 8388608 (-43) /\
  valid (player_bearing small_bearing_world) = true /\
  player_bearing (strafe_left Ref.ref_platform player_walk_speed
                    small_bearing_world) = S754_zero false /\
  same_float
    (player_bearing (strafe_left Ref.ref_platform player_walk_speed
                       small_bearing_world))
    (player_bearing small_bearing_world) = false.
Proof. vm_compute. repeat split. Qed.

(** C8 as stated fails: from the bearing 2^-20, [turn_right(90)] then
    [turn_left(90)] leaves the bearing 0, which is not congruent to 2^-20
    modulo 360. *)
Lemma turn_right_then_left_not_congruent :
  player_bearing small_bearing_world = S754_finite false 8388608 (-43) /\
  player_bearing (turn_left (of_int 90)
                    (turn_right (of_int 90) small_bearing_world))
    = S754_zero false /\
  ~ congruent_mod_360
      (player_bearing (turn_left (of_int 90)
                         (turn_right (of_int 90) small_bearing_world)))
      (player_bearing small_bearing_world).
Proof.
  split; [reflexivity|]. split; [vm_compute; reflexivity|].
  intros (_ & _ & k & Hk).
  replace (player_bearing (turn_left (of_int 90)
             (turn_right (of_int 90) small_bearing_world)))
    with (S754_zero false) in Hk by (vm_compute; reflexivity).
  change (player_bearing small_bearing_world)
    with (S754_finite false 8388608 (-43)) in Hk.
  unfold Qeq in Hk. cbn in Hk. lia.
Qed.

(** From the bearing 2^127 the product theta * PI overflows: every one of
    the NUM_SLIVERS view angles is +infinity in radians. *)
Lemma huge_bearing_angles_overflow :
  forallb (fun j =>
             same_float
               (to_radians (ray_angle (player_bearing huge_bearing_world) j))
               (S754_infinity false))
          (seq 0 (Z.to_nat NUM_SLIVERS)) = true.
Proof. vm_compute. reflexivity. Qed.

(** There the reference math library returns NaN, as IEEE 754 asks of the
    cosine and the sine of an infinity. *)
Lemma huge_bearing_library_nan (j : nat) :
  (j < Z.to_nat NUM_SLIVERS)%nat ->
  cos Ref.ref_platform
    (to_radians (ray_angle (player_bearing huge_bearing_world) j))
    = S754_nan /\
  sin Ref.ref_platform
    (to_radians (ray_angle (player_bearing huge_bearing_world) j))
    = S754_nan.
Proof.
  intros Hj. pose proof huge_bearing_angles_overflow as H.
  rewrite forallb_forall in H.
  assert (Hin : In j (seq 0 (Z.to_nat NUM_SLIVERS)))
    by (apply in_seq; lia).
  specialize (H j Hin). revert H.
  generalize (to_radians (ray_angle (player_bearing huge_bearing_world) j)).
  intros [ | [ | ] | | ] H; try discriminate H. split; reflexivity.
Qed.

(** C10 as stated fails: with the player at (5.5, 5.5), strictly inside the
    map, and the finite bearing 2^127, the point sampled at the last
    iteration (wall height 2) passes the four bounds tests in every
    column, and [ray_cast] ends every one of its NUM_SLIVERS columns in the
    no-hit branch, at wall height 0. *)
Lemma huge_bearing_no_column_hits :
  inside_map huge_bearing_world /\
  sound (player_bearing huge_bearing_world) = true /\
  (forall j, (j < Z.to_nat NUM_SLIVERS)%nat ->
     out_of_bounds
       (ray_x Ref.ref_platform huge_bearing_world
          (ray_angle (player_bearing huge_bearing_world) j) (of_int 2))
       (ray_y Ref.ref_platform huge_bearing_world
          (ray_angle (player_bearing huge_bearing_world) j) (of_int 2))
     = false) /\
  exists w' cs,
    ray_cast Ref.ref_platform huge_bearing_world = Some (w', cs) /\
    Z.of_nat (List.length cs) = NUM_SLIVERS /\
    Forall (fun ic => col_hit (snd ic) = false /\
                      col_wall_height (snd ic) = of_int 0 /\
                      col_d (snd ic) = None) cs.
Proof.
  split; [vm_compute; repeat split|].
  split; [vm_compute; reflexivity|].
  split.
  - intros j Hj. destruct (huge_bearing_library_nan j Hj) as [Hc Hs].
    exact (proj2 (proj2 (nan_ray_passes_bounds_tests
                           Ref.ref_platform huge_bearing_world _ (of_int 2)
                           Hc Hs))).
  - apply nan_columns_miss.
    + exact huge_bearing_library_nan.
    + vm_compute. reflexivity.
Qed.

(** The reference math library is usable at the 128 view angles of the
    power-up world. *)
Lemma ref_trig_usable_at_start :
  forallb (fun j => trig_usableb Ref.ref_platform
                      (ray_angle (player_bearing Ref.start_world) j))
          (seq 0 (Z.to_nat NUM_SLIVERS)) = true.
Proof. vm_compute. reflexivity. Qed.

Lemma ref_trig_sound_at_start :
  forallb (fun j => trig_sound Ref.ref_platform
                      (ray_angle (player_bearing Ref.start_world) j))
          (seq 0 (Z.to_nat NUM_SLIVERS)) = true.
Proof. vm_compute. reflexivity. Qed.

(** X1 at the power-up world on the reference platform. *)
Lemma ray_cast_subscripts_inside_map_at_start :
  exists w' cs l,
    ray_cast Ref.ref_platform Ref.start_world = Some (w', cs) /\
    map_reads w' = l ++ map_reads Ref.start_world /\
    Forall (fun ij => in_map (fst ij) (snd ij) = true) l.
Proof.
  apply (ray_cast_subscripts_inside_map Ref.ref_platform Ref.start_world).
  - vm_compute. reflexivity.
  - vm_compute. reflexivity.
  - intros j Hj. pose proof ref_trig_sound_at_start as H.
    rewrite forallb_forall in H. apply H. apply in_seq. lia.
Defined.

(** C1 on the reference platform: the subscript (10, 5) is evaluated. *)
Lemma step_forward_subscript_outside_map_ref :
  inside_map east_edge_world /\
  map_reads east_edge_world = [] /\
  map_reads (step_forward Ref.ref_platform player_walk_speed east_edge_world)
    = [(10, 5)] /\
  in_map 10 5 = false /\
  rejected east_edge_world
    (step_forward Ref.ref_platform player_walk_speed east_edge_world).
Proof.
  apply (step_forward_subscript_outside_map Ref.ref_platform).
  - vm_compute. reflexivity.
  - vm_compute. reflexivity.
Defined.

(** C7 at the power-up world (bearing 270 = 24 turn steps). *)
Lemma strafe_left_restores_start_bearing :
  player_bearing (strafe_left Ref.ref_platform player_walk_speed
                    Ref.start_world) = player_bearing Ref.start_world.
Proof.
  apply (strafe_left_as_composition Ref.ref_platform player_walk_speed
           Ref.start_world) with (n := 24).
  - unfold GRID_SPAN. lia.
  - vm_compute. reflexivity.
Defined.

(** C8 at the power-up world, turning by one turn step. *)
Lemma turn_right_then_left_at_start :
  player_bearing (turn_left (grid_bearing 1)
                    (turn_right (grid_bearing 1) Ref.start_world))
    = player_bearing Ref.start_world /\
  congruent_mod_360
    (player_bearing (turn_left (grid_bearing 1)
                       (turn_right (grid_bearing 1) Ref.start_world)))
    (player_bearing Ref.start_world).
Proof.
  apply (turn_right_then_left_on_grid Ref.start_world 24 1).
  - unfold BEARING_SPAN. lia.
  - unfold ANGLE_SPAN. lia.
  - vm_compute. reflexivity.
Defined.

(** C10 at the power-up world on the reference platform. *)
Lemma every_column_hits_at_start :
  exists w' cs,
    ray_cast Ref.ref_platform Ref.start_world = Some (w', cs) /\
    Z.of_nat (List.length cs) = NUM_SLIVERS /\
    radius (of_int 2) = of_int 32 /\
    (forall j, (j < Z.to_nat NUM_SLIVERS)%nat ->
       out_of_bounds
         (ray_x Ref.ref_platform Ref.start_world
            (ray_angle (player_bearing Ref.start_world) j) (of_int 2))
         (ray_y Ref.ref_platform Ref.start_world
            (ray_angle (player_bearing Ref.start_world) j) (of_int 2))
       = true) /\
    Forall (fun ic => col_hit (snd ic) = true /\
                      fle (of_int 2) (col_wall_height (snd ic)) = true) cs.
Proof.
  apply (every_column_hits Ref.ref_platform Ref.start_world).
  - vm_compute. repeat split.
  - intros j Hj. pose proof ref_trig_usable_at_start as H.
    rewrite forallb_forall in H.
    assert (Hin : In j (seq 0 (Z.to_nat NUM_SLIVERS)))
      by (apply in_seq; lia).
    specialize (H j Hin). unfold trig_usableb in H.
    apply orb_prop in H. exact H.
Defined.

(** A committed step: from the power-up pose, bearing 0, in the empty map
    the player moves from x = 5.5 to x = 5.6 and nothing is sounded. *)
Example step_forward_commits_in_the_open :
  let w := Ref.make_world Ref.empty_map (Ref.ratio 11 2) (Ref.ratio 11 2)
             (of_int 0) in
  let w' := step_forward Ref.ref_platform player_walk_speed w in
  accepted w w' /\
  player_x w' = fadd (Ref.ratio 11 2) player_walk_speed /\
  player_y w' = Ref.ratio 11 2 /\ map_reads w' = [(5, 5)].
Proof. vm_compute. repeat split. Qed.

(** A refused step: with a wall block in cell (5, 3) and the player at
    (5.5, 4.05) facing it (bearing 270), the step is refused, the error cue
    is sounded, and pose and bearing stay. *)
Example step_forward_refuses_at_a_wall :
  let w := Ref.make_world Ref.one_block_map (Ref.ratio 11 2) (Ref.ratio 81 20)
             (of_int 270) in
  let w' := step_forward Ref.ref_platform player_walk_speed w in
  rejected w w' /\ player_x w' = player_x w /\ player_y w' = player_y w /\
  player_bearing w' = player_bearing w /\ map_reads w' = [(5, 3)].
Proof. vm_compute. repeat split. Qed.

(** A scan that ends on a wall: one column straight ahead of the player
    (angle 270) toward the block in cell (5, 3) stops at wall height 42,
    after 12 iterations. *)
Example scan_hits_the_block :
  exists w' c,
    scan Ref.ref_platform SCAN_FUEL 64 (of_int 270) (of_int screen_height)
      (Ref.make_world Ref.one_block_map (Ref.ratio 11 2) (Ref.ratio 11 2)
         (of_int 270)) = Some (w', c) /\
    col_hit c = true /\ col_wall_height c = of_int 42 /\
    col_d c = Some (radius (of_int 42)) /\
    List.length (col_samples c) = 12%nat.
Proof. eexists _, _. vm_compute. repeat split. Qed.

(** The facts about the power-up state and the reference platform and
    core that the runs below start from. *)
Lemma start_world_well_placed : well_placed Ref.start_world.
Proof. split; [vm_compute; repeat split|vm_compute; reflexivity]. Qed.

Lemma power_up_inside_map : inside_map (globals power_up).
Proof. vm_compute. repeat split. Qed.

Lemma power_up_shaped : shaped (my_map (globals power_up)).
Proof. apply shaped_empty_map. Qed.

Lemma power_up_index :
  in_map (to_int Ref.ref_platform (player_x (globals power_up)))
         (to_int Ref.ref_platform (player_y (globals power_up))) = true.
Proof. vm_compute. reflexivity. Qed.

Lemma ref_int_casts : int_casts Ref.ref_platform.
Proof. intros x. cbn. unfold is_int, INT_MIN, INT_MAX. lia. Qed.

Lemma ref_random_in_range : random_in_range ref_core.
Proof.
  intros n lo hi H. cbn [random ref_core].
  replace (lo <? hi) with true by (symmetry; apply Z.ltb_lt; exact H).
  pose proof (Z.mod_pos_bound (Z.of_nat n * 7919 + 13) (hi - lo)
                ltac:(lia)).
  lia.
Qed.

(** X2 at the power-up world: after a step forward the player still
    stands in an empty cell. *)
Lemma movement_keeps_player_in_empty_cell_at_start :
  well_placed (step_forward Ref.ref_platform player_walk_speed
                 Ref.start_world) /\
  well_placed (strafe_left Ref.ref_platform player_walk_speed
                 Ref.start_world).
Proof.
  destruct (movement_keeps_player_in_empty_cell Ref.ref_platform
              player_walk_speed player_turn_speed Ref.start_world
              start_world_well_placed)
    as (_ & H1 & _ & _ & _ & H2 & _).
  split; assumption.
Defined.

(** X3 at the power-up world (bearing 270 = 24 turn steps). *)
Lemma strafe_right_restores_start_bearing :
  player_bearing (strafe_right Ref.ref_platform player_walk_speed
                    Ref.start_world) = player_bearing Ref.start_world.
Proof.
  apply (strafe_right_as_composition Ref.ref_platform player_walk_speed
           Ref.start_world) with (n := 24).
  - unfold GRID_SPAN. lia.
  - vm_compute. reflexivity.
Defined.

(** X4 on the map with one wall block. *)
Lemma clear_map_empties_one_block_map :
  exists w',
    clear_map (Ref.make_world Ref.one_block_map (Ref.ratio 11 2)
                 (Ref.ratio 11 2) (of_int 270)) = Some w' /\
    my_map w' = Ref.empty_map.
Proof.
  destruct (clear_map_empties_map
              (Ref.make_world Ref.one_block_map (Ref.ratio 11 2)
                 (Ref.ratio 11 2) (of_int 270)))
    as (w' & E & Hw & _).
  - split; [reflexivity|]. repeat constructor.
  - exists w'. split; [exact E|]. now rewrite Hw.
Defined.

(** X5 at power-up: the player's cell (5, 5) is empty afterwards. *)
Lemma randomize_map_cells_at_power_up :
  exists s',
    randomize_map Ref.ref_platform ref_core 17 power_up = Some s' /\
    cell (my_map (globals s')) 5 5 = 0.
Proof.
  destruct (randomize_map_cells Ref.ref_platform ref_core 17 power_up
              power_up_shaped) as [H _].
  destruct (H power_up_index) as (s' & E & _ & _ & Hc & _).
  exists s'. split; [exact E|exact Hc].
Defined.

(** X6 at power-up with density 100: a wall in cell (0, 0). *)
Lemma randomize_map_full_at_power_up :
  exists s',
    randomize_map Ref.ref_platform ref_core 100 power_up = Some s' /\
    cell (my_map (globals s')) 0 0 = 1.
Proof.
  destruct (randomize_map_density_extremes Ref.ref_platform ref_core 100
              power_up ref_random_in_range power_up_shaped power_up_index)
    as (s' & E & _ & _ & H).
  exists s'. split; [exact E|].
  now rewrite (H ltac:(lia) 0 0 eq_refl).
Defined.

(** X8 at the full wall height: 65 pixels, the last on row 64. *)
Lemma render_sliver_draws_full_sliver :
  List.length (sliver_pixels (wall_textures Ref.start_world) 0 FULL_SCAN)
    = 65%nat /\
  In (0, 64, true)
     (sliver_pixels (wall_textures Ref.start_world) 0 FULL_SCAN).
Proof.
  destruct (render_sliver_draws_sliver Ref.ref_platform 0 (of_int 1)
              Ref.start_world FULL_SCAN) as (_ & Hl & _ & Hi).
  - unfold FULL_SCAN. cbn. lia.
  - split; [exact Hl|exact Hi].
Defined.

(** X12 on a steep line: from (3, 4) to (5, 20) two pixels are drawn. *)
Lemma pete_line_steep_line :
  List.length (line_pixels Ref.ref_platform (stroke_color power_up)
                 3 4 5 20) = 2%nat.
Proof.
  destruct (pete_line_pixels_drawn Ref.ref_platform 3 4 5 20 power_up)
    as (_ & Hl & _); try (unfold is_int, INT_MIN, INT_MAX; lia).
  exact Hl.
Defined.

(** X14 at power-up on the reference platform. *)
Lemma draw_map_overlay_at_power_up :
  exists s', draw_map Ref.ref_platform power_up = Some s' /\
             stroke_color s' = 1.
Proof.
  destruct (draw_map_overlay Ref.ref_platform power_up ref_int_casts)
    as (E & _).
  eexists. split; [exact E|reflexivity].
Defined.

(** X16 at power-up. *)
Lemma setup_places_player_at_power_up :
  exists s',
    setup Ref.ref_platform ref_core true power_up = Some s' /\
    well_placed (globals s') /\ frame_number s' = 0.
Proof.
  destruct (setup_places_player Ref.ref_platform ref_core power_up
              power_up_shaped power_up_inside_map)
    as (_ & s' & E & Hw & _ & _ & _ & _ & _ & Hf & _).
  exists s'. split; [exact E|]. split; [exact Hw|exact Hf].
Defined.

(** X17 at power-up with the forward button held. *)
Lemma loop_frame_at_power_up :
  exists s',
    loop Ref.ref_platform ref_core forward_held power_up = Some s' /\
    frame_number s' = 1.
Proof.
  destruct (loop_frame Ref.ref_platform ref_core forward_held power_up
              ref_int_casts)
    as (s' & _ & _ & _ & E & _ & _ & _ & _ & _ & Hf).
  exists s'. split; [exact E|]. rewrite Hf. reflexivity.
Defined.

(** X20 at power-up: the marker at (11, 11) is white. *)
Lemma loop_frame_shows_marker_at_power_up :
  exists s' f,
    loop Ref.ref_platform ref_core forward_held power_up = Some s' /\
    shown s' = f :: shown power_up /\
    pixel_at (pixels f) (marker_x Ref.ref_platform (globals power_up))
      (marker_y Ref.ref_platform (globals power_up)) = Some true.
Proof.
  destruct (loop_frame_shows Ref.ref_platform ref_core forward_held power_up
              ref_int_casts) as (s' & f & w1 & cs & E & Hs & _ & Hm & _).
  exists s', f. split; [exact E|]. split; [exact Hs|exact Hm].
Defined.

(** X18 at power-up: three passes with the forward button held. *)
Lemma run_keeps_player_in_empty_cell_at_power_up :
  exists s',
    run Ref.ref_platform ref_core true
      [forward_held; forward_held; forward_held] power_up = Some s' /\
    well_placed (globals s') /\ frame_number s' = 3 /\
    List.length (shown s') = 3%nat.
Proof.
  destruct (run_keeps_player_in_empty_cell Ref.ref_platform ref_core
              [forward_held; forward_held; forward_held] power_up
              ref_int_casts power_up_shaped power_up_inside_map)
    as (s0 & s' & _ & E & Hw & _ & _ & Hf & Hl).
  exists s'. split; [exact E|]. split; [exact Hw|].
  split; [exact Hf|exact Hl].
Defined.

(** X19 at power-up. *)
Lemma move_randomly_at_power_up :
  well_placed (globals (move_randomly Ref.ref_platform ref_core power_up)).
Proof.
  apply (move_randomly_keeps_player_in_empty_cell Ref.ref_platform ref_core
           power_up).
  split; [exact power_up_inside_map|vm_compute; reflexivity].
Defined.
